(** * Package [inspect] of the Spinnaker operator

    A shallow embedding of [Source], [toSpecificArray], [Merge],
    [InspectStrings] and [inspectStringReflect], and the proofs of their
    specification.  The functions are written with Go's [reflect] package,
    so the development starts with a model of the part of [reflect] they
    use: kinds, types, values, [ValueOf], [Elem], [Type], [AssignableTo],
    [Set], [Append], [MapIndex] and [SetMapIndex], with the run-time panics
    of these operations.

    The values are those of the types listed at [rtype]; defined types other
    than structs, unexported struct fields, maps with keys that are not
    strings, channels and functions are outside the model. *)

From Stdlib Require Import List String Ascii ZArith Bool Lia Permutation.
Import ListNotations.
Local Open Scope string_scope.
Local Open Scope list_scope.

(** ** A model of [reflect] *)

Module reflect.

(** [reflect.Kind], restricted to the kinds of the values modelled here. *)
Inductive Kind :=
| Invalid | Bool | Int | Float64 | String
| Interface | Slice | Array | Map | Ptr | Struct.

(** [reflect.Type].  The universe: the predeclared types [bool], [int],
    [float64] and [string], the empty interface, slices, arrays, maps with
    [string] keys, pointers, and named struct types (identified by their
    name, as Go does for defined types). *)
Inductive rtype :=
| TBool | TInt | TFloat64 | TString
| TInterface
| TSlice (elem : rtype)
| TArray (len : nat) (elem : rtype)
| TMap (elem : rtype)
| TPtr (elem : rtype)
| TStruct (name : string).

(** [reflect.StructTag]: the conventional [key:"value"] pairs. *)
Definition StructTag := list (string * string).

(** [reflect.StructField].  All fields are exported. *)
Record StructField := mkField {
  Name : string;
  FType : rtype;          (* [StructField.Type] *)
  Tag : StructTag
}.

#[local] Unset Elimination Schemes.

(** [reflect.Value].  A value carries the static type of its elements, as
    a Go value does: the elements of a [[]interface{}] are [VInterface]
    values, those of a [[]string] are [VString] values.  [ZeroValue] is the
    zero [reflect.Value], which [Elem] returns for a nil pointer or a nil
    interface; so [VPtr t ZeroValue] is the nil pointer of type [*t] and
    [VInterface ZeroValue] the nil interface.  A map lists its entries in
    the order in which [range] and [MapKeys] enumerate them in the call at
    hand; Go fixes no order, and another call may enumerate them in
    another order.  A nil slice or map is not distinguished from an empty
    one: the functions of package [inspect] read a nil map or slice as an
    empty one and write to none they were given; [inspectStringReflect]
    returns an empty slice as it is, and a new map for every map, so that
    a map that was nil comes back empty and not nil.  A write to a nil map
    panics; the code that does such writes, in package [transformer], has
    nil maps of its own. *)
Inductive Value :=
| ZeroValue
| VBool (b : bool)
| VInt (n : Z)
| VFloat64 (bits : Z)
| VString (s : string)
| VInterface (elem : Value)
| VSlice (et : rtype) (l : list Value)
| VArray (et : rtype) (l : list Value)
| VMap (et : rtype) (m : list (string * Value))
| VPtr (et : rtype) (elem : Value)
| VStruct (name : string) (fields : list (StructField * Value)).

#[local] Set Elimination Schemes.

(** [map[string]interface{}]: every entry is a [VInterface]. *)
Definition mapStringInterface := list (string * Value).

Fixpoint rtype_eqb (t u : rtype) : bool :=
  match t, u with
  | TBool, TBool | TInt, TInt | TFloat64, TFloat64 | TString, TString => true
  | TInterface, TInterface => true
  | TSlice a, TSlice b => rtype_eqb a b
  | TArray n a, TArray m b => Nat.eqb n m && rtype_eqb a b
  | TMap a, TMap b => rtype_eqb a b
  | TPtr a, TPtr b => rtype_eqb a b
  | TStruct n, TStruct m => String.eqb n m
  | _, _ => false
  end.

(** [Value.Kind]. *)
Definition kind (v : Value) : Kind :=
  match v with
  | ZeroValue => Invalid
  | VBool _ => Bool
  | VInt _ => Int
  | VFloat64 _ => Float64
  | VString _ => String
  | VInterface _ => Interface
  | VSlice _ _ => Slice
  | VArray _ _ => Array
  | VMap _ _ => Map
  | VPtr _ _ => Ptr
  | VStruct _ _ => Struct
  end.

(** [Value.Type]; [None] is the panic on the zero Value. *)
Definition TypeOf (v : Value) : option rtype :=
  match v with
  | ZeroValue => None
  | VBool _ => Some TBool
  | VInt _ => Some TInt
  | VFloat64 _ => Some TFloat64
  | VString _ => Some TString
  | VInterface _ => Some TInterface
  | VSlice et _ => Some (TSlice et)
  | VArray et l => Some (TArray (List.length l) et)
  | VMap et _ => Some (TMap et)
  | VPtr et _ => Some (TPtr et)
  | VStruct name _ => Some (TStruct name)
  end.

(** [Type.Elem]; [None] is the panic on a type that has no element type. *)
Definition TElem (t : rtype) : option rtype :=
  match t with
  | TSlice e | TArray _ e | TMap e | TPtr e => Some e
  | _ => None
  end.

(** [Value.Elem], for a value of kind [Interface] or [Ptr]. *)
Definition Elem (v : Value) : Value :=
  match v with
  | VInterface e | VPtr _ e => e
  | _ => ZeroValue
  end.

(** [Type.AssignableTo]: in this universe a type is assignable to itself
    and to the empty interface. *)
Definition AssignableTo (t u : rtype) : bool :=
  match u with
  | TInterface => true
  | _ => rtype_eqb t u
  end.

(** [reflect.ValueOf]: the concrete value an [interface{}] holds, the zero
    Value for the nil interface.  An interface never holds an interface. *)
Fixpoint ValueOf (i : Value) : Value :=
  match i with
  | VInterface e => ValueOf e
  | _ => i
  end.

(** [Value.Interface]; [None] is the panic on the zero Value. *)
Definition Interface_ (v : Value) : option Value :=
  match ValueOf v with
  | ZeroValue => None
  | x => Some x
  end.

(** What a slot of static type [t] holds after [Set(x)], [Append(_, x)] or
    [SetMapIndex(_, x)]: [None] is the panic when [x] is the zero Value or
    its type is not assignable to [t]; a slot of interface type wraps a
    concrete [x]. *)
Definition assignTo (t : rtype) (x : Value) : option Value :=
  match TypeOf x with
  | None => None
  | Some tx =>
      if AssignableTo tx t then
        match t, x with
        | TInterface, VInterface _ => Some x
        | TInterface, _ => Some (VInterface x)
        | _, _ => Some x
        end
      else None
  end.

(** [m[k]] and [Value.MapIndex]. *)
Fixpoint MapIndex (m : list (string * Value)) (k : string) : option Value :=
  match m with
  | [] => None
  | (k', x) :: m' => if String.eqb k' k then Some x else MapIndex m' k
  end.

(** [m[k] = x]: replaces the entry of [k], or adds one. *)
Fixpoint mapassign (m : list (string * Value)) (k : string) (x : Value)
  : list (string * Value) :=
  match m with
  | [] => [(k, x)]
  | (k', y) :: m' =>
      if String.eqb k' k then (k, x) :: m' else (k', y) :: mapassign m' k x
  end.

(** [delete(m, k)]. *)
Fixpoint mapdelete (m : list (string * Value)) (k : string)
  : list (string * Value) :=
  match m with
  | [] => []
  | (k', y) :: m' =>
      if String.eqb k' k then mapdelete m' k else (k', y) :: mapdelete m' k
  end.

(** [Value.SetMapIndex] on a map whose element type is [et]: the zero
    Value deletes the key. *)
Definition SetMapIndex (et : rtype) (m : list (string * Value))
           (k : string) (x : Value) : option (list (string * Value)) :=
  match x with
  | ZeroValue => Some (mapdelete m k)
  | _ => option_map (mapassign m k) (assignTo et x)
  end.

(** [StructTag.Lookup]. *)
Fixpoint Lookup (tag : StructTag) (key : string) : option string :=
  match tag with
  | [] => None
  | (k, x) :: tag' => if String.eqb k key then Some x else Lookup tag' key
  end.

End reflect.

(** ** Package [inspect] *)

Module inspect.
Import reflect.

(** The values of Go's [error] that the package builds or passes on; each
    constructor keeps the arguments of the call that builds the message. *)
Inductive error :=
| ErrCanOnlySourceStructs
    (* errors.New("can only source structs") *)
| ErrUnassignableAt (field : string) (expected found : rtype)
    (* fmt.Errorf("found unassignable type at %s, expected %v but found %v", ...) *)
| ErrUnassignable (expected found : rtype)
    (* fmt.Errorf("found unassignable type, expected %v but found %v", ...) *)
| ErrUnaddressable (nf : Value)
    (* fmt.Errorf("unaddressable value found %v", nf) *)
| ErrHandler (msg : string).
    (* an error made by a string handler *)

(** [type stringHandler func(val string) (string, error)]. *)
Definition stringHandler := string -> string * option error.

(** How a call that returns [(reflect.Value, error)] ends. *)
Inductive returned :=
| Ret (v : Value) (err : option error)
| Panic.

(** A run of the traversal: the strings handed to the handler, in call
    order, and the way the call ended. *)
Definition run : Type := list string * returned.

(** How a [for] loop of [inspectStringReflect] ends. *)
Inductive loopEnd (S : Type) :=
| Completed (s : S)
| Failed (err : error)
| Panicked.
Arguments Completed {S} s.
Arguments Failed {S} err.
Arguments Panicked {S}.

Section Loop.
Context {A S : Type}.
(** [rv, err := inspectStringReflect(item, stringHandler)] *)
Variable body : A -> run.
(** what the iteration does with [rv]; [None] is a panic *)
Variable store : A -> Value -> S -> option S.

(** The loops of [inspectStringReflect]: an error or a panic of an
    iteration ends the loop at once. *)
Fixpoint forEach (items : list A) (s : S) : list string * loopEnd S :=
  match items with
  | [] => ([], Completed s)
  | x :: rest =>
      match body x with
      | (log, Panic) => (log, Panicked)
      | (log, Ret _ (Some err)) => (log, Failed err)
      | (log, Ret rv None) =>
          match store x rv s with
          | None => (log, Panicked)
          | Some s' =>
              let '(log', e) := forEach rest s' in (log ++ log', e)
          end
      end
  end.
End Loop.

(** [inspectStringReflect].  The new struct and the new slice are built
    field by field and index by index: the zero values [reflect.New] and
    [reflect.MakeSlice] put there first are all overwritten before the
    value is returned.  Field [nf] of the new struct is addressable, since
    [nsv.Elem()] is. *)
Fixpoint inspectStringReflect (v : Value) (stringHandler : stringHandler)
  {struct v} : run :=
  match v with
  | VPtr _ e =>
      match inspectStringReflect e stringHandler with
      | (log, Panic) => (log, Panic)
      | (log, Ret _ (Some err)) => (log, Ret v (Some err))
      | (log, Ret rv None) =>
          (* eV := reflect.New(v.Elem().Type()); eV.Elem().Set(rv) *)
          match TypeOf e with
          | None => (log, Panic)
          | Some t =>
              match assignTo t rv with
              | None => (log, Panic)
              | Some x => (log, Ret (VPtr t x) None)
              end
          end
      end
  | VStruct name fields =>
      match forEach (fun f => inspectStringReflect (snd f) stringHandler)
                    (fun f rv nsv =>
                       option_map (fun x => nsv ++ [(fst f, x)])
                                  (assignTo (FType (fst f)) rv))
                    fields [] with
      | (log, Panicked) => (log, Panic)
      | (log, Failed err) => (log, Ret v (Some err))
      | (log, Completed nsv) => (log, Ret (VStruct name nsv) None)
      end
  | VString s =>
      match stringHandler s with
      | (_, Some err) => ([s], Ret v (Some err))
      | (s', None) => ([s], Ret (VString s') None)
      end
  | VSlice et l =>
      if Nat.eqb (List.length l) 0 then ([], Ret v None)
      else
        match forEach (fun x => inspectStringReflect x stringHandler)
                      (fun _ rv nsv =>
                         option_map (fun x => nsv ++ [x]) (assignTo et rv))
                      l [] with
        | (log, Panicked) => (log, Panic)
        | (log, Failed err) => (log, Ret v (Some err))
        | (log, Completed nsv) => (log, Ret (VSlice et nsv) None)
        end
  | VArray et l =>
      if Nat.eqb (List.length l) 0 then ([], Ret v None)
      else ([], Panic)      (* reflect.MakeSlice of a non-slice type *)
  | VMap et m =>
      match forEach (fun kx => inspectStringReflect (snd kx) stringHandler)
                    (fun kx rv nmv => SetMapIndex et nmv (fst kx) rv)
                    m [] with
      | (log, Panicked) => (log, Panic)
      | (log, Failed err) => (log, Ret v (Some err))
      | (log, Completed nmv) => (log, Ret (VMap et nmv) None)
      end
  | VInterface e => inspectStringReflect e stringHandler
  | _ => ([], Ret v None)
  end.

(** [InspectStrings]. *)
Definition InspectStrings (i : Value) (handler : stringHandler) : run :=
  match inspectStringReflect (ValueOf i) handler with
  | (log, Panic) => (log, Panic)
  | (log, Ret t err) =>
      match Interface_ t with
      | None => (log, Panic)
      | Some x => (log, Ret x err)
      end
  end.

(** [Convert] and [ConvertJSON] only call [encoding/json]; they are not
    modelled. *)

(** The two steps [p := strings.Index(s, ","); if p > -1 { s = s[:p] }]. *)
Definition beforeComma (s : string) : string :=
  match index 0 "," s with
  | Some p => substring 0 p s
  | None => s
  end.

(** The loop of [toSpecificArray]: [te] is [target.Elem()], [result] the
    slice built so far.  [v.Type()] panics on the zero Value that [Elem]
    returns for a nil element. *)
Fixpoint toSpecificArrayLoop (te : rtype) (items result : list Value)
  : returned :=
  match items with
  | [] => Ret (VSlice te result) None
  | v :: rest =>
      let v := match kind v with
               | Interface | Ptr => Elem v
               | _ => v
               end in
      match TypeOf v with
      | None => Panic
      | Some tv =>
          if negb (AssignableTo tv te) then
            Ret ZeroValue (Some (ErrUnassignable te tv))
          else
            match assignTo te v with        (* reflect.Append(result, v) *)
            | None => Panic
            | Some x => toSpecificArrayLoop te rest (result ++ [x])
            end
      end
  end.

(** [toSpecificArray]; [target.Elem()] panics on a type without elements. *)
Definition toSpecificArray (array : Value) (target : rtype) : returned :=
  match TElem target with
  | None => Panic
  | Some te =>
      match array with
      | VSlice _ l | VArray _ l => toSpecificArrayLoop te l []
      | _ => Panic
      end
  end.

(** How [Source] ends: with its [error] result, or with a panic. *)
Inductive status :=
| Done (err : option error)
| Crashed.

(** [v.FieldByName(name).Set(x)] on the fields of an addressable struct:
    the first field called [name] is set; [None] is the panic of [Set]. *)
Fixpoint setField (fields : list (StructField * Value)) (name : string)
         (x : Value) : option (list (StructField * Value)) :=
  match fields with
  | [] => None
  | (f, y) :: rest =>
      if String.eqb (Name f) name
      then option_map (fun x' => (f, x') :: rest) (assignTo (FType f) x)
      else option_map (cons (f, y)) (setField rest name x)
  end.

(** [Set] panics on a struct that was not reached through a pointer. *)
Definition FieldByNameSet (addressable : bool)
           (fields : list (StructField * Value)) (name : string) (x : Value)
  : option (list (StructField * Value)) :=
  if addressable then setField fields name x else None.

(** The loop of [Source] over the fields [t.Field(j)] of the struct type;
    [fields] is the struct [v], which the loop updates in place. *)
Fixpoint sourceLoop (addressable : bool) (settings : mapStringInterface)
         (ts : list StructField) (fields : list (StructField * Value))
  : list (StructField * Value) * status :=
  match ts with
  | [] => (fields, Done None)
  | f :: rest =>
      match Lookup (Tag f) "json" with
      | None => sourceLoop addressable settings rest fields
      | Some s =>
          let s := beforeComma s in
          match MapIndex settings s with
          | None => sourceLoop addressable settings rest fields
          | Some setting =>
              let sv := ValueOf setting in
              match kind sv with
              | Slice | Array =>
                  match toSpecificArray sv (FType f) with
                  | Panic => (fields, Crashed)
                  | Ret _ (Some e) => (fields, Done (Some e))
                  | Ret av None =>
                      match FieldByNameSet addressable fields (Name f) av with
                      | None => (fields, Crashed)
                      | Some fields' =>
                          sourceLoop addressable settings rest fields'
                      end
                  end
              | _ =>
                  match TypeOf sv with
                  | None => (fields, Crashed)
                  | Some tsv =>
                      if negb (AssignableTo tsv (FType f)) then
                        (fields,
                         Done (Some (ErrUnassignableAt (Name f) (FType f) tsv)))
                      else
                        match FieldByNameSet addressable fields (Name f) sv with
                        | None => (fields, Crashed)
                        | Some fields' =>
                            sourceLoop addressable settings rest fields'
                        end
                  end
              end
          end
      end
  end.

(** [Source].  The result pairs the value [i] denotes after the call with
    the way the call ended. *)
Definition Source (i : Value) (settings : mapStringInterface)
  : Value * status :=
  let v := ValueOf i in
  let (v', viaPtr) := match kind v with
                      | Ptr => (Elem v, true)
                      | _ => (v, false)
                      end in
  match v' with
  | VStruct name fields =>
      let (fields', st) :=
        sourceLoop viaPtr settings (map fst fields) fields in
      (match v with
       | VPtr et _ => VPtr et (VStruct name fields')
       | _ => VStruct name fields'
       end, st)
  | _ => (i, Done (Some ErrCanOnlySourceStructs))
  end.

Section MergeBody.
(** [MergeRec ar bvm] stands for the recursive call [Merge(avm, bvm)],
    where [ar] is the map value that holds [avm]. *)
Variable MergeRec : Value -> mapStringInterface -> option mapStringInterface.

(** [combined = reflect.Append(combined, x)] for each [x] of [xs]; [et] is
    the element type of [combined]. *)
Fixpoint appendAll (et : rtype) (combined xs : list Value)
  : option (list Value) :=
  match xs with
  | [] => Some combined
  | x :: xs' =>
      match assignTo et x with
      | None => None
      | Some y => appendAll et (combined ++ [y]) xs'
      end
  end.

(** The body of the first loop of [Merge], for the entry [(k, av)] of [a];
    [None] is a panic. *)
Definition mergeEntry (b : mapStringInterface) (k : string) (av : Value)
           (result : mapStringInterface) : option mapStringInterface :=
  let ar := ValueOf av in
  match ar with
  | VMap TInterface _ =>           (* avm, ok := av.(map[string]interface{}) *)
      match MapIndex b k with
      | Some bv =>
          match ValueOf bv with
          | VMap TInterface bvm =>
              option_map
                (fun m => mapassign result k (VInterface (VMap TInterface m)))
                (MergeRec ar bvm)
          | _ => Some (mapassign result k bv)
          end
      | None => Some (mapassign result k av)
      end
  | VSlice ta la =>                (* ar.Kind() == reflect.Slice *)
      match MapIndex b k with
      | Some bv =>
          match ValueOf bv with
          | VSlice _ lb =>
              match appendAll ta [] la with
              | None => None
              | Some combined =>
                  match appendAll ta combined lb with
                  | None => None
                  | Some combined' =>
                      Some (mapassign result k (VInterface (VSlice ta combined')))
                  end
              end
          | _ => Some (mapassign result k bv)
          end
      | None => Some result
      end
  | _ =>
      match MapIndex b k with
      | Some bv => Some (mapassign result k bv)
      | None => Some (mapassign result k av)
      end
  end.

(** [for k, av := range a { ... }] *)
Fixpoint mergeRangeA (b a result : mapStringInterface)
  : option mapStringInterface :=
  match a with
  | [] => Some result
  | (k, av) :: rest =>
      match mergeEntry b k av result with
      | None => None
      | Some result' => mergeRangeA b rest result'
      end
  end.
End MergeBody.

(** [for k, bv := range b { if _, ok := a[k]; !ok { result[k] = bv } }] *)
Fixpoint mergeRangeB (a b result : mapStringInterface) : mapStringInterface :=
  match b with
  | [] => result
  | (k, bv) :: rest =>
      match MapIndex a k with
      | None => mergeRangeB a rest (mapassign result k bv)
      | Some _ => mergeRangeB a rest result
      end
  end.

(** [Merge], by recursion on the value that holds the map [a]; [None] is a
    panic ([reflect.Append] of a value that is not assignable). *)
Fixpoint MergeValue (am : Value) (b : mapStringInterface) {struct am}
  : option mapStringInterface :=
  match am with
  | VMap _ a =>
      match mergeRangeA MergeValue b a [] with
      | None => None
      | Some result => Some (mergeRangeB a b result)
      end
  | _ => None
  end.

Definition Merge (a b : mapStringInterface) : option mapStringInterface :=
  MergeValue (VMap TInterface a) b.

End inspect.

Import reflect inspect.

(** ** Package [transformer]: the defaults transformer

    [defaultsTransformer] works on the profiles of the Spinnaker
    configuration, [config.Profiles], a [map[string]interfaces.FreeForm]
    where [FreeForm] is a [map[string]interface{}].  A Go map variable can
    be nil, and a write to a nil map panics: a map variable is an [option],
    [None] being nil, and what a profile holds under a key is a nil
    [map[string]interface{}] or a value of the model, whose maps are not
    nil.  No two places share a map, so that the write
    [archaius["enabled"] = false] shows in the profile that holds
    [archaius] and nowhere else.  The configuration that
    [a.svc.GetSpinnakerConfig()] returns is there (not a nil pointer). *)

Module transformer.

(** The errors of the transformer; each constructor keeps the arguments of
    the [fmt.Errorf] call (the inner error is formatted with [%e]). *)
Inductive error :=
| ErrArchaiusNotObject (archaius : option mapStringInterface)
    (* fmt.Errorf("archaius expected to be an object, but found %s instead",
                  archaius) *)
| ErrHandlingProfile (profileName : string) (err : error)
    (* fmt.Errorf("error while handling profile %s: %e", profileName, err) *)
| ErrSettingArchaius (err : error).
    (* fmt.Errorf("error while setting Archaius: %e", err) *)

(** How a call that returns an [error] ends. *)
Inductive ended :=
| Done (err : option error)
| Crashed.

(** What the [interface{}] under a key of a profile holds: [NilObject] is
    a nil [map[string]interface{}]; [Held v] is any other value, [v] being
    the interface as in a [mapStringInterface], and a map in it, a
    [map[string]interface{}] included, is not nil. *)
Inductive held :=
| NilObject
| Held (v : Value).

(** [interfaces.FreeForm], possibly nil. *)
Definition FreeForm := option (list (string * held)).

(** [config.Profiles], not nil. *)
Definition profiles := list (string * FreeForm).

(** [m[k]] on a map with string keys. *)
Fixpoint get {A : Type} (m : list (string * A)) (k : string) : option A :=
  match m with
  | [] => None
  | (k', x) :: m' => if String.eqb k' k then Some x else get m' k
  end.

(** [m[k] = x]. *)
Fixpoint put {A : Type} (m : list (string * A)) (k : string) (x : A)
  : list (string * A) :=
  match m with
  | [] => [(k, x)]
  | (k', y) :: m' =>
      if String.eqb k' k then (k, x) :: m' else (k', y) :: put m' k x
  end.

(** [setArchaiusDefaultsForProfile]: the profile after the call, the
    profile names passed to [a.log.Info("Archaius defaults: applied", ...)]
    and the way the call ended.  The type assertion
    [archaius_.(map[string]interface{})] holds for a nil map too, and the
    write [archaius["enabled"] = false] then panics.  The error is made
    with [archaius], the nil map that the failed type assertion left, not
    with the value found. *)
Definition setArchaiusDefaultsForProfile (profile : FreeForm)
           (profileName : string) : FreeForm * list string * ended :=
  let m := match profile with
           | Some m => m
           | None => []
           end in
  match get m "archaius" with
  | None =>
      match profile with
      | None => (profile, [], Crashed)   (* assignment to entry in nil map *)
      | Some m =>
          (Some (put m "archaius"
                   (Held
                      (VInterface
                         (VMap TInterface
                            [("enabled", VInterface (VBool false))])))),
           [profileName], Done None)
      end
  | Some NilObject =>
      (profile, [], Crashed)             (* assignment to entry in nil map *)
  | Some (Held archaius_) =>
      match ValueOf archaius_ with
      | VMap TInterface archaius =>
          match MapIndex archaius "enabled" with
          | Some _ => (profile, [], Done None)
          | None =>
              (Some (put m "archaius"
                       (Held
                          (VInterface
                             (VMap TInterface
                                (mapassign archaius "enabled"
                                           (VInterface (VBool false))))))),
               [profileName], Done None)
          end
      | _ => (profile, [], Done (Some (ErrArchaiusNotObject None)))
      end
  end.

(** [assertProfile]: [config.Profiles] after the call and the profile
    returned, which is the one that [config.Profiles] holds. *)
Definition assertProfile (Profiles : option profiles) (profileName : string)
  : profiles * FreeForm :=
  let ps := match Profiles with
            | Some ps => ps
            | None => []
            end in
  match get ps profileName with
  | Some p => (ps, p)
  | None => (put ps profileName (Some []), Some [])
  end.

(** The loop of [setArchaiusDefaults] over the names that
    [bom.JavaServices()] returns.  The profile that
    [setArchaiusDefaultsForProfile] changes is the one in
    [config.Profiles]. *)
Fixpoint setArchaiusDefaultsLoop (services : list string)
         (Profiles : option profiles)
  : option profiles * list string * ended :=
  match services with
  | [] => (Profiles, [], Done None)
  | profileName :: rest =>
      let (ps, p) := assertProfile Profiles profileName in
      match setArchaiusDefaultsForProfile p profileName with
      | (p', log, Crashed) => (Some (put ps profileName p'), log, Crashed)
      | (p', log, Done (Some err)) =>
          (Some (put ps profileName p'), log,
           Done (Some (ErrHandlingProfile profileName err)))
      | (p', log, Done None) =>
          let '(Profiles', log', e) :=
            setArchaiusDefaultsLoop rest (Some (put ps profileName p')) in
          (Profiles', log ++ log', e)
      end
  end.

Section Defaults.
(** What [bom.JavaServices()] returns; package [bom] is not part of the
    sources at hand. *)
Variable JavaServices : list string.

(** [setArchaiusDefaults], on [a.svc.GetSpinnakerConfig().Profiles]. *)
Definition setArchaiusDefaults (Profiles : option profiles)
  : option profiles * list string * ended :=
  setArchaiusDefaultsLoop JavaServices Profiles.

(** [TransformConfig]. *)
Definition TransformConfig (Profiles : option profiles)
  : option profiles * list string * ended :=
  match setArchaiusDefaults Profiles with
  | (Profiles', log, Done (Some err)) =>
      (Profiles', log, Done (Some (ErrSettingArchaius err)))
  | r => r
  end.
End Defaults.

(** The object [{"enabled": b}], as an [archaius] of a profile. *)
Definition archaiusEnabled (b : bool) : held :=
  Held (VInterface (VMap TInterface [("enabled", VInterface (VBool b))])).

(** The [map[string]interface{}] that is not nil, when this is what the
    interface holds. *)
Definition object (x : held) : option mapStringInterface :=
  match x with
  | NilObject => None
  | Held v =>
      match ValueOf v with
      | VMap TInterface m => Some m
      | _ => None
      end
  end.

(** The profile has an [archaius] object with an [enabled] entry. *)
Definition defaulted (p : FreeForm) : bool :=
  match p with
  | Some m =>
      match get m "archaius" with
      | Some archaius_ =>
          match object archaius_ with
          | Some archaius =>
              match MapIndex archaius "enabled" with
              | Some _ => true
              | None => false
              end
          | None => false
          end
      | None => false
      end
  | None => false
  end.

(** [m'] is [m] with at most an [archaius] object added, or entries
    added to its [archaius] object: every other key of the profile is as
    it was, an [archaius] that is not an object, or is a nil one, is as it
    was, and an [archaius] object has every entry it had. *)
Definition keepsEntries (m m' : list (string * held)) : Prop :=
  (forall k, k <> "archaius" -> get m' k = get m k) /\
  (forall x, get m "archaius" = Some x ->
     exists x',
       get m' "archaius" = Some x' /\
       match object x with
       | Some archaius =>
           exists archaius',
             object x' = Some archaius' /\
             forall k y, MapIndex archaius k = Some y ->
                         MapIndex archaius' k = Some y
       | None => x' = x
       end).

(** [Profiles[profileName]], nothing when [Profiles] is nil. *)
Definition getProfile (Profiles : option profiles) (profileName : string)
  : option FreeForm :=
  match Profiles with
  | Some ps => get ps profileName
  | None => None
  end.

(** The profile is not nil and its [archaius], if it has one, is an
    object that is not nil. *)
Definition acceptableProfile (p : FreeForm) : bool :=
  match p with
  | Some m =>
      match get m "archaius" with
      | Some archaius_ =>
          match object archaius_ with
          | Some _ => true
          | None => false
          end
      | None => true
      end
  | None => false
  end.

(** [Profiles] has no profile of that name, or an acceptable one. *)
Definition acceptable (Profiles : option profiles) (profileName : string)
  : bool :=
  match getProfile Profiles profileName with
  | Some p => acceptableProfile p
  | None => true
  end.

(** [Profiles] has a defaulted profile of that name. *)
Definition defaultedAt (Profiles : option profiles) (profileName : string)
  : bool :=
  match getProfile Profiles profileName with
  | Some p => defaulted p
  | None => false
  end.

End transformer.

(** ** Notions used to state the properties *)

(** The scalar strings inside a value, in the order of the traversal; map
    keys are not among them. *)
Fixpoint stringsOf (v : Value) : list string :=
  match v with
  | VString s => [s]
  | VInterface e | VPtr _ e => stringsOf e
  | VSlice _ l | VArray _ l => flat_map stringsOf l
  | VMap _ m => flat_map (fun kx => stringsOf (snd kx)) m
  | VStruct _ fields => flat_map (fun fx => stringsOf (snd fx)) fields
  | _ => []
  end.

(** The handler fails on [s]. *)
Definition fails (h : stringHandler) (s : string) : bool :=
  match snd (h s) with
  | Some _ => true
  | None => false
  end.

(** The error of the first string of [l] on which the handler fails. *)
Fixpoint firstFailure (h : stringHandler) (l : list string) : option error :=
  match l with
  | [] => None
  | s :: l' =>
      match snd (h s) with
      | Some err => Some err
      | None => firstFailure h l'
      end
  end.

(** The strings of [l] up to and including the first on which the handler
    fails; all of [l] when there is none. *)
Fixpoint untilFailure (h : stringHandler) (l : list string) : list string :=
  match l with
  | [] => []
  | s :: l' => s :: (if fails h s then [] else untilFailure h l')
  end.

(** [x] has static type [t]. *)
Definition fits (t : rtype) (x : Value) : bool :=
  match TypeOf x with
  | Some tx => rtype_eqb tx t
  | None => false
  end.

Definition isNilInterface (x : Value) : bool :=
  match x with
  | VInterface ZeroValue => true
  | _ => false
  end.

(** Values on which the traversal cannot panic: every element, pointee and
    field has the static type of its slot, no pointer is nil, no array has
    elements, and a nil interface occurs only as the value of a map entry. *)
Fixpoint sound (v : Value) : bool :=
  match v with
  | ZeroValue => false
  | VBool _ | VInt _ | VFloat64 _ | VString _ => true
  | VInterface e =>
      match e with
      | VInterface _ => false
      | _ => sound e
      end
  | VSlice et l => forallb (fun x => fits et x && sound x) l
  | VArray _ l => Nat.eqb (List.length l) 0
  | VMap et m =>
      forallb (fun kx => isNilInterface (snd kx)
                         || (fits et (snd kx) && sound (snd kx))) m
  | VPtr et e => fits et e && sound e
  | VStruct _ fields =>
      forallb (fun fx => fits (FType (fst fx)) (snd fx) && sound (snd fx))
              fields
  end.

(** The untyped trees of the specification, as Go values: an
    [interface{}] that is nil or holds a scalar, a [[]interface{}] of trees
    or a [map[string]interface{}] of trees. *)
Fixpoint tree (v : Value) : bool :=
  match v with
  | VInterface e =>
      match e with
      | ZeroValue | VBool _ | VInt _ | VFloat64 _ | VString _ => true
      | VSlice TInterface l => forallb tree l
      | VMap TInterface m => forallb (fun kx => tree (snd kx)) m
      | _ => false
      end
  | _ => false
  end.

Definition treeMap (m : mapStringInterface) : bool :=
  forallb (fun kx => tree (snd kx)) m.

(** The keys of a map, in the order of its entries. *)
Definition keys (m : mapStringInterface) : list string := map fst m.

(** A value is a mapping when it holds a [map[string]interface{}], a
    sequence when its kind is [Slice]; anything else is a scalar for
    [Merge]. *)
Definition isScalar (v : Value) : bool :=
  match kind (ValueOf v) with
  | Map | Slice => false
  | _ => true
  end.

(** The record a value denotes for [Source]: a struct, or the struct a
    pointer points to. *)
Definition recordOf (i : Value) : option (list (StructField * Value)) :=
  match ValueOf i with
  | VStruct _ fields => Some fields
  | VPtr _ (VStruct _ fields) => Some fields
  | _ => None
  end.

(** The external key of a field: the part of its [json] tag before the
    first comma; [None] without a [json] tag. *)
Definition externalKey (f : StructField) : option string :=
  option_map beforeComma (Lookup (Tag f) "json").

(** [Source] skips the field: it has no external key, or [settings] has
    no entry for it. *)
Definition skipped (settings : mapStringInterface) (f : StructField) : bool :=
  match externalKey f with
  | None => true
  | Some s =>
      match MapIndex settings s with
      | None => true
      | Some _ => false
      end
  end.

(** The one unwrap of [toSpecificArray]: of an interface or a pointer. *)
Definition unwrapOnce (v : Value) : Value :=
  match kind v with
  | Interface | Ptr => Elem v
  | _ => v
  end.

(** The error names the field [name]. *)
Definition namesField (e : error) (name : string) : bool :=
  match e with
  | ErrUnassignableAt field _ _ => String.eqb field name
  | _ => false
  end.

(** The value of the first field called [name]. *)
Fixpoint fieldValue (fields : list (StructField * Value)) (name : string)
  : option Value :=
  match fields with
  | [] => None
  | (f, x) :: rest =>
      if String.eqb (Name f) name then Some x else fieldValue rest name
  end.

(** An element that [toSpecificArray] accepts for the element type [E]:
    after its one unwrap it is a value whose type is assignable to [E]. *)
Definition assignableElement (E : rtype) (x : Value) : bool :=
  match TypeOf (unwrapOnce x) with
  | Some tx => AssignableTo tx E
  | None => false
  end.

(** ** A record and settings to run [Source] on

    [type T struct { Enabled bool `json:"enabled"`;
                     Names []string `json:"names,omitempty"`; N int }] *)

Definition fEnabled : StructField := mkField "Enabled" TBool [("json", "enabled")].
Definition fNames : StructField :=
  mkField "Names" (TSlice TString) [("json", "names,omitempty")].
Definition fN : StructField := mkField "N" TInt [].

Definition recordT : list (StructField * Value) :=
  [(fEnabled, VBool false); (fNames, VSlice TString []); (fN, VInt 7)].

(** [&T{Enabled: false, Names: nil, N: 7}] *)
Definition ptrT : Value := VPtr (TStruct "T") (VStruct "T" recordT).

(** [{"enabled": true}], [{"names": ["a", "b"]}] and [{"names": ["a", 1]}] *)
Definition settingsEnabled : mapStringInterface :=
  [("enabled", VInterface (VBool true))].
Definition settingsNames : mapStringInterface :=
  [("names", VInterface (VSlice TInterface
                           [VInterface (VString "a"); VInterface (VString "b")]))].
Definition settingsBadNames : mapStringInterface :=
  [("names", VInterface (VSlice TInterface
                           [VInterface (VString "a"); VInterface (VInt 1)]))].

(** [type P struct { Ptrs []*string `json:"ptrs"` }], a pointer to its zero
    value, and the settings [{"ptrs": []*string{&a}}] with [a = "a"]. *)
Definition fPtrs : StructField :=
  mkField "Ptrs" (TSlice (TPtr TString)) [("json", "ptrs")].
Definition ptrP : Value :=
  VPtr (TStruct "P") (VStruct "P" [(fPtrs, VSlice (TPtr TString) [])]).
Definition settingsPtrs : mapStringInterface :=
  [("ptrs", VInterface (VSlice (TPtr TString) [VPtr TString (VString "a")]))].

(** A handler that fails on ["bad"] and returns every other string as it
    is, and a [[]string] to run it on. *)
Definition failOnBad : stringHandler :=
  fun s => (s, if String.eqb s "bad" then Some (ErrHandler "boom") else None).
Definition sliceABadC : Value :=
  VSlice TString [VString "a"; VString "bad"; VString "c"].

(** ** Invariants of the traversal *)

(** What a call that did not panic did with the handler, in terms of the
    strings [strs] it had to visit: it called the handler on them in order
    up to the first failure, and it returned the error of that failure, or
    no error when there was none. *)
Definition traced (h : stringHandler) (strs : list string) (r : run) : Prop :=
  snd r <> Panic ->
  fst r = untilFailure h strs /\
  match firstFailure h strs with
  | Some e => exists v, snd r = Ret v (Some e)
  | None => exists rv, snd r = Ret rv None
  end.

(** A call that does not panic and, when it returns no error, returns a
    value that can be stored where its argument was. *)
Definition settled (v : Value) (r : run) : Prop :=
  snd r <> Panic /\
  forall rv, snd r = Ret rv None ->
    exists t', TypeOf rv = Some t' /\
               forall t, TypeOf v = Some t -> AssignableTo t' t = true.

(** ** Notions used to state the further properties *)

(** [map[string]interface{}{"a": "x", "b": []interface{}{"y", "z"}}] *)
Definition mapXYZ : Value :=
  VMap TInterface
    [("a", VInterface (VString "x"));
     ("b", VInterface (VSlice TInterface
                         [VInterface (VString "y"); VInterface (VString "z")]))].

(** The value is a sequence for [Merge]: its kind is [Slice]. *)
Definition isSequence (v : Value) : bool :=
  match kind (ValueOf v) with
  | Slice => true
  | _ => false
  end.

(** The value with every string [s] inside it replaced by [f s] and the
    nil entries of its maps removed. *)
Fixpoint rewriteStrings (f : string -> string) (v : Value) : Value :=
  match v with
  | VString s => VString (f s)
  | VInterface e => VInterface (rewriteStrings f e)
  | VPtr et e => VPtr et (rewriteStrings f e)
  | VSlice et l => VSlice et (map (rewriteStrings f) l)
  | VArray et l => VArray et (map (rewriteStrings f) l)
  | VMap et m =>
      VMap et (flat_map
                 (fun kx => if isNilInterface (snd kx) then []
                            else [(fst kx, rewriteStrings f (snd kx))]) m)
  | VStruct name fields =>
      VStruct name (map (fun fx => (fst fx, rewriteStrings f (snd fx))) fields)
  | _ => v
  end.

(** The strings of a list are distinct. *)
Fixpoint distinct (l : list string) : bool :=
  match l with
  | [] => true
  | k :: l' => negb (existsb (String.eqb k) l') && distinct l'
  end.

(** Every map inside the value has distinct keys, as a Go map has. *)
Fixpoint distinctKeys (v : Value) : bool :=
  match v with
  | VInterface e | VPtr _ e => distinctKeys e
  | VSlice _ l | VArray _ l => forallb distinctKeys l
  | VMap _ m =>
      distinct (map fst m) && forallb (fun kx => distinctKeys (snd kx)) m
  | VStruct _ fields => forallb (fun fx => distinctKeys (snd fx)) fields
  | _ => true
  end.

(** No map inside the value has an entry that holds the nil interface. *)
Fixpoint noNilEntries (v : Value) : bool :=
  match v with
  | VInterface e | VPtr _ e => noNilEntries e
  | VSlice _ l | VArray _ l => forallb noNilEntries l
  | VMap _ m =>
      forallb (fun kx => negb (isNilInterface (snd kx))
                         && noNilEntries (snd kx)) m
  | VStruct _ fields => forallb (fun fx => noNilEntries (snd fx)) fields
  | _ => true
  end.

(** ** Induction on values *)

Section ValueInduction.
Variable P : Value -> Prop.
Hypothesis HZero : P ZeroValue.
Hypothesis HBool : forall b, P (VBool b).
Hypothesis HInt : forall n, P (VInt n).
Hypothesis HFloat64 : forall bits, P (VFloat64 bits).
Hypothesis HString : forall s, P (VString s).
Hypothesis HInterface : forall e, P e -> P (VInterface e).
Hypothesis HSlice : forall et l, Forall P l -> P (VSlice et l).
Hypothesis HArray : forall et l, Forall P l -> P (VArray et l).
Hypothesis HMap :
  forall et m, Forall (fun kx => P (snd kx)) m -> P (VMap et m).
Hypothesis HPtr : forall et e, P e -> P (VPtr et e).
Hypothesis HStruct :
  forall name fields,
    Forall (fun fx => P (snd fx)) fields -> P (VStruct name fields).

Fixpoint Value_ind (v : Value) : P v :=
  let elems :=
    fix elems (l : list Value) : Forall P l :=
      match l with
      | [] => Forall_nil P
      | x :: l' => Forall_cons x (Value_ind x) (elems l')
      end in
  match v with
  | ZeroValue => HZero
  | VBool b => HBool b
  | VInt n => HInt n
  | VFloat64 bits => HFloat64 bits
  | VString s => HString s
  | VInterface e => HInterface e (Value_ind e)
  | VSlice et l => HSlice et l (elems l)
  | VArray et l => HArray et l (elems l)
  | VMap et m =>
      HMap et m
        ((fix entries (m : list (string * Value))
            : Forall (fun kx => P (snd kx)) m :=
            match m with
            | [] => Forall_nil _
            | kx :: m' => Forall_cons kx (Value_ind (snd kx)) (entries m')
            end) m)
  | VPtr et e => HPtr et e (Value_ind e)
  | VStruct name fields =>
      HStruct name fields
        ((fix flds (fs : list (StructField * Value))
            : Forall (fun fx => P (snd fx)) fs :=
            match fs with
            | [] => Forall_nil _
            | fx :: fs' => Forall_cons fx (Value_ind (snd fx)) (flds fs')
            end) fields)
  end.
End ValueInduction.

(** ** Types *)

Lemma rtype_eqb_refl (t : rtype) : rtype_eqb t t = true.
Proof.
  induction t; simpl; auto.
  - now rewrite Nat.eqb_refl.
  - apply String.eqb_refl.
Qed.

Lemma rtype_eqb_eq (t u : rtype) : rtype_eqb t u = true -> t = u.
Proof.
  revert u; induction t; destruct u; simpl; intros H;
    try discriminate; try reflexivity; try (f_equal; auto).
  - apply andb_prop in H. now apply Nat.eqb_eq.
  - apply andb_prop in H. apply IHt, H.
  - now apply String.eqb_eq.
Qed.

Lemma AssignableTo_refl (t : rtype) : AssignableTo t t = true.
Proof.
  destruct t; simpl; auto using rtype_eqb_refl.
  - now rewrite Nat.eqb_refl, rtype_eqb_refl.
  - apply String.eqb_refl.
Qed.

Lemma fits_TypeOf (t : rtype) (x : Value) :
  fits t x = true -> TypeOf x = Some t.
Proof.
  unfold fits. destruct (TypeOf x); [|discriminate].
  intros H. now rewrite (rtype_eqb_eq _ _ H).
Qed.

(** A value of type [t] is stored unchanged in a slot of type [t]. *)
Lemma assignTo_same (t : rtype) (x : Value) :
  TypeOf x = Some t -> assignTo t x = Some x.
Proof.
  unfold assignTo. intros H. rewrite H, AssignableTo_refl.
  destruct t; try reflexivity.
  destruct x; simpl in H; try discriminate; reflexivity.
Qed.

Lemma assignTo_assignable t x tx :
  TypeOf x = Some tx -> AssignableTo tx t = true ->
  exists y, assignTo t x = Some y.
Proof.
  unfold assignTo. intros -> ->. destruct t; eauto. destruct x; eauto.
Qed.

(** ** Maps *)

Lemma MapIndex_mapassign_same m k x : MapIndex (mapassign m k x) k = Some x.
Proof.
  induction m as [|[k' y] m IH]; simpl.
  - now rewrite String.eqb_refl.
  - destruct (String.eqb k' k) eqn:E; simpl.
    + now rewrite String.eqb_refl.
    + now rewrite E.
Qed.

Lemma MapIndex_mapassign_other m k k' x :
  k' <> k -> MapIndex (mapassign m k x) k' = MapIndex m k'.
Proof.
  intros Hne. induction m as [|[k0 y] m IH]; simpl.
  - destruct (String.eqb k k') eqn:E; auto.
    apply String.eqb_eq in E. congruence.
  - destruct (String.eqb k0 k) eqn:E; simpl.
    + apply String.eqb_eq in E. subst k0.
      destruct (String.eqb k k') eqn:E'; auto.
      apply String.eqb_eq in E'. congruence.
    + now rewrite IH.
Qed.

(** ** [Merge] *)

(** [Merge] as the source writes it: the two loops, the recursive call being
    [Merge] itself. *)
Lemma Merge_eq (a b : mapStringInterface) :
  Merge a b =
  match mergeRangeA MergeValue b a [] with
  | None => None
  | Some result => Some (mergeRangeB a b result)
  end.
Proof. reflexivity. Qed.

Lemma MergeValue_eq (avm bvm : mapStringInterface) :
  MergeValue (VMap TInterface avm) bvm = Merge avm bvm.
Proof. reflexivity. Qed.

Section MergeLoops.
Variable rec : Value -> mapStringInterface -> option mapStringInterface.

(** An iteration of the first loop writes at most the entry of its key. *)
Lemma mergeEntry_other b k av result r k' :
  mergeEntry rec b k av result = Some r ->
  k' <> k -> MapIndex r k' = MapIndex result k'.
Proof.
  unfold mergeEntry. intros H Hne.
  repeat match type of H with
         | match ?x with _ => _ end = Some _ => destruct x; try discriminate
         | option_map _ ?x = Some _ => destruct x; simpl in H; try discriminate
         end;
    inversion H; subst; auto using MapIndex_mapassign_other.
Qed.

Lemma mergeRangeA_other b a result r k :
  mergeRangeA rec b a result = Some r ->
  ~ In k (keys a) -> MapIndex r k = MapIndex result k.
Proof.
  revert result. induction a as [|[k0 av] a IH]; simpl; intros result H Hnin.
  - now inversion H.
  - destruct (mergeEntry rec b k0 av result) as [r0|] eqn:E; [|discriminate].
    rewrite (IH _ H) by tauto.
    eapply mergeEntry_other; eauto.
Qed.

(** What the first loop leaves at a key of [a] is what the iteration of that
    key wrote, or what was there before it. *)
Lemma mergeRangeA_at b a result r k av :
  NoDup (keys a) ->
  MapIndex a k = Some av ->
  mergeRangeA rec b a result = Some r ->
  exists result0 r0,
    mergeEntry rec b k av result0 = Some r0 /\
    MapIndex result0 k = MapIndex result k /\
    MapIndex r k = MapIndex r0 k.
Proof.
  revert result. induction a as [|[k0 av0] a IH]; simpl; intros result Hnd Hk H;
    [discriminate|].
  inversion Hnd as [|? ? Hnin Hnd']; subst.
  destruct (mergeEntry rec b k0 av0 result) as [r1|] eqn:E; [|discriminate].
  destruct (String.eqb k0 k) eqn:Ek.
  - apply String.eqb_eq in Ek. subst k0. inversion Hk; subst av0.
    exists result, r1. repeat split; auto.
    eapply mergeRangeA_other; eauto.
  - destruct (IH r1 Hnd' Hk H) as (result0 & r0 & H1 & H2 & H3).
    exists result0, r0. repeat split; auto.
    rewrite H2. eapply mergeEntry_other; eauto.
    intros ->. now rewrite String.eqb_refl in Ek.
Qed.
End MergeLoops.

(** The second loop leaves the keys of [a] alone. *)
Lemma mergeRangeB_in_a a b result k av :
  MapIndex a k = Some av ->
  MapIndex (mergeRangeB a b result) k = MapIndex result k.
Proof.
  intros Ha. revert result.
  induction b as [|[k0 bv] b IH]; simpl; intros result; auto.
  destruct (MapIndex a k0) eqn:E; auto.
  rewrite IH. apply MapIndex_mapassign_other. congruence.
Qed.

(** The entry of a key of [a] in [Merge(a, b)] is decided by the iteration
    of the first loop for that key. *)
Lemma Merge_at a b r k av :
  NoDup (keys a) ->
  MapIndex a k = Some av ->
  Merge a b = Some r ->
  exists result0 r0,
    mergeEntry MergeValue b k av result0 = Some r0 /\
    MapIndex result0 k = None /\
    MapIndex r k = MapIndex r0 k.
Proof.
  intros Hnd Ha. rewrite Merge_eq.
  destruct (mergeRangeA MergeValue b a []) as [result|] eqn:E; [|discriminate].
  intros H. inversion H; subst r.
  destruct (mergeRangeA_at _ _ _ _ _ _ _ Hnd Ha E) as (result0 & r0 & H1 & H2 & H3).
  exists result0, r0. repeat split; auto.
  rewrite (mergeRangeB_in_a _ _ _ _ _ Ha). exact H3.
Qed.

Lemma appendAll_spec et xs : forall combined combined',
  appendAll et combined xs = Some combined' ->
  exists ys,
    combined' = combined ++ ys /\
    Forall2 (fun x y => assignTo et x = Some y) xs ys.
Proof.
  induction xs as [|x xs IH]; simpl; intros combined combined' H.
  - inversion H. exists []. now rewrite app_nil_r.
  - destruct (assignTo et x) as [y|] eqn:E; [|discriminate].
    destruct (IH _ _ H) as (ys & -> & HF).
    exists (y :: ys). rewrite <- app_assoc. simpl. auto.
Qed.

Lemma Forall2_assignTo_same et xs ys :
  Forall (fun x => TypeOf x = Some et) xs ->
  Forall2 (fun x y => assignTo et x = Some y) xs ys -> ys = xs.
Proof.
  intros HT HF. induction HF as [|x y xs ys Hxy HF IH]; auto.
  inversion HT; subst. rewrite assignTo_same in Hxy by assumption.
  inversion Hxy. f_equal. auto.
Qed.

(** A key that only [a] has, with a sequence as its value, is not in
    [Merge(a, b)]. *)
Lemma Merge_sequence_only_in_a a b k av ta la r :
  NoDup (keys a) ->
  MapIndex a k = Some av ->
  ValueOf av = VSlice ta la ->
  MapIndex b k = None ->
  Merge a b = Some r ->
  MapIndex r k = None.
Proof.
  intros Hnd Ha Hav Hb HM.
  destruct (Merge_at _ _ _ _ _ Hnd Ha HM) as (result0 & r0 & H1 & H2 & H3).
  unfold mergeEntry in H1. rewrite Hav, Hb in H1. inversion H1; subst.
  congruence.
Qed.

(** A key that only [a] has, with a value that is not a sequence, keeps its
    value in [Merge(a, b)]. *)
Lemma Merge_other_only_in_a a b k av r :
  NoDup (keys a) ->
  MapIndex a k = Some av ->
  kind (ValueOf av) <> Slice ->
  MapIndex b k = None ->
  Merge a b = Some r ->
  MapIndex r k = Some av.
Proof.
  intros Hnd Ha Hav Hb HM.
  destruct (Merge_at _ _ _ _ _ Hnd Ha HM) as (result0 & r0 & H1 & H2 & H3).
  unfold mergeEntry in H1. rewrite Hb in H1. rewrite H3.
  destruct (ValueOf av) as [| | | | | |et l| |[] m| |]; simpl in Hav;
    try congruence; inversion H1; subst; apply MapIndex_mapassign_same.
Qed.

(** ** [Merge] returns on untyped trees *)

Lemma tree_inv v :
  tree v = true ->
  exists e, v = VInterface e /\ ValueOf v = e /\
    match e with
    | ZeroValue | VBool _ | VInt _ | VFloat64 _ | VString _ => True
    | VSlice TInterface l => forallb tree l = true
    | VMap TInterface m => treeMap m = true
    | _ => False
    end.
Proof.
  destruct v as [| | | | |e| | | | |]; try discriminate.
  intros H. exists e. split; [reflexivity|].
  destruct e as [| | | | | |[] l| |[] m| |]; simpl in *;
    try discriminate; auto.
Qed.

Lemma treeMap_MapIndex m k x :
  treeMap m = true -> MapIndex m k = Some x -> tree x = true.
Proof.
  unfold treeMap. induction m as [|[k' y] m IH]; simpl; [discriminate|].
  intros H. apply andb_prop in H. destruct H as [Hy Hm].
  destruct (String.eqb k' k); auto. intros E. inversion E. congruence.
Qed.

Lemma appendAll_trees xs : forall combined,
  forallb tree xs = true ->
  appendAll TInterface combined xs = Some (combined ++ xs).
Proof.
  induction xs as [|x xs IH]; simpl; intros combined H.
  - now rewrite app_nil_r.
  - apply andb_prop in H. destruct H as [Hx Hxs].
    destruct (tree_inv _ Hx) as (e & -> & _ & _). simpl.
    rewrite IH by assumption. now rewrite <- app_assoc.
Qed.

(** On untyped trees no [reflect.Append] panics: [Merge] returns. *)
Lemma Merge_returns_on_trees a b :
  treeMap a = true -> treeMap b = true -> exists r, Merge a b = Some r.
Proof.
  intros Ha Hb.
  cut (forall v ma, ValueOf v = VMap TInterface ma -> treeMap ma = true ->
       forall mb, treeMap mb = true -> exists r, Merge ma mb = Some r).
  { intros H. apply (H (VMap TInterface a)); auto. }
  clear a b Ha Hb. intros v.
  induction v as [| | | | |e IH|et l _|et l _|et m IH|et e _|name fields _]
    using Value_ind; simpl; intros ma Hv Hma mb Hmb; try discriminate.
  - eauto.
  - inversion Hv; subst et m. clear Hv. rewrite Merge_eq.
    cut (forall result, exists r, mergeRangeA MergeValue mb ma result = Some r).
    { intros H. destruct (H []) as [r ->]. eauto. }
    induction ma as [|[k av] ma IHa]; simpl; intros result; eauto.
    inversion IH as [|? ? Hav IH']; subst.
    unfold treeMap in Hma. simpl in Hma. apply andb_prop in Hma.
    destruct Hma as [Tav Ta].
    assert (He : exists r0, mergeEntry MergeValue mb k av result = Some r0).
    { destruct (tree_inv _ Tav) as (e & -> & Ee & He).
      unfold mergeEntry. rewrite Ee. simpl in Hav.
      destruct (MapIndex mb k) as [bv|] eqn:Eb.
      - destruct (tree_inv _ (treeMap_MapIndex _ _ _ Hmb Eb))
          as (e' & -> & Ee' & He').
        rewrite Ee'.
        destruct e as [| | | | | |[] la| |[] avm| |]; try contradiction; eauto;
          destruct e' as [| | | | | |[] lb| |[] bvm| |]; try contradiction; eauto.
        + rewrite (appendAll_trees la []) by assumption.
          rewrite (appendAll_trees lb) by assumption. eauto.
        + rewrite MergeValue_eq.
          destruct (Hav avm Ee He bvm He') as [m ->]. simpl. eauto.
      - destruct e as [| | | | | |[] la| |[] avm| |]; try contradiction; eauto. }
    destruct He as [r0 ->]. apply IHa; auto.
Qed.

(** ** The claims about [Merge] *)

(** C1 (evaluation of the code at the failing input): [a] maps ["x"] to the
    sequence [[1]] and [b] is empty; [Merge(a, b)] is the empty map, so the
    key ["x"] of [a] is not in the result: the key set of the result is not
    the union of the key sets, and the value of ["x"] is not copied. *)
Theorem Merge_loses_sequence_of_a :
  In "x" (keys [("x", VInterface (VSlice TInterface [VInterface (VInt 1)]))])
  /\ Merge [("x", VInterface (VSlice TInterface [VInterface (VInt 1)]))] []
     = Some [].
Proof. split; [left|]; reflexivity. Qed.

(** C3: for a key [k] that [a] and [b] both have, when the kinds of the two
    values differ or one of the values is a scalar (it holds neither a
    [map[string]interface{}] nor a slice), the entry of [k] in the result
    of [Merge(a, b)] is the value of [b]; and on untyped trees [Merge]
    does return a result. *)
Theorem Merge_b_wins a b k av bv :
  NoDup (keys a) ->
  MapIndex a k = Some av ->
  MapIndex b k = Some bv ->
  kind (ValueOf av) <> kind (ValueOf bv)
    \/ isScalar av = true \/ isScalar bv = true ->
  (forall r, Merge a b = Some r -> MapIndex r k = Some bv) /\
  (treeMap a = true -> treeMap b = true ->
   exists r, Merge a b = Some r /\ MapIndex r k = Some bv).
Proof.
  intros Hnd Ha Hb Hk.
  assert (H : forall r, Merge a b = Some r -> MapIndex r k = Some bv).
  { intros r HM.
    destruct (Merge_at _ _ _ _ _ Hnd Ha HM) as (result0 & r0 & H1 & H2 & H3).
    unfold mergeEntry in H1. rewrite Hb in H1. rewrite H3.
    unfold isScalar in Hk.
    destruct (ValueOf av) as [| | | | | |ta la| |[] avm| |];
      try (inversion H1; subst; apply MapIndex_mapassign_same);
      destruct (ValueOf bv) as [| | | | | |tb lb| |[] bvm| |];
      try (inversion H1; subst; apply MapIndex_mapassign_same);
      simpl in Hk; exfalso; intuition congruence. }
  split; [exact H|].
  intros Ta Tb. destruct (Merge_returns_on_trees a b Ta Tb) as [r Hr]. eauto.
Qed.

Lemma Merge_b_wins_witness :
  (forall r,
      Merge [("k", VInterface (VMap TInterface [("x", VInterface (VInt 1))]))]
            [("k", VInterface (VString "s"))] = Some r ->
      MapIndex r "k" = Some (VInterface (VString "s"))) /\
  (treeMap [("k", VInterface (VMap TInterface [("x", VInterface (VInt 1))]))]
   = true ->
   treeMap [("k", VInterface (VString "s"))] = true ->
   exists r,
     Merge [("k", VInterface (VMap TInterface [("x", VInterface (VInt 1))]))]
           [("k", VInterface (VString "s"))] = Some r /\
     MapIndex r "k" = Some (VInterface (VString "s"))).
Proof.
  apply (Merge_b_wins
           [("k", VInterface (VMap TInterface [("x", VInterface (VInt 1))]))]
           [("k", VInterface (VString "s"))] "k"
           (VInterface (VMap TInterface [("x", VInterface (VInt 1))]))
           (VInterface (VString "s"))).
  - repeat constructor. simpl. tauto.
  - reflexivity.
  - reflexivity.
  - left. simpl. discriminate.
Defined.

(** Outside the untyped trees a Go map can hold typed sequences, and
    [reflect.Append] takes only values assignable to the element type of
    [a]'s sequence: with a [[]string] in [a] and an [[]int] in [b] at the
    same key, [Merge] panics. *)
Lemma Merge_sequences_type_checked :
  (exists av bv,
      MapIndex [("x", VInterface (VSlice TString [VString "a"]))] "x"
      = Some av /\ kind (ValueOf av) = Slice /\
      MapIndex [("x", VInterface (VSlice TInt [VInt 1]))] "x"
      = Some bv /\ kind (ValueOf bv) = Slice) /\
  Merge [("x", VInterface (VSlice TString [VString "a"]))]
        [("x", VInterface (VSlice TInt [VInt 1]))] = None.
Proof.
  split.
  - do 2 eexists. repeat split; reflexivity.
  - reflexivity.
Qed.

(** Typed sequences whose elements [reflect.Append] takes: the element
    type of [b]'s sequence is assignable to the element type of [a]'s.
    The iteration of the first loop for [k] does not panic, and the entry
    of [k] in every result of [Merge(a, b)] is a sequence of the type of
    [a]'s, holding the elements of [a]'s followed by those of [b]'s, each
    of these as a slot of [a]'s element type holds it. *)
Lemma Merge_concatenates_typed a b k av bv ta la tb lb :
  NoDup (keys a) ->
  MapIndex a k = Some av ->
  MapIndex b k = Some bv ->
  ValueOf av = VSlice ta la ->
  ValueOf bv = VSlice tb lb ->
  Forall (fun x => TypeOf x = Some ta) la ->
  Forall (fun x => TypeOf x = Some tb) lb ->
  AssignableTo tb ta = true ->
  (forall result, exists lb',
     Forall2 (fun x y => assignTo ta x = Some y) lb lb' /\
     mergeEntry MergeValue b k av result
     = Some (mapassign result k (VInterface (VSlice ta (la ++ lb'))))) /\
  (forall r, Merge a b = Some r ->
     exists lb',
       MapIndex r k = Some (VInterface (VSlice ta (la ++ lb'))) /\
       Forall2 (fun x y => assignTo ta x = Some y) lb lb' /\
       (tb = ta -> lb' = lb)).
Proof.
  intros Hnd Ha Hb Hav Hbv Hla Hlb Hassign. split.
  - intros result. unfold mergeEntry. rewrite Hav, Hb, Hbv.
    assert (Hsame : forall c, appendAll ta c la = Some (c ++ la)).
    { clear - Hla. induction Hla as [|x la Hx _ IH]; intros c; simpl.
      - now rewrite app_nil_r.
      - rewrite (assignTo_same _ _ Hx), IH, <- app_assoc. reflexivity. }
    rewrite Hsame. simpl app.
    assert (Hb' : forall c, exists lb',
               Forall2 (fun x y => assignTo ta x = Some y) lb lb' /\
               appendAll ta c lb = Some (c ++ lb')).
    { clear - Hlb Hassign. induction Hlb as [|x lb Hx _ IH]; intros c; simpl.
      - exists []. split; [constructor|]. now rewrite app_nil_r.
      - destruct (assignTo_assignable ta x tb Hx Hassign) as [y Hy].
        rewrite Hy. destruct (IH (c ++ [y])) as (lb' & HF & ->).
        exists (y :: lb'). split; [constructor; assumption|].
        now rewrite <- app_assoc. }
    destruct (Hb' la) as (lb' & HF & ->). eauto.
  - intros r HM.
    destruct (Merge_at _ _ _ _ _ Hnd Ha HM) as (result0 & r0 & H1 & H2 & H3).
    unfold mergeEntry in H1. rewrite Hav, Hb, Hbv in H1.
    destruct (appendAll ta [] la) as [c|] eqn:Ea; [|discriminate].
    destruct (appendAll ta c lb) as [c'|] eqn:Eb; [|discriminate].
    inversion H1; subst r0.
    destruct (appendAll_spec _ _ _ _ Ea) as (la' & -> & Fa).
    destruct (appendAll_spec _ _ _ _ Eb) as (lb' & -> & Fb).
    rewrite (Forall2_assignTo_same _ _ _ Hla Fa) in *.
    exists lb'. rewrite H3, MapIndex_mapassign_same. simpl.
    repeat split; auto.
    intros ->. eapply Forall2_assignTo_same; eauto.
Qed.

(** C4: on untyped trees, for a key [k] that [a] and [b] both have with
    sequences as values, [Merge(a, b)] returns, and the entry of [k] in
    what it returns is the sequence that holds the elements of [a]'s
    sequence followed by the elements of [b]'s, in order and all of them
    kept, whatever the elements are. *)
Theorem Merge_concatenates a b k av bv ta la tb lb :
  treeMap a = true ->
  treeMap b = true ->
  NoDup (keys a) ->
  MapIndex a k = Some av ->
  MapIndex b k = Some bv ->
  ValueOf av = VSlice ta la ->
  ValueOf bv = VSlice tb lb ->
  exists r,
    Merge a b = Some r /\
    MapIndex r k = Some (VInterface (VSlice ta (la ++ lb))).
Proof.
  intros Ta Tb Hnd Ha Hb Hav Hbv.
  destruct (Merge_returns_on_trees a b Ta Tb) as [r Hr].
  exists r. split; [exact Hr|].
  destruct (Merge_at _ _ _ _ _ Hnd Ha Hr) as (result0 & r0 & H1 & H2 & H3).
  destruct (tree_inv _ (treeMap_MapIndex _ _ _ Ta Ha)) as (ea & _ & Ea & Pa).
  destruct (tree_inv _ (treeMap_MapIndex _ _ _ Tb Hb)) as (eb & _ & Eb & Pb).
  rewrite Hav in Ea. rewrite Hbv in Eb. subst ea eb.
  destruct ta; try contradiction. destruct tb; try contradiction.
  unfold mergeEntry in H1. rewrite Hav, Hb, Hbv in H1.
  rewrite (appendAll_trees la []) in H1 by assumption. simpl app in H1.
  rewrite (appendAll_trees lb la) in H1 by assumption.
  inversion H1; subst r0. rewrite H3. apply MapIndex_mapassign_same.
Qed.

Lemma Merge_concatenates_witness :
  exists r,
    Merge [("x", VInterface
                   (VSlice TInterface
                      [VInterface (VInt 1); VInterface (VInt 2)]))]
          [("x", VInterface (VSlice TInterface [VInterface (VInt 3)]))]
    = Some r /\
    MapIndex r "x"
    = Some (VInterface
              (VSlice TInterface
                 ([VInterface (VInt 1); VInterface (VInt 2)]
                    ++ [VInterface (VInt 3)]))).
Proof.
  apply (Merge_concatenates
           [("x", VInterface
                    (VSlice TInterface [VInterface (VInt 1); VInterface (VInt 2)]))]
           [("x", VInterface (VSlice TInterface [VInterface (VInt 3)]))]
           "x"
           (VInterface
              (VSlice TInterface [VInterface (VInt 1); VInterface (VInt 2)]))
           (VInterface (VSlice TInterface [VInterface (VInt 3)]))
           TInterface
           [VInterface (VInt 1); VInterface (VInt 2)]
           TInterface [VInterface (VInt 3)]).
  - reflexivity.
  - reflexivity.
  - repeat constructor. simpl. tauto.
  - reflexivity.
  - reflexivity.
  - reflexivity.
  - reflexivity.
Defined.

(** ** [Source] *)

(** What a slot holds after an assignment has the type of the slot. *)
Lemma assignTo_TypeOf t x y :
  assignTo t x = Some y -> TypeOf y = Some t.
Proof.
  unfold assignTo. destruct (TypeOf x) as [tx|] eqn:E; [|discriminate].
  destruct (AssignableTo tx t) eqn:A; [|discriminate].
  assert (Hx : t <> TInterface -> tx = t).
  { intros Hn. destruct t; try congruence; now apply rtype_eqb_eq. }
  destruct t; try (intros H; inversion H; subst; rewrite E; f_equal;
                   apply Hx; discriminate).
  destruct x; intros H; inversion H; reflexivity.
Qed.

Lemma setField_fst fields name x fields' :
  setField fields name x = Some fields' -> map fst fields' = map fst fields.
Proof.
  revert fields'. induction fields as [|[f y] rest IH]; simpl; intros fields' H;
    [discriminate|].
  destruct (String.eqb (Name f) name).
  - destruct (assignTo (FType f) x); inversion H; reflexivity.
  - destruct (setField rest name x) as [rest'|]; inversion H; simpl.
    f_equal. now apply IH.
Qed.

(** [Set] on the field called [name] leaves the fields of other names. *)
Lemma setField_nth_other fields name x fields' j f y :
  setField fields name x = Some fields' ->
  nth_error fields j = Some (f, y) ->
  Name f <> name ->
  nth_error fields' j = Some (f, y).
Proof.
  revert fields' j. induction fields as [|[g z] rest IH]; simpl;
    intros fields' j H Hj Hne; [discriminate|].
  destruct (String.eqb (Name g) name) eqn:E.
  - destruct (assignTo (FType g) x); inversion H; subst.
    destruct j; simpl in *; auto.
    inversion Hj; subst. apply String.eqb_eq in E. contradiction.
  - destruct (setField rest name x) as [rest'|]; inversion H; subst.
    destruct j; simpl in *; auto.
Qed.

Lemma setField_fieldValue_other fields name x fields' n :
  setField fields name x = Some fields' ->
  n <> name ->
  fieldValue fields' n = fieldValue fields n.
Proof.
  revert fields'. induction fields as [|[g z] rest IH]; simpl;
    intros fields' H Hne; [discriminate|].
  destruct (String.eqb (Name g) name) eqn:E.
  - destruct (assignTo (FType g) x); inversion H; subst. simpl.
    apply String.eqb_eq in E.
    destruct (String.eqb (Name g) n) eqn:E'; auto.
    apply String.eqb_eq in E'. congruence.
  - destruct (setField rest name x) as [rest'|]; inversion H; subst. simpl.
    destruct (String.eqb (Name g) n); auto.
Qed.

(** [Set] on the field of [f], with a value of the type of the field. *)
Lemma setField_fieldValue_same fields f x :
  In f (map fst fields) ->
  NoDup (map Name (map fst fields)) ->
  TypeOf x = Some (FType f) ->
  exists fields',
    setField fields (Name f) x = Some fields' /\
    fieldValue fields' (Name f) = Some x.
Proof.
  induction fields as [|[g z] rest IH]; simpl; intros Hin Hnd Hx; [tauto|].
  inversion Hnd as [|? ? Hnin Hnd']; subst.
  destruct (String.eqb (Name g) (Name f)) eqn:E.
  - apply String.eqb_eq in E.
    assert (g = f).
    { destruct Hin as [|Hin]; auto. exfalso. apply Hnin. rewrite E.
      now apply in_map. }
    subst g. rewrite (assignTo_same _ _ Hx). simpl.
    eexists. split; [reflexivity|]. simpl. now rewrite String.eqb_refl.
  - destruct Hin as [->|Hin]; [now rewrite String.eqb_refl in E|].
    destruct (IH Hin Hnd' Hx) as (rest' & -> & Hv). simpl.
    eexists. split; [reflexivity|]. simpl. now rewrite E.
Qed.

(** One iteration of the loop of [Source]. *)
Lemma sourceLoop_cons addressable settings f rest fields :
  sourceLoop addressable settings (f :: rest) fields =
  match Lookup (Tag f) "json" with
  | None => sourceLoop addressable settings rest fields
  | Some s =>
      match MapIndex settings (beforeComma s) with
      | None => sourceLoop addressable settings rest fields
      | Some setting =>
          match kind (ValueOf setting) with
          | Slice | Array =>
              match toSpecificArray (ValueOf setting) (FType f) with
              | Panic => (fields, Crashed)
              | Ret _ (Some e) => (fields, Done (Some e))
              | Ret av None =>
                  match FieldByNameSet addressable fields (Name f) av with
                  | None => (fields, Crashed)
                  | Some fields' => sourceLoop addressable settings rest fields'
                  end
              end
          | _ =>
              match TypeOf (ValueOf setting) with
              | None => (fields, Crashed)
              | Some tsv =>
                  if negb (AssignableTo tsv (FType f)) then
                    (fields,
                     Done (Some (ErrUnassignableAt (Name f) (FType f) tsv)))
                  else
                    match FieldByNameSet addressable fields (Name f)
                                         (ValueOf setting) with
                    | None => (fields, Crashed)
                    | Some fields' => sourceLoop addressable settings rest fields'
                    end
              end
          end
      end
  end.
Proof. reflexivity. Qed.

Lemma sourceLoop_skip addressable settings f rest fields :
  skipped settings f = true ->
  sourceLoop addressable settings (f :: rest) fields =
  sourceLoop addressable settings rest fields.
Proof.
  unfold skipped, externalKey. rewrite sourceLoop_cons.
  destruct (Lookup (Tag f) "json") as [s|]; simpl; auto.
  destruct (MapIndex settings (beforeComma s)); auto. discriminate.
Qed.

(** An iteration either ends the loop, leaving the struct as it is, or sets
    the field of its name and goes on. *)
Lemma sourceLoop_step addressable settings f rest fields :
  skipped settings f = false ->
  (exists st, st <> Done None /\
     sourceLoop addressable settings (f :: rest) fields = (fields, st)) \/
  (exists av fields',
     setField fields (Name f) av = Some fields' /\
     sourceLoop addressable settings (f :: rest) fields =
     sourceLoop addressable settings rest fields').
Proof.
  unfold skipped, externalKey. rewrite sourceLoop_cons.
  destruct (Lookup (Tag f) "json") as [s|]; simpl; [|discriminate].
  destruct (MapIndex settings (beforeComma s)) as [setting|]; [|discriminate].
  intros _. unfold FieldByNameSet.
  destruct addressable;
  repeat match goal with
         | |- context [match ?x with _ => _ end] => destruct x eqn:?
         | |- context [if ?x then _ else _] => destruct x eqn:?
         end;
    try (left; eexists; split; [|reflexivity]; discriminate);
    (right; do 2 eexists; split; [eassumption|reflexivity]).
Qed.

Lemma sourceLoop_app addressable settings ts1 ts2 : forall fields,
  sourceLoop addressable settings (ts1 ++ ts2) fields =
  match sourceLoop addressable settings ts1 fields with
  | (fields1, Done None) => sourceLoop addressable settings ts2 fields1
  | r => r
  end.
Proof.
  induction ts1 as [|g ts1 IH]; intros fields; [reflexivity|].
  destruct (skipped settings g) eqn:Hs.
  - change ((g :: ts1) ++ ts2) with (g :: (ts1 ++ ts2)).
    rewrite !sourceLoop_skip by assumption. apply IH.
  - change ((g :: ts1) ++ ts2) with (g :: (ts1 ++ ts2)).
    rewrite !sourceLoop_cons. unfold FieldByNameSet.
    repeat first
      [ apply IH
      | reflexivity
      | match goal with
        | |- context [match ?x with _ => _ end] => destruct x eqn:?
        | |- context [if ?x then _ else _] => destruct x eqn:?
        end ].
Qed.

(** The loop changes the values of fields, never the fields themselves. *)
Lemma sourceLoop_fst addressable settings ts : forall fields fields' st,
  sourceLoop addressable settings ts fields = (fields', st) ->
  map fst fields' = map fst fields.
Proof.
  induction ts as [|g ts IH]; intros fields fields' st H.
  - inversion H. reflexivity.
  - destruct (skipped settings g) eqn:Hs.
    + rewrite sourceLoop_skip in H by assumption. eauto.
    + destruct (sourceLoop_step addressable settings g ts fields Hs)
        as [(st0 & _ & E)|(av & fields0 & Hset & E)]; rewrite E in H.
      * inversion H. reflexivity.
      * rewrite (IH _ _ _ H). eapply setField_fst; eauto.
Qed.

(** The loop leaves a field alone unless an iteration that is not skipped
    sets a field of that name. *)
Lemma sourceLoop_frame addressable settings ts :
  forall fields fields' st j f x,
    sourceLoop addressable settings ts fields = (fields', st) ->
    nth_error fields j = Some (f, x) ->
    (forall g, In g ts -> skipped settings g = false -> Name g <> Name f) ->
    nth_error fields' j = Some (f, x).
Proof.
  induction ts as [|g ts IH]; intros fields fields' st j f x H Hj Hne.
  - inversion H; subst. assumption.
  - destruct (skipped settings g) eqn:Hs.
    + rewrite sourceLoop_skip in H by assumption.
      eapply IH; eauto. intros; apply Hne; simpl; auto.
    + destruct (sourceLoop_step addressable settings g ts fields Hs)
        as [(st0 & _ & E)|(av & fields0 & Hset & E)]; rewrite E in H.
      * inversion H; subst. assumption.
      * eapply IH; eauto.
        -- eapply setField_nth_other; eauto.
           intros Heq. apply (Hne g); simpl; auto.
        -- intros; apply Hne; simpl; auto.
Qed.

Lemma sourceLoop_fieldValue addressable settings ts :
  forall fields fields' st n,
    sourceLoop addressable settings ts fields = (fields', st) ->
    (forall g, In g ts -> Name g <> n) ->
    fieldValue fields' n = fieldValue fields n.
Proof.
  induction ts as [|g ts IH]; intros fields fields' st n H Hne.
  - inversion H; subst. reflexivity.
  - destruct (skipped settings g) eqn:Hs.
    + rewrite sourceLoop_skip in H by assumption.
      eapply IH; eauto. intros; apply Hne; simpl; auto.
    + destruct (sourceLoop_step addressable settings g ts fields Hs)
        as [(st0 & _ & E)|(av & fields0 & Hset & E)]; rewrite E in H.
      * inversion H; subst. reflexivity.
      * rewrite (IH _ _ _ _ H) by (intros; apply Hne; simpl; auto).
        eapply setField_fieldValue_other; eauto.
        intros Heq. apply (Hne g); simpl; auto.
Qed.

Lemma NoDup_map_injective {A B} (h : A -> B) (l : list A) a b :
  NoDup (map h l) -> In a l -> In b l -> h a = h b -> a = b.
Proof.
  induction l as [|c l IH]; simpl; intros Hnd Ha Hb Heq; [tauto|].
  inversion Hnd as [|? ? Hnin Hnd']; subst.
  destruct Ha as [->|Ha], Hb as [->|Hb]; auto.
  - exfalso. apply Hnin. rewrite Heq. now apply in_map.
  - exfalso. apply Hnin. rewrite <- Heq. now apply in_map.
Qed.

(** The errors of [toSpecificArray] are those of its loop. *)
Lemma toSpecificArrayLoop_error te items : forall result v e,
  toSpecificArrayLoop te items result = Ret v (Some e) ->
  exists found, e = ErrUnassignable te found.
Proof.
  induction items as [|x items IH]; simpl; intros result v e H;
    [discriminate|].
  fold (unwrapOnce x) in H.
  destruct (TypeOf (unwrapOnce x)) as [tv|]; [|discriminate].
  destruct (negb (AssignableTo tv te)).
  - inversion H. eauto.
  - destruct (assignTo te (unwrapOnce x)); [eauto|discriminate].
Qed.

Lemma toSpecificArray_error array target v e :
  toSpecificArray array target = Ret v (Some e) ->
  exists expected found, e = ErrUnassignable expected found.
Proof.
  unfold toSpecificArray. destruct (TElem target) as [te|]; [|discriminate].
  destruct array; try discriminate; intros H;
    destruct (toSpecificArrayLoop_error _ _ _ _ _ H); eauto.
Qed.

(** The loop of [Source] never makes the error of the struct check. *)
Lemma sourceLoop_error addressable settings ts : forall fields fields' e,
  sourceLoop addressable settings ts fields = (fields', Done (Some e)) ->
  e <> ErrCanOnlySourceStructs.
Proof.
  induction ts as [|g ts IH]; intros fields fields' e H.
  - discriminate.
  - rewrite sourceLoop_cons in H. unfold FieldByNameSet in H.
    repeat match type of H with
           | sourceLoop _ _ ts _ = _ => fail 1
           | context [match ?x with _ => _ end] => destruct x eqn:?
           | context [if ?x then _ else _] => destruct x eqn:?
           end;
      try discriminate; eauto;
      inversion H; subst; try discriminate;
      match goal with
      | E : toSpecificArray _ _ = Ret _ (Some _) |- _ =>
          destruct (toSpecificArray_error _ _ _ _ E) as (? & ? & ->);
          discriminate
      end.
Qed.

(** ** The claims about [Source] *)

(** C7: a field of the record that [Source] skips, because it has no
    external key or because [settings] has no entry for its key, has after
    the call the value it had before, however the call ends. *)
Theorem Source_keeps_skipped_fields i settings fields i' st j f x :
  recordOf i = Some fields ->
  NoDup (map Name (map fst fields)) ->
  nth_error fields j = Some (f, x) ->
  skipped settings f = true ->
  Source i settings = (i', st) ->
  exists fields',
    recordOf i' = Some fields' /\ nth_error fields' j = Some (f, x).
Proof.
  intros Hrec Hnd Hj Hskip HS.
  assert (Hne : forall g, In g (map fst fields) ->
                          skipped settings g = false -> Name g <> Name f).
  { intros g Hg Hgs Heq.
    assert (Hf : In f (map fst fields)).
    { apply nth_error_In in Hj. now apply (in_map fst) in Hj. }
    rewrite (NoDup_map_injective Name _ g f Hnd Hg Hf Heq) in Hgs.
    congruence. }
  unfold recordOf in Hrec. unfold Source in HS.
  destruct (ValueOf i) as [| | | | |e|et l|et l|et m|et e|name fs];
    try discriminate.
  - destruct e as [| | | | |e'|et' l|et' l|et' m|et' e'|name fs];
      try discriminate.
    inversion Hrec; subst fs. simpl in HS.
    destruct (sourceLoop true settings (map fst fields) fields)
      as [fields' st'] eqn:E.
    inversion HS; subst. exists fields'. split; [reflexivity|].
    eapply sourceLoop_frame; eauto.
  - inversion Hrec; subst fs. simpl in HS.
    destruct (sourceLoop false settings (map fst fields) fields)
      as [fields' st'] eqn:E.
    inversion HS; subst. exists fields'. split; [reflexivity|].
    eapply sourceLoop_frame; eauto.
Qed.

Lemma Source_keeps_skipped_fields_witness :
  exists fields',
    recordOf (VPtr (TStruct "T")
                (VStruct "T" [(fEnabled, VBool true);
                              (fNames, VSlice TString []); (fN, VInt 7)]))
    = Some fields' /\
    nth_error fields' 1 = Some (fNames, VSlice TString []).
Proof.
  apply (Source_keeps_skipped_fields ptrT settingsEnabled recordT
           (VPtr (TStruct "T")
              (VStruct "T" [(fEnabled, VBool true);
                            (fNames, VSlice TString []); (fN, VInt 7)]))
           (Done None) 1 fNames (VSlice TString [])).
  - reflexivity.
  - repeat constructor; simpl; intuition discriminate.
  - reflexivity.
  - reflexivity.
  - reflexivity.
Defined.

(** C6: when the argument of [Source] denotes no record, that is, it is
    neither a struct nor a pointer to a struct, [Source] returns the error
    "can only source structs" and changes nothing; when it denotes a
    record, the check is passed: the call is the loop over the fields of
    the record, and it does not end with that error. *)
Theorem Source_struct_precondition i settings :
  (recordOf i = None ->
   Source i settings = (i, Done (Some ErrCanOnlySourceStructs))) /\
  (forall fields, recordOf i = Some fields ->
     exists viaPtr fields' st i',
       sourceLoop viaPtr settings (map fst fields) fields = (fields', st) /\
       Source i settings = (i', st) /\
       recordOf i' = Some fields' /\
       st <> Done (Some ErrCanOnlySourceStructs)).
Proof.
  unfold recordOf, Source. split.
  - destruct (ValueOf i) as [| | | | |e|et l|et l|et m|et e|name fs];
      try reflexivity; try discriminate.
    destruct e; try reflexivity; discriminate.
  - intros fields Hrec.
    destruct (ValueOf i) as [| | | | |e|et l|et l|et m|et e|name fs];
      try discriminate.
    + destruct e as [| | | | |e'|et' l|et' l|et' m|et' e'|name fs];
        try discriminate.
      inversion Hrec; subst fs. simpl.
      destruct (sourceLoop true settings (map fst fields) fields)
        as [fields' st] eqn:E.
      exists true, fields', st. eexists.
      split; [exact E|]. split; [reflexivity|]. split; [reflexivity|].
      intros Hst. subst st. now apply sourceLoop_error in E.
    + inversion Hrec; subst fs. simpl.
      destruct (sourceLoop false settings (map fst fields) fields)
        as [fields' st] eqn:E.
      exists false, fields', st. eexists.
      split; [exact E|]. split; [reflexivity|]. split; [reflexivity|].
      intros Hst. subst st. now apply sourceLoop_error in E.
Qed.

Lemma toSpecificArrayLoop_cons te x items result :
  toSpecificArrayLoop te (x :: items) result =
  match TypeOf (unwrapOnce x) with
  | None => Panic
  | Some tv =>
      if negb (AssignableTo tv te) then
        Ret ZeroValue (Some (ErrUnassignable te tv))
      else
        match assignTo te (unwrapOnce x) with
        | None => Panic
        | Some y => toSpecificArrayLoop te items (result ++ [y])
        end
  end.
Proof. reflexivity. Qed.

(** Elements that are all accepted: the loop returns the new slice. *)
Lemma toSpecificArrayLoop_accepts E items :
  forallb (assignableElement E) items = true ->
  exists items',
    Forall2 (fun x y => assignTo E (unwrapOnce x) = Some y) items items' /\
    forall result,
      toSpecificArrayLoop E items result = Ret (VSlice E (result ++ items')) None.
Proof.
  induction items as [|x items IH]; simpl forallb; intros H.
  - exists []. split; [constructor|]. intros result. now rewrite app_nil_r.
  - apply andb_prop in H. destruct H as [Hx Hitems].
    destruct (IH Hitems) as (items' & HF & Hloop).
    unfold assignableElement in Hx.
    destruct (TypeOf (unwrapOnce x)) as [tx|] eqn:Et; [|discriminate].
    destruct (assignTo_assignable E _ _ Et Hx) as [y Hy].
    exists (y :: items'). split; [constructor; assumption|].
    intros result. rewrite toSpecificArrayLoop_cons, Et, Hx, Hy. simpl.
    rewrite Hloop, <- app_assoc. reflexivity.
Qed.

(** Accepted elements, then one whose type is not assignable: the loop
    returns the error, with the element type and the type it found. *)
Lemma toSpecificArrayLoop_rejects E good bad rest tb :
  forallb (assignableElement E) good = true ->
  TypeOf (unwrapOnce bad) = Some tb ->
  AssignableTo tb E = false ->
  forall result,
    toSpecificArrayLoop E (good ++ bad :: rest) result
    = Ret ZeroValue (Some (ErrUnassignable E tb)).
Proof.
  intros Hgood Hbad Hno.
  induction good as [|x good IH]; intros result.
  - simpl app. now rewrite toSpecificArrayLoop_cons, Hbad, Hno.
  - simpl in Hgood. apply andb_prop in Hgood. destruct Hgood as [Hx Hgood].
    unfold assignableElement in Hx.
    destruct (TypeOf (unwrapOnce x)) as [tx|] eqn:Et; [|discriminate].
    destruct (assignTo_assignable E _ _ Et Hx) as [y Hy].
    change ((x :: good) ++ bad :: rest) with (x :: (good ++ bad :: rest)).
    rewrite toSpecificArrayLoop_cons, Et, Hx, Hy. simpl. now apply IH.
Qed.

(** ** C5 *)

(** C5 (as stated, refuted): the field [Names] has type [[]string] and its
    key maps to the sequence [["a", 1]]; the element [1] is not assignable
    to [string], and [Source] fails with an error that has the expected and
    the found type but does not name the field.  And the field [Ptrs] has
    type [[]*string] and its key maps to a [[]*string]: the element is
    assignable to [*string] as it is, but it is unwrapped all the same and
    [Source] fails. *)
Lemma Source_sequence_error_omits_field :
  (FType fNames = TSlice TString /\
   externalKey fNames = Some "names" /\
   MapIndex settingsBadNames "names"
   = Some (VInterface (VSlice TInterface
                         [VInterface (VString "a"); VInterface (VInt 1)])) /\
   Source ptrT settingsBadNames
   = (ptrT, Done (Some (ErrUnassignable TString TInt))) /\
   namesField (ErrUnassignable TString TInt) (Name fNames) = false) /\
  (FType fPtrs = TSlice (TPtr TString) /\
   TypeOf (VPtr TString (VString "a")) = Some (TPtr TString) /\
   AssignableTo (TPtr TString) (TPtr TString) = true /\
   Source ptrP settingsPtrs
   = (ptrP, Done (Some (ErrUnassignable (TPtr TString) TString)))).
Proof. repeat split. Qed.

(** The elements of a sequence without nil element are all accepted, or
    there is a first one whose type is not assignable. *)
Lemma assignableElement_first E items :
  Forall (fun x => TypeOf (unwrapOnce x) <> None) items ->
  forallb (assignableElement E) items = false ->
  exists good bad rest tb,
    items = good ++ bad :: rest /\
    forallb (assignableElement E) good = true /\
    TypeOf (unwrapOnce bad) = Some tb /\
    AssignableTo tb E = false.
Proof.
  induction 1 as [|x items Hx _ IH]; simpl; [discriminate|].
  destruct (assignableElement E x) eqn:Ex; simpl.
  - intros H. destruct (IH H) as (good & bad & rest & tb & -> & Hg & Hb & Hn).
    exists (x :: good), bad, rest, tb. simpl. rewrite Ex. auto.
  - intros _. unfold assignableElement in Ex.
    destruct (TypeOf (unwrapOnce x)) as [tx|] eqn:Et; [|congruence].
    exists [], x, items, tx. auto.
Qed.

(** C5 (amended): [Source] is called on a pointer to a record and its loop
    reaches a field [f] of static type sequence of [E] whose external key
    maps in [settings] to a sequence (a slice or an array) that holds no
    nil element: no element is a nil interface or a nil pointer.  Each
    element is unwrapped once when it is an interface or a pointer, and not
    otherwise.  If all elements then have a type assignable to [E], the
    field is set to a new sequence of type [E] that holds the unwrapped
    elements, and still holds it when the call ends.  If not, there is a
    first element whose type is not assignable to [E], and [Source] fails
    with the error that carries [E] and the type of that element, and no
    field name; the record is as the loop left it before [f]. *)
Theorem Source_sequence_field
        et name fields settings pre f post fields1 tag setting ts items E :
  map fst fields = pre ++ f :: post ->
  NoDup (map Name (map fst fields)) ->
  sourceLoop true settings pre fields = (fields1, Done None) ->
  Lookup (Tag f) "json" = Some tag ->
  MapIndex settings (beforeComma tag) = Some setting ->
  ValueOf setting = VSlice ts items \/ ValueOf setting = VArray ts items ->
  FType f = TSlice E ->
  Forall (fun x => TypeOf (unwrapOnce x) <> None) items ->
  (forallb (assignableElement E) items = true ->
   exists items' fields' st,
     Forall2 (fun x y => assignTo E (unwrapOnce x) = Some y) items items' /\
     Source (VPtr et (VStruct name fields)) settings
     = (VPtr et (VStruct name fields'), st) /\
     fieldValue fields' (Name f) = Some (VSlice E items')) /\
  (forallb (assignableElement E) items = false ->
   exists good bad rest tb,
     items = good ++ bad :: rest /\
     forallb (assignableElement E) good = true /\
     TypeOf (unwrapOnce bad) = Some tb /\
     AssignableTo tb E = false /\
     Source (VPtr et (VStruct name fields)) settings
     = (VPtr et (VStruct name fields1),
        Done (Some (ErrUnassignable E tb))) /\
     namesField (ErrUnassignable E tb) (Name f) = false).
Proof.
  intros Hfs Hnd Hpre Htag Hkey Hsv Hty Hnonnil.
  assert (HS : Source (VPtr et (VStruct name fields)) settings =
               let (fields', st) :=
                 sourceLoop true settings (f :: post) fields1 in
               (VPtr et (VStruct name fields'), st)).
  { unfold Source. simpl. rewrite Hfs, sourceLoop_app, Hpre. reflexivity. }
  assert (Hstep : sourceLoop true settings (f :: post) fields1 =
                  match toSpecificArrayLoop E items [] with
                  | Panic => (fields1, Crashed)
                  | Ret _ (Some e) => (fields1, Done (Some e))
                  | Ret av None =>
                      match FieldByNameSet true fields1 (Name f) av with
                      | None => (fields1, Crashed)
                      | Some fields' => sourceLoop true settings post fields'
                      end
                  end).
  { rewrite sourceLoop_cons, Htag, Hkey.
    destruct Hsv as [Hsv|Hsv]; rewrite Hsv; simpl kind; cbv iota;
      unfold toSpecificArray; rewrite Hty; reflexivity. }
  rewrite HS, Hstep. clear HS Hstep.
  split.
  - intros Hall.
    destruct (toSpecificArrayLoop_accepts E items Hall) as (items' & HF & ->).
    simpl app. unfold FieldByNameSet.
    assert (Hin : In f (map fst fields1)).
    { rewrite (sourceLoop_fst _ _ _ _ _ _ Hpre), Hfs.
      apply in_or_app. right. left. reflexivity. }
    assert (Hnd1 : NoDup (map Name (map fst fields1))).
    { now rewrite (sourceLoop_fst _ _ _ _ _ _ Hpre). }
    destruct (setField_fieldValue_same fields1 f (VSlice E items') Hin Hnd1)
      as (fields2 & -> & Hval).
    { simpl. now rewrite Hty. }
    destruct (sourceLoop true settings post fields2) as [fields' st] eqn:Epost.
    exists items', fields', st. repeat split; auto.
    rewrite (sourceLoop_fieldValue _ _ _ _ _ _ _ Epost); auto.
    intros g Hg Heq. rewrite Hfs, !map_app in Hnd. simpl in Hnd.
    apply NoDup_remove_2 in Hnd. apply Hnd. rewrite <- Heq.
    apply in_or_app. right. now apply in_map.
  - intros Hsome.
    destruct (assignableElement_first E items Hnonnil Hsome)
      as (good & bad & rest & tb & -> & Hgood & Hbad & Hno).
    exists good, bad, rest, tb.
    rewrite (toSpecificArrayLoop_rejects E good bad rest tb Hgood Hbad Hno).
    repeat split; auto.
Qed.

Lemma Source_sequence_field_witness :
  (forallb (assignableElement TString)
           [VInterface (VString "a"); VInterface (VInt 1)] = true ->
   exists items' fields' st,
     Forall2 (fun x y => assignTo TString (unwrapOnce x) = Some y)
             [VInterface (VString "a"); VInterface (VInt 1)] items' /\
     Source (VPtr (TStruct "T") (VStruct "T" recordT)) settingsBadNames
     = (VPtr (TStruct "T") (VStruct "T" fields'), st) /\
     fieldValue fields' (Name fNames) = Some (VSlice TString items')) /\
  (forallb (assignableElement TString)
           [VInterface (VString "a"); VInterface (VInt 1)] = false ->
   exists good bad rest tb,
     [VInterface (VString "a"); VInterface (VInt 1)] = good ++ bad :: rest /\
     forallb (assignableElement TString) good = true /\
     TypeOf (unwrapOnce bad) = Some tb /\
     AssignableTo tb TString = false /\
     Source (VPtr (TStruct "T") (VStruct "T" recordT)) settingsBadNames
     = (VPtr (TStruct "T") (VStruct "T" recordT),
        Done (Some (ErrUnassignable TString tb))) /\
     namesField (ErrUnassignable TString tb) (Name fNames) = false).
Proof.
  apply (Source_sequence_field (TStruct "T") "T" recordT settingsBadNames
           [fEnabled] fNames [fN] recordT "names,omitempty"
           (VInterface (VSlice TInterface
                          [VInterface (VString "a"); VInterface (VInt 1)]))
           TInterface
           [VInterface (VString "a"); VInterface (VInt 1)] TString).
  - reflexivity.
  - repeat constructor; simpl; intuition discriminate.
  - reflexivity.
  - reflexivity.
  - reflexivity.
  - left. reflexivity.
  - reflexivity.
  - repeat constructor; simpl; discriminate.
Defined.

(** A nil element makes [Source] panic: [v.Type()] is called on the zero
    Value that [Elem] returns for it. *)
Example Source_nil_element_panics :
  Source ptrT [("names", VInterface (VSlice TInterface
                                       [VInterface (VString "a");
                                        VInterface ZeroValue]))]
  = (ptrT, Crashed).
Proof. reflexivity. Qed.

(** ** The traversal and the handler *)

Lemma untilFailure_none h l : firstFailure h l = None -> untilFailure h l = l.
Proof.
  induction l as [|s l IH]; simpl; auto. unfold fails.
  destruct (snd (h s)); [discriminate|]. intros H. now rewrite IH.
Qed.

Lemma firstFailure_app h l1 l2 :
  firstFailure h (l1 ++ l2) =
  match firstFailure h l1 with
  | Some e => Some e
  | None => firstFailure h l2
  end.
Proof.
  induction l1 as [|s l1 IH]; simpl; auto. destruct (snd (h s)); auto.
Qed.

Lemma untilFailure_app h l1 l2 :
  untilFailure h (l1 ++ l2) =
  match firstFailure h l1 with
  | Some _ => untilFailure h l1
  | None => l1 ++ untilFailure h l2
  end.
Proof.
  induction l1 as [|s l1 IH]; simpl; auto. unfold fails.
  destruct (snd (h s)); auto. rewrite IH.
  destruct (firstFailure h l1); reflexivity.
Qed.

(** A first failure splits the strings: those before it pass, it fails. *)
Lemma firstFailure_split h l e :
  firstFailure h l = Some e ->
  exists pre s post,
    l = pre ++ s :: post /\
    Forall (fun x => snd (h x) = None) pre /\
    snd (h s) = Some e /\
    untilFailure h l = pre ++ [s].
Proof.
  induction l as [|s l IH]; simpl; [discriminate|]. unfold fails.
  destruct (snd (h s)) as [e'|] eqn:E.
  - intros H. inversion H; subst. exists [], s, l. auto.
  - intros H. destruct (IH H) as (pre & s0 & post & -> & Hpre & Hs0 & Hu).
    exists (s :: pre), s0, post. rewrite Hu. auto.
Qed.

Lemma firstFailure_some h l s :
  In s l -> snd (h s) <> None -> exists e, firstFailure h l = Some e.
Proof.
  induction l as [|x l IH]; simpl; [tauto|].
  intros [->|Hin] Hs.
  - destruct (snd (h s)); [eauto|congruence].
  - destruct (snd (h x)); eauto.
Qed.

Lemma forEach_traced {A S : Type} (body : A -> run)
      (store : A -> Value -> S -> option S) (strs : A -> list string)
      (h : stringHandler) (items : list A) :
  Forall (fun x => traced h (strs x) (body x)) items ->
  forall s log e,
    forEach body store items s = (log, e) ->
    e <> Panicked ->
    log = untilFailure h (flat_map strs items) /\
    match firstFailure h (flat_map strs items) with
    | Some err => e = Failed err
    | None => exists s', e = Completed s'
    end.
Proof.
  induction 1 as [|x items Hx _ IH]; simpl; intros s log e H Hnp.
  - inversion H; subst. eauto.
  - rewrite untilFailure_app, firstFailure_app. unfold traced in Hx.
    destruct (body x) as [logx [rv [err|]|]]; simpl in Hx.
    + inversion H; subst. destruct Hx as [-> Hx]; [discriminate|].
      destruct (firstFailure h (strs x)) as [e0|]; destruct Hx as [? Hx];
        inversion Hx; subst. auto.
    + destruct Hx as [Hlog Hx]; [discriminate|].
      destruct (firstFailure h (strs x)) as [e0|] eqn:Ef; destruct Hx as [? Hx];
        inversion Hx; subst.
      rewrite (untilFailure_none _ _ Ef) in H.
      match type of H with
      | match ?c with _ => _ end = _ => destruct c as [s'|]
      end; [|inversion H; subst; congruence].
      destruct (forEach body store items s') as [log' e'] eqn:E.
      inversion H; subst. destruct (IH _ _ _ E Hnp) as [-> He]. auto.
    + inversion H; subst. congruence.
Qed.

(** Every call of [inspectStringReflect] that does not panic is traced by
    the strings of its argument, and on a failure of the handler returns
    the value it was given. *)
Lemma inspectStringReflect_traced h v :
  traced h (stringsOf v) (inspectStringReflect v h) /\
  forall log x e,
    inspectStringReflect v h = (log, Ret x (Some e)) -> x = ValueOf v.
Proof.
  induction v as [| | | |s|e IH|et l IH|et l IH|et m IH|et e IH|name fields IH]
    using Value_ind;
    try (split; [unfold traced; intros _; simpl; eauto|simpl; intros; discriminate]).
  - (* a string *)
    unfold traced. simpl. unfold fails. destruct (h s) as [s' [err|]]; simpl.
    + split; [intros _; eauto|]. intros log x e H. now inversion H.
    + split; [intros _; eauto|]. intros; discriminate.
  - (* an interface *)
    exact IH.
  - (* a slice *)
    simpl. destruct (Nat.eqb (List.length l) 0) eqn:El.
    + destruct l; [|discriminate]. split; [unfold traced; intros _; simpl; eauto|].
      intros; discriminate.
    + assert (Hl : Forall (fun x => traced h (stringsOf x)
                                      (inspectStringReflect x h)) l).
      { eapply Forall_impl; [|exact IH]. simpl. tauto. }
      pose proof (forEach_traced
                    (fun x => inspectStringReflect x h)
                    (fun _ rv nsv =>
                       option_map (fun x => nsv ++ [x]) (assignTo et rv))
                    stringsOf h l Hl []) as HT.
      destruct (forEach _ _ l []) as [log [nsv|err|]] eqn:E;
        (split; [unfold traced; intros Hnp; simpl in *|intros ? ? ? Heq; now inversion Heq]).
      * destruct (HT _ _ eq_refl) as [-> He]; [discriminate|].
        split; auto. destruct (firstFailure h (flat_map stringsOf l)).
        -- discriminate.
        -- eauto.
      * destruct (HT _ _ eq_refl) as [-> He]; [discriminate|].
        split; auto. destruct (firstFailure h (flat_map stringsOf l)).
        -- inversion He; subst. eauto.
        -- destruct He; discriminate.
      * congruence.
  - (* an array *)
    simpl. destruct (Nat.eqb (List.length l) 0) eqn:El.
    + destruct l; [|discriminate]. split; [unfold traced; intros _; simpl; eauto|].
      intros; discriminate.
    + split; [unfold traced; intros Hnp; simpl in Hnp; congruence|intros; discriminate].
  - (* a map *)
    simpl.
    assert (Hm : Forall (fun kx => traced h (stringsOf (snd kx))
                                     (inspectStringReflect (snd kx) h)) m).
    { eapply Forall_impl; [|exact IH]. simpl. tauto. }
    pose proof (forEach_traced
                  (fun kx : string * Value => inspectStringReflect (snd kx) h)
                  (fun kx rv nmv => SetMapIndex et nmv (fst kx) rv)
                  (fun kx => stringsOf (snd kx)) h m Hm []) as HT.
    destruct (forEach _ _ m []) as [log [nmv|err|]] eqn:E;
      (split; [unfold traced; intros Hnp; simpl in *|intros ? ? ? Heq; now inversion Heq]).
    + destruct (HT _ _ eq_refl) as [-> He]; [discriminate|].
      split; auto.
      destruct (firstFailure h (flat_map (fun kx => stringsOf (snd kx)) m)).
      * discriminate.
      * eauto.
    + destruct (HT _ _ eq_refl) as [-> He]; [discriminate|].
      split; auto.
      destruct (firstFailure h (flat_map (fun kx => stringsOf (snd kx)) m)).
      * inversion He; subst. eauto.
      * destruct He; discriminate.
    + congruence.
  - (* a pointer *)
    destruct IH as [IH _]. simpl. unfold traced in IH.
    destruct (inspectStringReflect e h) as [log [rv [err|]|]]; simpl in IH.
    + split; [|intros ? ? ? Heq; now inversion Heq].
      unfold traced. intros _. simpl. destruct IH as [-> IH]; [discriminate|].
      split; auto. destruct (firstFailure h (stringsOf e)); destruct IH as [? IH];
        inversion IH; subst. eauto.
    + assert (Hnone : fst (log, Ret rv None) = untilFailure h (stringsOf e) /\
                      firstFailure h (stringsOf e) = None).
      { destruct IH as [-> IH]; [discriminate|]. split; auto.
        destruct (firstFailure h (stringsOf e)); auto.
        destruct IH as [? IH]. discriminate. }
      simpl in Hnone. destruct Hnone as [-> Hnone].
      destruct (TypeOf e) as [t|];
        [destruct (assignTo t rv) as [x|]|];
        (split; [unfold traced; intros Hnp; simpl in *|intros; discriminate]);
        try congruence.
      rewrite Hnone. eauto.
    + split; [unfold traced; intros Hnp; simpl in Hnp; congruence|intros; discriminate].
  - (* a struct *)
    simpl.
    assert (Hf : Forall (fun fx => traced h (stringsOf (snd fx))
                                     (inspectStringReflect (snd fx) h)) fields).
    { eapply Forall_impl; [|exact IH]. simpl. tauto. }
    pose proof (forEach_traced
                  (fun f : StructField * Value =>
                     inspectStringReflect (snd f) h)
                  (fun f rv nsv =>
                     option_map (fun x => nsv ++ [(fst f, x)])
                                (assignTo (FType (fst f)) rv))
                  (fun fx => stringsOf (snd fx)) h fields Hf []) as HT.
    destruct (forEach _ _ fields []) as [log [nsv|err|]] eqn:E;
      (split; [unfold traced; intros Hnp; simpl in *|intros ? ? ? Heq; now inversion Heq]).
    + destruct (HT _ _ eq_refl) as [-> He]; [discriminate|].
      split; auto.
      destruct (firstFailure h (flat_map (fun fx => stringsOf (snd fx)) fields)).
      * discriminate.
      * eauto.
    + destruct (HT _ _ eq_refl) as [-> He]; [discriminate|].
      split; auto.
      destruct (firstFailure h (flat_map (fun fx => stringsOf (snd fx)) fields)).
      * inversion He; subst. eauto.
      * destruct He; discriminate.
    + congruence.
Qed.

(** ** The traversal does not panic on sound values *)

Lemma forEach_no_panic {A S : Type} (body : A -> run)
      (store : A -> Value -> S -> option S) (items : list A) :
  Forall (fun x => snd (body x) <> Panic /\
                   forall rv, snd (body x) = Ret rv None ->
                              forall s, store x rv s <> None) items ->
  forall s, snd (forEach body store items s) <> Panicked.
Proof.
  induction 1 as [|x items [Hx Hstore] _ IH]; simpl; intros s.
  - discriminate.
  - destruct (body x) as [log [rv [err|]|]]; simpl in *.
    + discriminate.
    + destruct (store x rv s) as [s'|] eqn:E.
      * specialize (IH s'). destruct (forEach body store items s'). exact IH.
      * exfalso. eapply Hstore; eauto.
    + congruence.
Qed.

Lemma settled_assignTo v r t rv :
  settled v r -> snd r = Ret rv None -> fits t v = true ->
  exists y, assignTo t rv = Some y.
Proof.
  intros [_ H] Hr Hfit. destruct (H rv Hr) as (t' & Ht' & Ha).
  eapply assignTo_assignable; eauto. apply Ha. now apply fits_TypeOf.
Qed.

Lemma sound_settled h v :
  sound v = true -> settled v (inspectStringReflect v h).
Proof.
  induction v as [| | | |s|e IH|et l IH|et l IH|et m IH|et e IH|name fields IH]
    using Value_ind; intros Hs;
    try discriminate;
    try (split; simpl; [discriminate|];
         intros rv H; inversion H; subst; simpl; eexists; split;
         [reflexivity|]; intros t Ht; inversion Ht; reflexivity).
  - (* a string *)
    unfold settled. simpl. destruct (h s) as [s' [err|]]; simpl.
    + split; [discriminate|]. intros; discriminate.
    + split; [discriminate|]. intros rv H. inversion H; subst. simpl.
      eexists. split; [reflexivity|]. intros t Ht. now inversion Ht.
  - (* an interface *)
    assert (He : sound e = true) by (destruct e; simpl in Hs; auto; discriminate).
    destruct (IH He) as [Hnp Hrv]. split; [exact Hnp|].
    simpl. intros rv H. destruct (Hrv rv H) as (t' & Ht' & _).
    exists t'. split; auto. intros t Ht. inversion Ht. reflexivity.
  - (* a slice *)
    simpl in Hs. unfold settled. simpl.
    destruct (Nat.eqb (List.length l) 0).
    { split; simpl; [discriminate|]. intros rv H. inversion H; subst. simpl.
      eexists. split; [reflexivity|]. intros t Ht. inversion Ht.
      apply AssignableTo_refl. }
    pose proof (forEach_no_panic
                  (fun x => inspectStringReflect x h)
                  (fun _ rv nsv =>
                     option_map (fun x => nsv ++ [x]) (assignTo et rv)) l) as HF.
    destruct (forEach _ _ l []) as [log [nsv|err|]] eqn:E; simpl.
    + split; [discriminate|]. intros rv H. inversion H; subst. simpl.
      eexists. split; [reflexivity|]. intros t Ht. inversion Ht.
      apply AssignableTo_refl.
    + split; [discriminate|]. intros; discriminate.
    + exfalso. eapply (fun H => HF H []); [|rewrite E; reflexivity].
      rewrite Forall_forall in *. intros x Hx.
      rewrite forallb_forall in Hs. specialize (Hs x Hx).
      apply andb_prop in Hs. destruct Hs as [Hfit Hsx].
      specialize (IH x Hx Hsx). split; [apply IH|].
      intros rv Hrv s.
      destruct (settled_assignTo _ _ et rv IH Hrv Hfit) as [y ->].
      discriminate.
  - (* an array *)
    simpl in Hs. unfold settled. simpl. rewrite Hs. simpl.
    split; [discriminate|]. intros rv H. inversion H; subst. simpl.
    eexists. split; [reflexivity|]. intros t Ht. inversion Ht.
    apply AssignableTo_refl.
  - (* a map *)
    simpl in Hs. unfold settled. simpl.
    pose proof (forEach_no_panic
                  (fun kx : string * Value => inspectStringReflect (snd kx) h)
                  (fun kx rv nmv => SetMapIndex et nmv (fst kx) rv) m) as HF.
    destruct (forEach _ _ m []) as [log [nmv|err|]] eqn:E; simpl.
    + split; [discriminate|]. intros rv H. inversion H; subst. simpl.
      eexists. split; [reflexivity|]. intros t Ht. inversion Ht.
      apply AssignableTo_refl.
    + split; [discriminate|]. intros; discriminate.
    + exfalso. eapply (fun H => HF H []); [|rewrite E; reflexivity].
      rewrite Forall_forall in *. intros [k x] Hx.
      rewrite forallb_forall in Hs. specialize (Hs _ Hx). simpl in *.
      apply orb_prop in Hs. destruct Hs as [Hnil|Hs].
      * destruct x as [| | | | |[| | | | | | | | | |]| | | | |];
          try discriminate. simpl. split; [discriminate|].
        intros rv Hrv s. inversion Hrv; subst. discriminate.
      * apply andb_prop in Hs. destruct Hs as [Hfit Hsx].
        specialize (IH _ Hx Hsx). simpl in IH. split; [apply IH|].
        intros rv Hrv s.
        destruct (settled_assignTo _ _ et rv IH Hrv Hfit) as [y Hy].
        unfold SetMapIndex. rewrite Hy.
        destruct rv; simpl; discriminate.
  - (* a pointer *)
    simpl in Hs. apply andb_prop in Hs. destruct Hs as [Hfit Hse].
    specialize (IH Hse). unfold settled. simpl.
    destruct (inspectStringReflect e h) as [log [rv [err|]|]] eqn:E; simpl.
    + split; [discriminate|]. intros; discriminate.
    + rewrite (fits_TypeOf _ _ Hfit).
      destruct (settled_assignTo _ _ et rv IH eq_refl Hfit) as [y ->]. simpl.
      split; [discriminate|]. intros rv' H. inversion H; subst. simpl.
      eexists. split; [reflexivity|]. intros t Ht. inversion Ht.
      apply AssignableTo_refl.
    + destruct IH as [IH _]. simpl in IH. congruence.
  - (* a struct *)
    simpl in Hs. unfold settled. simpl.
    pose proof (forEach_no_panic
                  (fun f : StructField * Value => inspectStringReflect (snd f) h)
                  (fun f rv nsv =>
                     option_map (fun x => nsv ++ [(fst f, x)])
                                (assignTo (FType (fst f)) rv)) fields) as HF.
    destruct (forEach _ _ fields []) as [log [nsv|err|]] eqn:E; simpl.
    + split; [discriminate|]. intros rv H. inversion H; subst. simpl.
      eexists. split; [reflexivity|]. intros t Ht. inversion Ht.
      apply AssignableTo_refl.
    + split; [discriminate|]. intros; discriminate.
    + exfalso. eapply (fun H => HF H []); [|rewrite E; reflexivity].
      rewrite Forall_forall in *. intros [f x] Hx.
      rewrite forallb_forall in Hs. specialize (Hs _ Hx). simpl in *.
      apply andb_prop in Hs. destruct Hs as [Hfit Hsx].
      specialize (IH _ Hx Hsx). simpl in IH. split; [apply IH|].
      intros rv Hrv s.
      destruct (settled_assignTo _ _ (FType f) rv IH Hrv Hfit) as [y ->].
      discriminate.
Qed.

(** ** [InspectStrings] *)

Lemma ValueOf_idem i : ValueOf (ValueOf i) = ValueOf i.
Proof. induction i using Value_ind; simpl; auto. Qed.

Lemma ValueOf_kind i : kind (ValueOf i) <> Interface.
Proof. induction i using Value_ind; simpl; auto; discriminate. Qed.

(** What an [interface{}] holds is never an interface: [ValueOf] gives the
    value back. *)
Lemma ValueOf_id i : kind i <> Interface -> ValueOf i = i.
Proof. destruct i; simpl; auto. congruence. Qed.

Lemma stringsOf_ValueOf i : stringsOf (ValueOf i) = stringsOf i.
Proof. induction i using Value_ind; simpl; auto. Qed.

Lemma sound_ValueOf i : sound i = true -> sound (ValueOf i) = true.
Proof.
  induction i as [| | | | |e IH| | | | |] using Value_ind; simpl; auto.
  intros H. apply IH. destruct e; auto; discriminate.
Qed.

Lemma Interface_ValueOf i :
  ValueOf i <> ZeroValue -> Interface_ (ValueOf i) = Some (ValueOf i).
Proof.
  unfold Interface_. rewrite ValueOf_idem.
  destruct (ValueOf i); congruence.
Qed.

(** [InspectStrings] when the handler fails somewhere: unless the call
    panics, it returns the value it was given with the error of the first
    failure, having called the handler up to that failure. *)
Lemma InspectStrings_failure i h pre s post e :
  stringsOf i = pre ++ s :: post ->
  firstFailure h (stringsOf i) = Some e ->
  untilFailure h (stringsOf i) = pre ++ [s] ->
  snd (inspectStringReflect (ValueOf i) h) <> Panic ->
  InspectStrings i h = (pre ++ [s], Ret (ValueOf i) (Some e)).
Proof.
  intros Hsplit Hfirst Huntil Hnp.
  destruct (inspectStringReflect_traced h (ValueOf i)) as [HT Hval].
  unfold traced in HT. rewrite stringsOf_ValueOf, Hfirst, Huntil in HT.
  unfold InspectStrings.
  destruct (inspectStringReflect (ValueOf i) h) as [log out].
  destruct (HT Hnp) as [Hlog [v Hout]]. simpl in Hlog, Hout. subst log out.
  rewrite (Hval _ _ _ eq_refl), ValueOf_idem, Interface_ValueOf; auto.
  intros Hz. rewrite <- stringsOf_ValueOf, Hz in Hsplit.
  destruct pre; discriminate.
Qed.

(** ** The claims about [InspectStrings] *)

(** C2 (evaluation of the code at the failing input): on a nil pointer,
    and on a struct or a slice that holds one, [InspectStrings] panics:
    the recursive call on [v.Elem()] returns the zero Value and
    [v.Elem().Type()] panics on it.  The nil pointer is not returned. *)
Theorem InspectStrings_nil_pointer_panics (t : rtype) (h : stringHandler) :
  InspectStrings (VPtr t ZeroValue) h = ([], Panic) /\
  InspectStrings (VStruct "T" [(mkField "P" (TPtr t) [], VPtr t ZeroValue)]) h
  = ([], Panic) /\
  InspectStrings (VSlice (TPtr t) [VPtr t ZeroValue]) h = ([], Panic).
Proof. repeat split. Qed.

(** C8 (evaluation of the code at the failing input): the handler is to
    fail on ["bad"], which is inside each of these values: the untyped tree
    [[null, "bad"]], a struct with a nil pointer before the string, and an
    array that holds the string.  Whatever the handler, [InspectStrings]
    panics before it calls the handler at all, and returns no error: in the
    slice [Set] gets the zero Value that the traversal returned for the nil
    element, in the struct [v.Elem().Type()] is called on the zero Value,
    and for the array [reflect.MakeSlice] gets an array type. *)
Theorem InspectStrings_panics_before_failure (h : stringHandler) :
  (In "bad" (stringsOf (VSlice TInterface
                          [VInterface ZeroValue; VInterface (VString "bad")]))
   /\ InspectStrings (VSlice TInterface
                        [VInterface ZeroValue; VInterface (VString "bad")]) h
      = ([], Panic)) /\
  (In "bad" (stringsOf (VStruct "T"
                          [(mkField "P" (TPtr TString) [], VPtr TString ZeroValue);
                           (mkField "S" TString [], VString "bad")]))
   /\ InspectStrings (VStruct "T"
                        [(mkField "P" (TPtr TString) [], VPtr TString ZeroValue);
                         (mkField "S" TString [], VString "bad")]) h
      = ([], Panic)) /\
  (In "bad" (stringsOf (VArray TString [VString "bad"]))
   /\ InspectStrings (VArray TString [VString "bad"]) h = ([], Panic)).
Proof. repeat split; simpl; auto. Qed.

(** Where the call does not panic the failure of the handler is passed on:
    when the handler fails on a string inside the value, the strings split
    at the first failure, in traversal order; [InspectStrings] calls the
    handler on the strings up to that one and on no other, and returns the
    error of that call together with the value it was given, not a
    transformed one.  On every sound value the call does not panic. *)
Theorem InspectStrings_handler_failure i h s :
  In s (stringsOf i) ->
  snd (h s) <> None ->
  exists pre s0 post e,
    stringsOf i = pre ++ s0 :: post /\
    Forall (fun x => snd (h x) = None) pre /\
    snd (h s0) = Some e /\
    (snd (InspectStrings i h) <> Panic ->
     InspectStrings i h = (pre ++ [s0], Ret (ValueOf i) (Some e))) /\
    (sound i = true ->
     InspectStrings i h = (pre ++ [s0], Ret (ValueOf i) (Some e))).
Proof.
  intros Hin Hs.
  destruct (firstFailure_some h _ s Hin Hs) as [e He].
  destruct (firstFailure_split h _ e He) as (pre & s0 & post & Hsplit & Hpre & Hs0 & Hu).
  exists pre, s0, post, e. repeat split; auto.
  - intros Hnp. eapply InspectStrings_failure; eauto.
    intros Hp. apply Hnp. unfold InspectStrings.
    destruct (inspectStringReflect (ValueOf i) h) as [log out].
    simpl in Hp. now subst out.
  - intros Hsound. eapply InspectStrings_failure; eauto.
    apply (sound_settled h (ValueOf i) (sound_ValueOf i Hsound)).
Qed.

Lemma InspectStrings_handler_failure_witness :
  exists pre s0 post e,
    stringsOf sliceABadC = pre ++ s0 :: post /\
    Forall (fun x => snd (failOnBad x) = None) pre /\
    snd (failOnBad s0) = Some e /\
    (snd (InspectStrings sliceABadC failOnBad) <> Panic ->
     InspectStrings sliceABadC failOnBad
     = (pre ++ [s0], Ret (ValueOf sliceABadC) (Some e))) /\
    (sound sliceABadC = true ->
     InspectStrings sliceABadC failOnBad
     = (pre ++ [s0], Ret (ValueOf sliceABadC) (Some e))).
Proof.
  apply (InspectStrings_handler_failure sliceABadC failOnBad "bad").
  - simpl. auto.
  - simpl. discriminate.
Defined.

(** C10: an error of [InspectStrings] comes with the value the call was
    given: every level of [inspectStringReflect] returns its own argument
    with the error (the concrete value for an interface), the value
    returned by [InspectStrings] is the one its argument holds, not the
    zero Value and not a value built by the traversal; and on a sound value
    with a string on which the handler fails the call does return this
    way. *)
Theorem InspectStrings_error_returns_input i h :
  (forall v log x e,
      inspectStringReflect v h = (log, Ret x (Some e)) -> x = ValueOf v) /\
  (forall log x e,
      InspectStrings i h = (log, Ret x (Some e)) ->
      x = ValueOf i /\ x <> ZeroValue /\ (kind i <> Interface -> x = i)) /\
  (forall s,
      In s (stringsOf i) -> snd (h s) <> None -> sound i = true ->
      exists log e, InspectStrings i h = (log, Ret (ValueOf i) (Some e))).
Proof.
  split; [|split].
  - intros v. apply (inspectStringReflect_traced h v).
  - unfold InspectStrings. intros log x e H.
    destruct (inspectStringReflect (ValueOf i) h) as [log' [t err|]] eqn:E;
      [|discriminate].
    unfold Interface_ in H.
    destruct (ValueOf t) eqn:Et; inversion H; subst;
      destruct (inspectStringReflect_traced h (ValueOf i)) as [_ Hval];
      rewrite (Hval _ _ _ E), !ValueOf_idem in Et;
      rewrite Et; (split; [reflexivity|]); (split; [discriminate|]);
      intros Hk; rewrite <- Et; now apply ValueOf_id.
  - intros s Hin Hs Hsound.
    destruct (firstFailure_some h _ s Hin Hs) as [e He].
    destruct (firstFailure_split h _ e He) as (pre & s0 & post & Hsplit & _ & _ & Hu).
    exists (pre ++ [s0]), e. eapply InspectStrings_failure; eauto.
    apply (sound_settled h (ValueOf i) (sound_ValueOf i Hsound)).
Qed.

(** ** The scenarios of the specification, run on the code *)

(** [Merge({"a":{"x":1}}, {"a":{"y":2}})] is [{"a":{"x":1,"y":2}}]. *)
Example Merge_nested_maps :
  Merge [("a", VInterface (VMap TInterface [("x", VInterface (VInt 1))]))]
        [("a", VInterface (VMap TInterface [("y", VInterface (VInt 2))]))]
  = Some [("a", VInterface
                  (VMap TInterface
                     [("x", VInterface (VInt 1)); ("y", VInterface (VInt 2))]))].
Proof. reflexivity. Qed.

(** Sourcing [Enabled bool] tagged ["enabled"] from [{"enabled": true}]
    sets [Enabled] to [true]. *)
Example Source_sets_Enabled :
  Source ptrT settingsEnabled
  = (VPtr (TStruct "T")
       (VStruct "T" [(fEnabled, VBool true);
                     (fNames, VSlice TString []); (fN, VInt 7)]),
     Done None).
Proof. reflexivity. Qed.

(** Sourcing a [[]string] field from ["not a list"] fails, and this error
    names the field. *)
Example Source_type_mismatch :
  Source ptrT [("names", VInterface (VString "not a list"))]
  = (ptrT, Done (Some (ErrUnassignableAt "Names" (TSlice TString) TString))).
Proof. reflexivity. Qed.

(** [Source] on a struct that is not behind a pointer panics as soon as it
    has a field to set. *)
Example Source_struct_by_value :
  Source (VStruct "T" recordT) settingsEnabled = (VStruct "T" recordT, Crashed).
Proof. reflexivity. Qed.

(** The traversal stops at ["bad"]: the handler is not called on ["c"]. *)
Example InspectStrings_stops_at_bad :
  InspectStrings sliceABadC failOnBad
  = (["a"; "bad"], Ret sliceABadC (Some (ErrHandler "boom"))).
Proof. reflexivity. Qed.

(** A nil interface is dropped from a map and makes the traversal of a
    slice panic. *)
Example InspectStrings_nil_interface :
  InspectStrings (VMap TInterface [("k", VInterface ZeroValue)]) failOnBad
  = ([], Ret (VMap TInterface []) None) /\
  InspectStrings (VSlice TInterface [VInterface ZeroValue]) failOnBad
  = ([], Panic).
Proof. split; reflexivity. Qed.

(** * Further properties of the package *)

(** ** [Merge] *)

Lemma MapIndex_None_keys m k : MapIndex m k = None -> ~ In k (keys m).
Proof.
  induction m as [|[k' y] m IH]; simpl; auto.
  destruct (String.eqb k' k) eqn:E; [discriminate|].
  intros H [->|Hin]; [now rewrite String.eqb_refl in E|]. now apply IH.
Qed.

Lemma MapIndex_keys m k : In k (keys m) -> MapIndex m k <> None.
Proof.
  intros Hin Hn. now apply (MapIndex_None_keys m k Hn).
Qed.

Lemma keys_MapIndex m k : MapIndex m k <> None -> In k (keys m).
Proof.
  induction m as [|[k' y] m IH]; simpl; [congruence|].
  destruct (String.eqb k' k) eqn:E; auto.
  apply String.eqb_eq in E. auto.
Qed.

(** [m[k] = x] keeps the keys, or adds [k] after them. *)
Lemma keys_mapassign m k x :
  keys (mapassign m k x) = if in_dec string_dec k (keys m)
                           then keys m else keys m ++ [k].
Proof.
  induction m as [|[k' y] m IH]; simpl; auto.
  destruct (String.eqb k' k) eqn:E; simpl.
  - apply String.eqb_eq in E. subst k'.
    destruct (string_dec k k); [|congruence]. reflexivity.
  - rewrite IH. destruct (string_dec k' k) as [->|Hne].
    + now rewrite String.eqb_refl in E.
    + destruct (in_dec string_dec k (keys m)); reflexivity.
Qed.

Lemma mapassign_fresh m k x :
  ~ In k (keys m) -> mapassign m k x = m ++ [(k, x)].
Proof.
  induction m as [|[k' y] m IH]; simpl; auto. intros Hnin.
  destruct (String.eqb k' k) eqn:E.
  - apply String.eqb_eq in E. tauto.
  - rewrite IH by tauto. reflexivity.
Qed.

Lemma NoDup_keys_mapassign m k x :
  NoDup (keys m) -> NoDup (keys (mapassign m k x)).
Proof.
  intros H. rewrite keys_mapassign.
  destruct (in_dec string_dec k (keys m)); auto.
  apply NoDup_app; auto.
  - repeat constructor. simpl. tauto.
  - intros a Ha [->|[]]. contradiction.
Qed.

Lemma NoDup_keys_mergeEntry rec b k av result r :
  mergeEntry rec b k av result = Some r ->
  NoDup (keys result) -> NoDup (keys r).
Proof.
  unfold mergeEntry. intros H Hnd.
  repeat match type of H with
         | match ?x with _ => _ end = Some _ => destruct x; try discriminate
         | option_map _ ?x = Some _ => destruct x; simpl in H; try discriminate
         end;
    inversion H; subst; auto using NoDup_keys_mapassign.
Qed.

Lemma NoDup_keys_mergeRangeA rec b a : forall result r,
  mergeRangeA rec b a result = Some r ->
  NoDup (keys result) -> NoDup (keys r).
Proof.
  induction a as [|[k av] a IH]; simpl; intros result r H Hnd.
  - now inversion H; subst.
  - destruct (mergeEntry rec b k av result) as [r0|] eqn:E; [|discriminate].
    eapply IH; eauto. eapply NoDup_keys_mergeEntry; eauto.
Qed.

Lemma NoDup_keys_mergeRangeB a b : forall result,
  NoDup (keys result) -> NoDup (keys (mergeRangeB a b result)).
Proof.
  induction b as [|[k bv] b IH]; simpl; intros result Hnd; auto.
  destruct (MapIndex a k); auto using NoDup_keys_mapassign.
Qed.

(** The result of [Merge] is a map: its keys are distinct, whatever the
    inputs. *)
Theorem Merge_keys_distinct a b r :
  Merge a b = Some r -> NoDup (keys r).
Proof.
  rewrite Merge_eq.
  destruct (mergeRangeA MergeValue b a []) as [result|] eqn:E; [|discriminate].
  intros H. inversion H; subst.
  apply NoDup_keys_mergeRangeB.
  eapply NoDup_keys_mergeRangeA; eauto. constructor.
Qed.

Lemma Merge_keys_distinct_witness :
  NoDup (keys [("a", VInterface (VInt 2)); ("s", VInterface (VString "q"))]).
Proof.
  apply (Merge_keys_distinct
           [("a", VInterface (VInt 1)); ("s", VInterface (VString "q"))]
           [("a", VInterface (VInt 2))]).
  reflexivity.
Defined.

(** What the second loop leaves at a key that [a] lacks. *)
Lemma mergeRangeB_other a b k : forall result,
  ~ In k (keys b) ->
  MapIndex (mergeRangeB a b result) k = MapIndex result k.
Proof.
  induction b as [|[k0 bv] b IH]; simpl; intros result Hnin; auto.
  destruct (MapIndex a k0).
  - apply IH. tauto.
  - rewrite IH by tauto. apply MapIndex_mapassign_other. intros ->. tauto.
Qed.

Lemma mergeRangeB_not_in_a a b k bv : forall result,
  NoDup (keys b) ->
  MapIndex a k = None ->
  MapIndex b k = Some bv ->
  MapIndex (mergeRangeB a b result) k = Some bv.
Proof.
  induction b as [|[k0 bv0] b IH]; simpl; intros result Hnd Ha Hb;
    [discriminate|].
  inversion Hnd as [|? ? Hnin Hnd']; subst.
  destruct (String.eqb k0 k) eqn:E.
  - apply String.eqb_eq in E. subst k0. inversion Hb; subst bv0.
    rewrite Ha, mergeRangeB_other by assumption.
    apply MapIndex_mapassign_same.
  - destruct (MapIndex a k0); auto.
Qed.

(** X1: a key that only [b] has keeps the value of [b]. *)
Theorem Merge_only_in_b a b k bv r :
  NoDup (keys b) ->
  MapIndex a k = None ->
  MapIndex b k = Some bv ->
  Merge a b = Some r ->
  MapIndex r k = Some bv.
Proof.
  intros Hnd Ha Hb. rewrite Merge_eq.
  destruct (mergeRangeA MergeValue b a []) as [result|] eqn:E; [|discriminate].
  intros H. inversion H; subst.
  now apply mergeRangeB_not_in_a.
Qed.

Lemma Merge_only_in_b_witness :
  MapIndex [("a", VInterface (VInt 1)); ("z", VInterface ZeroValue)] "z"
  = Some (VInterface ZeroValue).
Proof.
  apply (Merge_only_in_b [("a", VInterface (VInt 1))]
                         [("z", VInterface ZeroValue)] "z").
  - repeat constructor. simpl. tauto.
  - reflexivity.
  - reflexivity.
  - reflexivity.
Defined.

(** X2: a key that both have with a [map[string]interface{}] on each side
    holds the merge of the two maps. *)
Theorem Merge_both_maps a b k av bv avm bvm r :
  NoDup (keys a) ->
  MapIndex a k = Some av ->
  MapIndex b k = Some bv ->
  ValueOf av = VMap TInterface avm ->
  ValueOf bv = VMap TInterface bvm ->
  Merge a b = Some r ->
  exists m,
    Merge avm bvm = Some m /\
    MapIndex r k = Some (VInterface (VMap TInterface m)).
Proof.
  intros Hnd Ha Hb Hav Hbv HM.
  destruct (Merge_at _ _ _ _ _ Hnd Ha HM) as (result0 & r0 & H1 & H2 & H3).
  unfold mergeEntry in H1. rewrite Hav, Hb, Hbv, MergeValue_eq in H1.
  destruct (Merge avm bvm) as [m|]; [|discriminate].
  inversion H1; subst. exists m. split; [reflexivity|].
  rewrite H3. apply MapIndex_mapassign_same.
Qed.

Lemma Merge_both_maps_witness :
  exists m,
    Merge [("x", VInterface (VInt 1))] [("y", VInterface (VInt 2))] = Some m /\
    MapIndex
      [("a", VInterface
               (VMap TInterface
                  [("x", VInterface (VInt 1)); ("y", VInterface (VInt 2))]))]
      "a"
    = Some (VInterface (VMap TInterface m)).
Proof.
  apply (Merge_both_maps
           [("a", VInterface (VMap TInterface [("x", VInterface (VInt 1))]))]
           [("a", VInterface (VMap TInterface [("y", VInterface (VInt 2))]))]
           "a"
           (VInterface (VMap TInterface [("x", VInterface (VInt 1))]))
           (VInterface (VMap TInterface [("y", VInterface (VInt 2))]))).
  - repeat constructor. simpl. tauto.
  - reflexivity.
  - reflexivity.
  - reflexivity.
  - reflexivity.
  - reflexivity.
Defined.

Lemma mergeEntry_at rec b k av result r :
  mergeEntry rec b k av result = Some r ->
  MapIndex result k = None ->
  (MapIndex r k <> None <->
   MapIndex b k <> None \/ isSequence av = false).
Proof.
  unfold mergeEntry, isSequence. intros H Hres.
  destruct (MapIndex b k) as [bv|];
    repeat match type of H with
           | match ?x with _ => _ end = Some _ => destruct x; try discriminate
           | option_map _ ?x = Some _ => destruct x; simpl in H; try discriminate
           end;
    inversion H; subst; simpl;
    try rewrite MapIndex_mapassign_same;
    try rewrite Hres;
    split; intros; try congruence; auto; intuition congruence.
Qed.

Lemma mergeRangeB_presence a b k : forall result,
  MapIndex a k = None ->
  (MapIndex (mergeRangeB a b result) k <> None <->
   MapIndex result k <> None \/ In k (keys b)).
Proof.
  induction b as [|[k0 bv] b IH]; simpl; intros result Ha.
  - tauto.
  - destruct (string_dec k0 k) as [->|Hne].
    + rewrite Ha, IH, MapIndex_mapassign_same by assumption.
      split; [auto|]. intros _. left. discriminate.
    + destruct (MapIndex a k0).
      * rewrite IH by assumption. tauto.
      * rewrite IH, MapIndex_mapassign_other by auto. tauto.
Qed.

(** X3: the keys of [Merge(a, b)] are the keys of [b] and the keys of [a]
    whose value is not a sequence; a key of [a] alone with a sequence as
    its value is the only one that is lost, and no key is invented. *)
Theorem Merge_key_set a b r k :
  NoDup (keys a) ->
  Merge a b = Some r ->
  (In k (keys r) <->
   In k (keys b) \/ exists av, MapIndex a k = Some av /\ isSequence av = false).
Proof.
  intros Hnd HM.
  assert (Hr : In k (keys r) <-> MapIndex r k <> None).
  { split; [apply MapIndex_keys|apply keys_MapIndex]. }
  assert (Hb : In k (keys b) <-> MapIndex b k <> None).
  { split; [apply MapIndex_keys|apply keys_MapIndex]. }
  rewrite Hr. destruct (MapIndex a k) as [av|] eqn:Ha.
  - destruct (Merge_at _ _ _ _ _ Hnd Ha HM) as (result0 & r0 & H1 & H2 & H3).
    rewrite H3, (mergeEntry_at _ _ _ _ _ _ H1 H2), Hb.
    split; intros [H|H]; auto.
    + right. eauto.
    + destruct H as (av' & Hav' & Hs). inversion Hav'; subst. auto.
  - rewrite Merge_eq in HM.
    destruct (mergeRangeA MergeValue b a []) as [result|] eqn:E; [|discriminate].
    inversion HM; subst r.
    rewrite (mergeRangeB_presence _ _ _ _ Ha).
    rewrite (mergeRangeA_other _ _ _ _ _ _ E (MapIndex_None_keys _ _ Ha)).
    simpl. split; intros [H|H]; auto; try congruence.
    destruct H as (av & Hav & _). discriminate.
Qed.

Lemma Merge_key_set_witness :
  In "x" (keys [("y", VInterface (VInt 2))]) <->
  In "x" (keys [("y", VInterface (VInt 2))]) \/
  exists av,
    MapIndex [("x", VInterface (VSlice TInterface [VInterface (VInt 1)]))] "x"
    = Some av /\ isSequence av = false.
Proof.
  apply (Merge_key_set
           [("x", VInterface (VSlice TInterface [VInterface (VInt 1)]))]
           [("y", VInterface (VInt 2))]).
  - repeat constructor. simpl. tauto.
  - reflexivity.
Defined.

Lemma mergeRangeB_empty_a b : forall result,
  NoDup (keys result ++ keys b) ->
  mergeRangeB [] b result = result ++ b.
Proof.
  induction b as [|[k bv] b IH]; simpl; intros result Hnd.
  - now rewrite app_nil_r.
  - assert (Hk : ~ In k (keys result)).
    { intros Hin. apply NoDup_remove_2 in Hnd. apply Hnd.
      apply in_or_app. auto. }
    rewrite mapassign_fresh by assumption.
    rewrite IH.
    + now rewrite <- app_assoc.
    + unfold keys in *. rewrite map_app, <- app_assoc. exact Hnd.
Qed.

(** X4: the empty map is a left unit of [Merge]: [Merge({}, b)] is [b],
    entry for entry. *)
Theorem Merge_empty_left b :
  NoDup (keys b) -> Merge [] b = Some b.
Proof.
  intros Hnd. rewrite Merge_eq. simpl. f_equal.
  now apply (mergeRangeB_empty_a b []).
Qed.

Lemma Merge_empty_left_witness :
  Merge [] [("a", VInterface (VInt 1)); ("l", VInterface (VSlice TInt [VInt 2]))]
  = Some [("a", VInterface (VInt 1)); ("l", VInterface (VSlice TInt [VInt 2]))].
Proof.
  apply Merge_empty_left. repeat constructor; simpl; intuition discriminate.
Defined.

Lemma mergeRangeA_empty_b rec a : forall result,
  NoDup (keys result ++ keys a) ->
  mergeRangeA rec [] a result
  = Some (result ++ filter (fun kx => negb (isSequence (snd kx))) a).
Proof.
  induction a as [|[k av] a IH]; simpl; intros result Hnd.
  - now rewrite app_nil_r.
  - assert (Hk : ~ In k (keys result)).
    { intros Hin. apply NoDup_remove_2 in Hnd. apply Hnd.
      apply in_or_app. auto. }
    assert (Hnd' : NoDup (keys result ++ keys a)).
    { now apply NoDup_remove_1 in Hnd. }
    assert (He : mergeEntry rec [] k av result =
                 Some (if isSequence av then result
                       else result ++ [(k, av)])).
    { unfold mergeEntry, isSequence. simpl.
      destruct (ValueOf av) as [| | | | | | | |[] ?| |]; simpl;
        try rewrite mapassign_fresh by assumption; reflexivity. }
    rewrite He. destruct (isSequence av); simpl.
    + now apply IH.
    + rewrite IH.
      * now rewrite <- app_assoc.
      * unfold keys in *. rewrite map_app, <- app_assoc. simpl. exact Hnd.
Qed.

(** X5: [Merge(a, {})] is [a] without the entries whose value is a
    sequence, entry for entry: the empty map is a right unit only on maps
    that hold no sequence. *)
Theorem Merge_empty_right a :
  NoDup (keys a) ->
  Merge a [] = Some (filter (fun kx => negb (isSequence (snd kx))) a).
Proof.
  intros Hnd. rewrite Merge_eq.
  now rewrite (mergeRangeA_empty_b MergeValue a []).
Qed.

Lemma Merge_empty_right_witness :
  Merge [("a", VInterface (VInt 1)); ("l", VInterface (VSlice TInt [VInt 2]))] []
  = Some (filter (fun kx => negb (isSequence (snd kx)))
                 [("a", VInterface (VInt 1));
                  ("l", VInterface (VSlice TInt [VInt 2]))]).
Proof.
  apply Merge_empty_right. repeat constructor; simpl; intuition discriminate.
Defined.

Lemma treeMap_mapassign m k x :
  treeMap m = true -> tree x = true -> treeMap (mapassign m k x) = true.
Proof.
  unfold treeMap. induction m as [|[k' y] m IH]; simpl; intros Hm Hx.
  - now rewrite Hx.
  - apply andb_prop in Hm. destruct Hm as [Hy Hm].
    destruct (String.eqb k' k); simpl.
    + now rewrite Hx, Hm.
    + now rewrite Hy, IH.
Qed.

Lemma treeMap_mergeRangeB a b : forall result,
  treeMap b = true -> treeMap result = true ->
  treeMap (mergeRangeB a b result) = true.
Proof.
  induction b as [|[k bv] b IH]; simpl; intros result Hb Hres; auto.
  unfold treeMap in Hb. simpl in Hb. apply andb_prop in Hb.
  destruct Hb as [Hbv Hb].
  destruct (MapIndex a k); auto using treeMap_mapassign.
Qed.

Lemma forallb_tree_app l1 l2 :
  forallb tree l1 = true -> forallb tree l2 = true ->
  forallb tree (l1 ++ l2) = true.
Proof. intros H1 H2. rewrite forallb_app, H1, H2. reflexivity. Qed.

(** X6: untyped trees are closed under [Merge]: on two maps of untyped
    trees [Merge] returns, and what it returns is a map of untyped trees. *)
Theorem Merge_trees a b :
  treeMap a = true -> treeMap b = true ->
  exists r, Merge a b = Some r /\ treeMap r = true.
Proof.
  intros Ha Hb.
  cut (forall v ma, ValueOf v = VMap TInterface ma -> treeMap ma = true ->
       forall mb, treeMap mb = true ->
       exists r, Merge ma mb = Some r /\ treeMap r = true).
  { intros H. apply (H (VMap TInterface a)); auto. }
  clear a b Ha Hb. intros v.
  induction v as [| | | | |e IH|et l _|et l _|et m IH|et e _|name fields _]
    using Value_ind; simpl; intros ma Hv Hma mb Hmb; try discriminate.
  - eauto.
  - inversion Hv; subst et m. clear Hv. rewrite Merge_eq.
    cut (forall result, treeMap result = true ->
         exists r, mergeRangeA MergeValue mb ma result = Some r /\
                   treeMap r = true).
    { intros H. destruct (H [] eq_refl) as (r & -> & Hr).
      eexists. split; [reflexivity|]. now apply treeMap_mergeRangeB. }
    induction ma as [|[k av] ma IHa]; simpl; intros result Hres; eauto.
    inversion IH as [|? ? Hav IH']; subst.
    unfold treeMap in Hma. simpl in Hma. apply andb_prop in Hma.
    destruct Hma as [Tav Ta].
    assert (He : exists r0, mergeEntry MergeValue mb k av result = Some r0 /\
                            treeMap r0 = true).
    { destruct (tree_inv _ Tav) as (e & -> & Ee & He).
      unfold mergeEntry. rewrite Ee. simpl in Hav.
      destruct (MapIndex mb k) as [bv|] eqn:Eb.
      - pose proof (treeMap_MapIndex _ _ _ Hmb Eb) as Tbv.
        destruct (tree_inv _ Tbv) as (e' & -> & Ee' & He').
        rewrite Ee'.
        destruct e as [| | | | | |[] la| |[] avm| |]; try contradiction;
          eauto using treeMap_mapassign;
          destruct e' as [| | | | | |[] lb| |[] bvm| |]; try contradiction;
          eauto using treeMap_mapassign.
        + rewrite (appendAll_trees la []) by assumption.
          rewrite (appendAll_trees lb) by assumption.
          eexists. split; [reflexivity|].
          apply treeMap_mapassign; auto. simpl.
          now apply forallb_tree_app.
        + rewrite MergeValue_eq.
          destruct (Hav avm Ee He bvm He') as (m & -> & Hm). simpl.
          eexists. split; [reflexivity|].
          apply treeMap_mapassign; auto.
      - destruct e as [| | | | | |[] la| |[] avm| |]; try contradiction;
          eauto using treeMap_mapassign. }
    destruct He as (r0 & -> & Hr0). apply IHa; auto.
Qed.

Lemma Merge_trees_witness :
  exists r,
    Merge [("a", VInterface (VMap TInterface [("x", VInterface (VInt 1))]))]
          [("a", VInterface (VMap TInterface [("y", VInterface (VInt 2))]))]
    = Some r /\ treeMap r = true.
Proof.
  apply Merge_trees; reflexivity.
Defined.

Lemma Merge_other_only_in_a_witness :
  MapIndex [("a", VInterface (VInt 1)); ("z", VInterface ZeroValue)] "a"
  = Some (VInterface (VInt 1)).
Proof.
  apply (Merge_other_only_in_a [("a", VInterface (VInt 1))]
                               [("z", VInterface ZeroValue)] "a").
  - repeat constructor. simpl. tauto.
  - reflexivity.
  - simpl. discriminate.
  - reflexivity.
  - reflexivity.
Defined.

(** ** [Source] and [toSpecificArray] *)

Lemma sourceLoop_all_skipped addressable settings ts fields :
  forallb (skipped settings) ts = true ->
  sourceLoop addressable settings ts fields = (fields, Done None).
Proof.
  induction ts as [|f ts IH]; simpl forallb; intros H; [reflexivity|].
  apply andb_prop in H. destruct H as [Hf Hts].
  rewrite sourceLoop_skip by assumption. auto.
Qed.

Lemma skipped_empty f : skipped [] f = true.
Proof. unfold skipped. destruct (externalKey f); reflexivity. Qed.

(** X7: with empty settings [Source] sets nothing and returns no error, on
    a struct as on a pointer to a struct. *)
Theorem Source_empty_settings i fields :
  recordOf i = Some fields ->
  exists i', Source i [] = (i', Done None) /\ recordOf i' = Some fields.
Proof.
  unfold recordOf, Source. intros Hrec.
  assert (Hall : forallb (skipped []) (map fst fields) = true).
  { apply forallb_forall. intros f _. apply skipped_empty. }
  destruct (ValueOf i) as [| | | | |e|et l|et l|et m|et e|name fs];
    try discriminate.
  - destruct e as [| | | | |e'|et' l|et' l|et' m|et' e'|name fs];
      try discriminate.
    inversion Hrec; subst fs. simpl.
    rewrite (sourceLoop_all_skipped true [] _ fields Hall). eauto.
  - inversion Hrec; subst fs. simpl.
    rewrite (sourceLoop_all_skipped false [] _ fields Hall). eauto.
Qed.

Lemma Source_empty_settings_witness :
  exists i', Source ptrT [] = (i', Done None) /\ recordOf i' = Some recordT.
Proof. apply (Source_empty_settings ptrT recordT). reflexivity. Defined.

Lemma sourceLoop_by_value settings ts fields :
  exists st,
    sourceLoop false settings ts fields = (fields, st) /\
    (st = Done None <-> forallb (skipped settings) ts = true).
Proof.
  induction ts as [|f ts IH]; simpl forallb.
  - exists (Done None). split; [reflexivity|tauto].
  - destruct (skipped settings f) eqn:Hs.
    + rewrite sourceLoop_skip by assumption. exact IH.
    + rewrite sourceLoop_cons. unfold FieldByNameSet.
      repeat match goal with
             | |- context [match ?x with _ => _ end] => destruct x eqn:?
             | |- context [if ?x then _ else _] => destruct x eqn:?
             end;
        try (eexists; split; [reflexivity|];
             split; intros; discriminate).
      all: exfalso; unfold skipped, externalKey in Hs;
        repeat match goal with
               | H : Lookup _ _ = _ |- _ => rewrite H in Hs; clear H
               | H : MapIndex _ _ = _ |- _ => rewrite H in Hs; clear H
               end; simpl in Hs;
        repeat match goal with
               | H : MapIndex _ _ = _ |- _ => rewrite H in Hs; clear H
               end; discriminate.
Qed.

(** X8: [Source] on a struct that is not behind a pointer never sets a
    field: the struct is returned as it was, and the call ends without
    error only when every field is skipped; a field that is not skipped
    ends it with an error or with the panic of [Set]. *)
Theorem Source_struct_by_value_unchanged name fields settings :
  exists st,
    Source (VStruct name fields) settings = (VStruct name fields, st) /\
    (st = Done None <->
     forallb (skipped settings) (map fst fields) = true).
Proof.
  unfold Source. simpl.
  destruct (sourceLoop_by_value settings (map fst fields) fields)
    as (st & -> & Hst).
  eauto.
Qed.

Lemma setField_fits fields name x fields' :
  setField fields name x = Some fields' ->
  Forall (fun fx => fits (FType (fst fx)) (snd fx) = true) fields ->
  Forall (fun fx => fits (FType (fst fx)) (snd fx) = true) fields'.
Proof.
  revert fields'. induction fields as [|[g z] rest IH]; simpl;
    intros fields' H HF; [discriminate|].
  inversion HF as [|? ? Hg Hrest]; subst.
  destruct (String.eqb (Name g) name).
  - destruct (assignTo (FType g) x) as [y|] eqn:E; inversion H; subst.
    constructor; auto. simpl. unfold fits.
    rewrite (assignTo_TypeOf _ _ _ E). apply rtype_eqb_refl.
  - destruct (setField rest name x) as [rest'|]; inversion H; subst.
    constructor; auto.
Qed.

Lemma sourceLoop_fits addressable settings ts : forall fields fields' st,
  sourceLoop addressable settings ts fields = (fields', st) ->
  Forall (fun fx => fits (FType (fst fx)) (snd fx) = true) fields ->
  Forall (fun fx => fits (FType (fst fx)) (snd fx) = true) fields'.
Proof.
  induction ts as [|g ts IH]; intros fields fields' st H HF.
  - inversion H; subst. assumption.
  - destruct (skipped settings g) eqn:Hs.
    + rewrite sourceLoop_skip in H by assumption. eauto.
    + destruct (sourceLoop_step addressable settings g ts fields Hs)
        as [(st0 & _ & E)|(av & fields0 & Hset & E)]; rewrite E in H.
      * inversion H; subst. assumption.
      * eapply IH; eauto. eapply setField_fits; eauto.
Qed.

(** X9: [Source] keeps the shape of the record: the same fields in the
    same order, and when every field held a value of its static type
    before the call, every field does after it, however the call ends. *)
Theorem Source_keeps_field_types i settings fields i' st :
  recordOf i = Some fields ->
  Source i settings = (i', st) ->
  exists fields',
    recordOf i' = Some fields' /\
    map fst fields' = map fst fields /\
    (Forall (fun fx => fits (FType (fst fx)) (snd fx) = true) fields ->
     Forall (fun fx => fits (FType (fst fx)) (snd fx) = true) fields').
Proof.
  unfold recordOf, Source. intros Hrec HS.
  destruct (ValueOf i) as [| | | | |e|et l|et l|et m|et e|name fs];
    try discriminate.
  - destruct e as [| | | | |e'|et' l|et' l|et' m|et' e'|name fs];
      try discriminate.
    inversion Hrec; subst fs. simpl in HS.
    destruct (sourceLoop true settings (map fst fields) fields)
      as [fields' st'] eqn:E.
    inversion HS; subst. exists fields'. simpl.
    eauto using sourceLoop_fst, sourceLoop_fits.
  - inversion Hrec; subst fs. simpl in HS.
    destruct (sourceLoop false settings (map fst fields) fields)
      as [fields' st'] eqn:E.
    inversion HS; subst. exists fields'. simpl.
    eauto using sourceLoop_fst, sourceLoop_fits.
Qed.

Lemma Source_keeps_field_types_witness :
  exists fields',
    recordOf (VPtr (TStruct "T")
                (VStruct "T" [(fEnabled, VBool false);
                              (fNames, VSlice TString
                                         [VString "a"; VString "b"]);
                              (fN, VInt 7)]))
    = Some fields' /\
    map fst fields' = map fst recordT /\
    (Forall (fun fx => fits (FType (fst fx)) (snd fx) = true) recordT ->
     Forall (fun fx => fits (FType (fst fx)) (snd fx) = true) fields').
Proof.
  apply (Source_keeps_field_types ptrT settingsNames recordT _ (Done None)).
  - reflexivity.
  - reflexivity.
Defined.

(** [Set] on the field of [f]: what is stored is the value as a slot of
    the type of the field holds it; [Set] panics when it is not
    assignable. *)
Lemma setField_of_field fields f x :
  In f (map fst fields) ->
  NoDup (map Name (map fst fields)) ->
  match assignTo (FType f) x with
  | Some y => exists fields',
      setField fields (Name f) x = Some fields' /\
      fieldValue fields' (Name f) = Some y
  | None => setField fields (Name f) x = None
  end.
Proof.
  induction fields as [|[g z] rest IH]; simpl; intros Hin Hnd; [tauto|].
  inversion Hnd as [|? ? Hnin Hnd']; subst.
  destruct (String.eqb (Name g) (Name f)) eqn:E.
  - apply String.eqb_eq in E.
    assert (g = f).
    { destruct Hin as [|Hin]; auto. exfalso. apply Hnin. rewrite E.
      now apply in_map. }
    subst g. destruct (assignTo (FType f) x) as [y|]; simpl; auto.
    eexists. split; [reflexivity|]. simpl. now rewrite String.eqb_refl.
  - destruct Hin as [->|Hin]; [now rewrite String.eqb_refl in E|].
    specialize (IH Hin Hnd').
    destruct (assignTo (FType f) x) as [y|].
    + destruct IH as (rest' & -> & Hv). simpl.
      eexists. split; [reflexivity|]. simpl. now rewrite E.
    + now rewrite IH.
Qed.

(** X10: the branch of [Source] for a setting that is not a sequence.
    [Source] is called on a pointer to a record and its loop reaches the
    field [f], whose key maps in [settings] to a value that is neither a
    slice nor an array.  When the value is nil, [Source] panics ([Type] of
    the zero Value).  When it has a type [t] that is not assignable to the
    type of the field, [Source] fails with the error that names the field,
    its type and [t].  In both cases the record is as the loop left it
    before [f].  When [t] is assignable, the field is set to the value and
    still holds it when the call ends. *)
Theorem Source_scalar_field
        et name fields settings pre f post fields1 tag setting :
  map fst fields = pre ++ f :: post ->
  NoDup (map Name (map fst fields)) ->
  sourceLoop true settings pre fields = (fields1, Done None) ->
  Lookup (Tag f) "json" = Some tag ->
  MapIndex settings (beforeComma tag) = Some setting ->
  kind (ValueOf setting) <> Slice ->
  kind (ValueOf setting) <> Array ->
  (TypeOf (ValueOf setting) = None ->
   Source (VPtr et (VStruct name fields)) settings
   = (VPtr et (VStruct name fields1), Crashed)) /\
  (forall t,
     TypeOf (ValueOf setting) = Some t ->
     AssignableTo t (FType f) = false ->
     Source (VPtr et (VStruct name fields)) settings
     = (VPtr et (VStruct name fields1),
        Done (Some (ErrUnassignableAt (Name f) (FType f) t)))) /\
  (forall t,
     TypeOf (ValueOf setting) = Some t ->
     AssignableTo t (FType f) = true ->
     exists y fields' st,
       assignTo (FType f) (ValueOf setting) = Some y /\
       Source (VPtr et (VStruct name fields)) settings
       = (VPtr et (VStruct name fields'), st) /\
       fieldValue fields' (Name f) = Some y).
Proof.
  intros Hfs Hnd Hpre Htag Hkey Hns Hna.
  assert (HS : Source (VPtr et (VStruct name fields)) settings =
               let (fields', st) :=
                 sourceLoop true settings (f :: post) fields1 in
               (VPtr et (VStruct name fields'), st)).
  { unfold Source. simpl. rewrite Hfs, sourceLoop_app, Hpre. reflexivity. }
  rewrite HS, sourceLoop_cons, Htag, Hkey.
  assert (Hdefault : forall (A : Type) (x y : A),
             match kind (ValueOf setting) with
             | Slice | Array => x
             | _ => y
             end = y).
  { intros A x y. destruct (kind (ValueOf setting)); congruence. }
  rewrite Hdefault. split; [|split].
  - intros Hnil. rewrite Hnil. reflexivity.
  - intros t Ht Hno. rewrite Ht, Hno. reflexivity.
  - intros t Ht Hyes. rewrite Ht, Hyes. simpl negb. cbv iota.
    destruct (assignTo_assignable (FType f) _ _ Ht Hyes) as [y Hy].
    assert (Hin : In f (map fst fields1)).
    { rewrite (sourceLoop_fst _ _ _ _ _ _ Hpre), Hfs.
      apply in_or_app. right. left. reflexivity. }
    assert (Hnd1 : NoDup (map Name (map fst fields1))).
    { now rewrite (sourceLoop_fst _ _ _ _ _ _ Hpre). }
    pose proof (setField_of_field fields1 f (ValueOf setting) Hin Hnd1) as Hset.
    rewrite Hy in Hset. destruct Hset as (fields2 & Hset & Hval).
    unfold FieldByNameSet. rewrite Hset.
    destruct (sourceLoop true settings post fields2) as [fields' st] eqn:Epost.
    exists y, fields', st. repeat split; auto.
    rewrite (sourceLoop_fieldValue _ _ _ _ _ _ _ Epost); auto.
    intros g Hg Heq. rewrite Hfs, !map_app in Hnd. simpl in Hnd.
    apply NoDup_remove_2 in Hnd. apply Hnd. rewrite <- Heq.
    apply in_or_app. right. now apply in_map.
Qed.

Lemma Source_scalar_field_witness :
  (TypeOf (ValueOf (VInterface (VBool true))) = None ->
   Source (VPtr (TStruct "T") (VStruct "T" recordT)) settingsEnabled
   = (VPtr (TStruct "T") (VStruct "T" recordT), Crashed)) /\
  (forall t,
     TypeOf (ValueOf (VInterface (VBool true))) = Some t ->
     AssignableTo t (FType fEnabled) = false ->
     Source (VPtr (TStruct "T") (VStruct "T" recordT)) settingsEnabled
     = (VPtr (TStruct "T") (VStruct "T" recordT),
        Done (Some (ErrUnassignableAt (Name fEnabled) (FType fEnabled) t)))) /\
  (forall t,
     TypeOf (ValueOf (VInterface (VBool true))) = Some t ->
     AssignableTo t (FType fEnabled) = true ->
     exists y fields' st,
       assignTo (FType fEnabled) (ValueOf (VInterface (VBool true))) = Some y /\
       Source (VPtr (TStruct "T") (VStruct "T" recordT)) settingsEnabled
       = (VPtr (TStruct "T") (VStruct "T" fields'), st) /\
       fieldValue fields' (Name fEnabled) = Some y).
Proof.
  apply (Source_scalar_field (TStruct "T") "T" recordT settingsEnabled
           [] fEnabled [fNames; fN] recordT "enabled"
           (VInterface (VBool true))).
  - reflexivity.
  - repeat constructor; simpl; intuition discriminate.
  - reflexivity.
  - reflexivity.
  - reflexivity.
  - simpl. discriminate.
  - simpl. discriminate.
Defined.

(** A nil setting makes [Source] panic. *)
Example Source_nil_setting_panics :
  Source ptrT [("enabled", VInterface ZeroValue)] = (ptrT, Crashed).
Proof. reflexivity. Qed.

Lemma toSpecificArrayLoop_returns te items : forall result av,
  toSpecificArrayLoop te items result = Ret av None ->
  exists items',
    av = VSlice te (result ++ items') /\
    Forall2 (fun x y => assignTo te (unwrapOnce x) = Some y) items items'.
Proof.
  induction items as [|x items IH]; intros result av H.
  - simpl in H. inversion H. exists []. now rewrite app_nil_r.
  - rewrite toSpecificArrayLoop_cons in H.
    destruct (TypeOf (unwrapOnce x)) as [tv|]; [|discriminate].
    destruct (negb (AssignableTo tv te)); [discriminate|].
    destruct (assignTo te (unwrapOnce x)) as [y|] eqn:Ey; [|discriminate].
    destruct (IH _ _ H) as (items' & -> & HF).
    exists (y :: items'). rewrite <- app_assoc. auto.
Qed.

Lemma toSpecificArray_slice array target av :
  toSpecificArray array target = Ret av None ->
  exists te items', TElem target = Some te /\ av = VSlice te items'.
Proof.
  unfold toSpecificArray. destruct (TElem target) as [te|]; [|discriminate].
  intros H. exists te.
  destruct array; try discriminate;
    destruct (toSpecificArrayLoop_returns _ _ _ _ H) as (items' & -> & _);
    eauto.
Qed.

(** X11: when [toSpecificArray] returns without error, the target type has
    an element type [te], and the result is a new slice of [te] with one
    element for each element of the given slice or array, in order: the
    element unwrapped once, as a slot of type [te] holds it.  So the
    result has the length of the input and each of its elements has type
    [te]. *)
Theorem toSpecificArray_returns array target av :
  toSpecificArray array target = Ret av None ->
  exists te t items items',
    TElem target = Some te /\
    (array = VSlice t items \/ array = VArray t items) /\
    av = VSlice te items' /\
    Forall2 (fun x y => assignTo te (unwrapOnce x) = Some y) items items' /\
    List.length items' = List.length items /\
    Forall (fun y => TypeOf y = Some te) items'.
Proof.
  unfold toSpecificArray. destruct (TElem target) as [te|]; [|discriminate].
  intros H.
  assert (Hloop : forall t items,
             array = VSlice t items \/ array = VArray t items ->
             toSpecificArrayLoop te items [] = Ret av None ->
             exists te0 t0 items0 items',
               Some te = Some te0 /\
               (array = VSlice t0 items0 \/ array = VArray t0 items0) /\
               av = VSlice te0 items' /\
               Forall2 (fun x y => assignTo te0 (unwrapOnce x) = Some y)
                       items0 items' /\
               List.length items' = List.length items0 /\
               Forall (fun y => TypeOf y = Some te0) items').
  { intros t items Harr Hl.
    destruct (toSpecificArrayLoop_returns _ _ _ _ Hl) as (items' & -> & HF).
    exists te, t, items, items'. repeat split; auto.
    - symmetry. eapply Forall2_length; eauto.
    - clear - HF. induction HF; constructor; auto.
      eapply assignTo_TypeOf; eauto. }
  destruct array; try discriminate; eapply Hloop; eauto.
Qed.

Lemma toSpecificArray_returns_witness :
  exists te t items items',
    TElem (TSlice TString) = Some te /\
    (VSlice TInterface [VInterface (VString "a"); VInterface (VString "b")]
     = VSlice t items \/
     VSlice TInterface [VInterface (VString "a"); VInterface (VString "b")]
     = VArray t items) /\
    VSlice TString [VString "a"; VString "b"] = VSlice te items' /\
    Forall2 (fun x y => assignTo te (unwrapOnce x) = Some y) items items' /\
    List.length items' = List.length items /\
    Forall (fun y => TypeOf y = Some te) items'.
Proof.
  apply (toSpecificArray_returns
           (VSlice TInterface [VInterface (VString "a"); VInterface (VString "b")])
           (TSlice TString)).
  reflexivity.
Defined.

(** X12: a sequence can only be sourced into a field whose type is a
    slice.  When the loop reaches a field of any other type whose key maps
    to a sequence, [Source] does not return without error: it ends there,
    with the error of an element or with a panic ([Elem] of a type without
    elements, or [Set] of the new slice), and the record is as the loop
    left it before the field. *)
Theorem Source_sequence_into_other_field
        et name fields settings pre f post fields1 tag setting :
  map fst fields = pre ++ f :: post ->
  NoDup (map Name (map fst fields)) ->
  sourceLoop true settings pre fields = (fields1, Done None) ->
  Lookup (Tag f) "json" = Some tag ->
  MapIndex settings (beforeComma tag) = Some setting ->
  kind (ValueOf setting) = Slice \/ kind (ValueOf setting) = Array ->
  (forall E, FType f <> TSlice E) ->
  exists st,
    Source (VPtr et (VStruct name fields)) settings
    = (VPtr et (VStruct name fields1), st) /\
    st <> Done None.
Proof.
  intros Hfs Hnd Hpre Htag Hkey Hseq Hty.
  assert (HS : Source (VPtr et (VStruct name fields)) settings =
               let (fields', st) :=
                 sourceLoop true settings (f :: post) fields1 in
               (VPtr et (VStruct name fields'), st)).
  { unfold Source. simpl. rewrite Hfs, sourceLoop_app, Hpre. reflexivity. }
  rewrite HS, sourceLoop_cons, Htag, Hkey.
  assert (Hbranch : forall (A : Type) (x y : A),
             match kind (ValueOf setting) with
             | Slice | Array => x
             | _ => y
             end = x).
  { intros A x y. destruct Hseq as [-> | ->]; reflexivity. }
  rewrite Hbranch.
  destruct (toSpecificArray (ValueOf setting) (FType f)) as [av [e|]|] eqn:E.
  - eexists. split; [reflexivity|discriminate].
  - destruct (toSpecificArray_slice _ _ _ E) as (te & items' & Hte & ->).
    assert (Hin : In f (map fst fields1)).
    { rewrite (sourceLoop_fst _ _ _ _ _ _ Hpre), Hfs.
      apply in_or_app. right. left. reflexivity. }
    assert (Hnd1 : NoDup (map Name (map fst fields1))).
    { now rewrite (sourceLoop_fst _ _ _ _ _ _ Hpre). }
    pose proof (setField_of_field fields1 f (VSlice te items') Hin Hnd1) as Hset.
    assert (Hno : assignTo (FType f) (VSlice te items') = None).
    { unfold assignTo. simpl.
      destruct (FType f) as [| | | | |e0| | | |] eqn:Ef; simpl in *;
        try discriminate; try reflexivity.
      destruct (rtype_eqb te e0) eqn:Eq; [|reflexivity].
      apply rtype_eqb_eq in Eq. subst. exfalso. eapply Hty; eauto. }
    rewrite Hno in Hset. unfold FieldByNameSet. rewrite Hset.
    eexists. split; [reflexivity|discriminate].
  - eexists. split; [reflexivity|discriminate].
Qed.

Lemma Source_sequence_into_other_field_witness :
  exists st,
    Source (VPtr (TStruct "T") (VStruct "T" recordT))
           [("enabled", VInterface (VSlice TBool [VBool true]))]
    = (VPtr (TStruct "T") (VStruct "T" recordT), st) /\
    st <> Done None.
Proof.
  apply (Source_sequence_into_other_field (TStruct "T") "T" recordT
           [("enabled", VInterface (VSlice TBool [VBool true]))]
           [] fEnabled [fNames; fN] recordT "enabled"
           (VInterface (VSlice TBool [VBool true]))).
  - reflexivity.
  - repeat constructor; simpl; intuition discriminate.
  - reflexivity.
  - reflexivity.
  - reflexivity.
  - left. reflexivity.
  - intros E. simpl. discriminate.
Defined.

(** ** [InspectStrings] with a handler that does not fail *)

Lemma distinct_NoDup l : distinct l = true -> NoDup l.
Proof.
  induction l as [|k l IH]; simpl; intros H; constructor.
  - apply andb_prop in H. destruct H as [H _].
    intros Hin. apply negb_true_iff in H.
    assert (existsb (String.eqb k) l = true); [|congruence].
    apply existsb_exists. exists k. split; auto. apply String.eqb_refl.
  - apply andb_prop in H. tauto.
Qed.

Lemma TypeOf_rewriteStrings f v : TypeOf (rewriteStrings f v) = TypeOf v.
Proof. destruct v; simpl; auto. now rewrite length_map. Qed.

Lemma ValueOf_rewriteStrings f v :
  ValueOf (rewriteStrings f v) = rewriteStrings f (ValueOf v).
Proof. induction v using Value_ind; simpl; auto. Qed.

(** The rewritten value is what a slot of the type of the value holds
    after [Set] of what the traversal returns for it. *)
Lemma assignTo_rewriteStrings f et x :
  sound x = true -> fits et x = true ->
  assignTo et (ValueOf (rewriteStrings f x)) = Some (rewriteStrings f x).
Proof.
  intros Hs Hfit. apply fits_TypeOf in Hfit.
  destruct x as [| | | | |e| | | | |];
    try (simpl ValueOf; apply assignTo_same;
         now rewrite TypeOf_rewriteStrings).
  simpl in Hfit. inversion Hfit; subst et.
  destruct e; simpl in Hs; try discriminate; reflexivity.
Qed.

Lemma forEach_completed {A S : Type} (body : A -> run)
      (store : A -> Value -> S -> option S) (strs : A -> list string)
      (g : A -> Value) (step : A -> S -> S) (items : list A) :
  Forall (fun x => body x = (strs x, Ret (g x) None) /\
                   forall s, store x (g x) s = Some (step x s)) items ->
  forall s,
    forEach body store items s
    = (flat_map strs items,
       Completed (fold_left (fun s x => step x s) items s)).
Proof.
  induction 1 as [|x items [Hx Hstore] _ IH]; simpl; intros s; auto.
  now rewrite Hx, Hstore, IH.
Qed.

Lemma fold_left_snoc {A B : Type} (g : A -> B) (items : list A) :
  forall acc,
    fold_left (fun nsv x => nsv ++ [g x]) items acc = acc ++ map g items.
Proof.
  induction items as [|x items IH]; simpl; intros acc.
  - now rewrite app_nil_r.
  - now rewrite IH, <- app_assoc.
Qed.

Lemma mapdelete_fresh m k : ~ In k (keys m) -> mapdelete m k = m.
Proof.
  induction m as [|[k' y] m IH]; simpl; auto. intros Hnin.
  destruct (String.eqb k' k) eqn:E.
  - apply String.eqb_eq in E. tauto.
  - rewrite IH by tauto. reflexivity.
Qed.

(** The map built by the loop over the entries of a map with distinct
    keys. *)
Lemma fold_left_SetMapIndex (g : Value -> Value) (m : list (string * Value)) :
  forall acc,
    NoDup (keys acc ++ keys m) ->
    fold_left (fun nmv kx =>
                 if isNilInterface (snd kx) then mapdelete nmv (fst kx)
                 else mapassign nmv (fst kx) (g (snd kx))) m acc
    = acc ++ flat_map (fun kx => if isNilInterface (snd kx) then []
                                 else [(fst kx, g (snd kx))]) m.
Proof.
  induction m as [|[k x] m IH]; simpl; intros acc Hnd.
  - now rewrite app_nil_r.
  - assert (Hk : ~ In k (keys acc)).
    { intros Hin. apply NoDup_remove_2 in Hnd. apply Hnd.
      apply in_or_app. auto. }
    assert (Hnd' : NoDup (keys acc ++ keys m)).
    { now apply NoDup_remove_1 in Hnd. }
    destruct (isNilInterface x).
    + rewrite mapdelete_fresh by assumption. now apply IH.
    + rewrite mapassign_fresh by assumption. rewrite IH.
      * now rewrite <- app_assoc.
      * unfold keys in *. rewrite map_app, <- app_assoc. exact Hnd.
Qed.

Lemma in_flat_map_strings {A : Type} (strs : A -> list string) items x s :
  In x items -> In s (strs x) -> In s (flat_map strs items).
Proof. intros Hx Hs. apply in_flat_map. eauto. Qed.

(** On a sound value with distinct keys, and a handler that fails on none
    of its strings, the traversal calls the handler once on every string,
    in order, and returns the rewritten value (the concrete one for an
    interface). *)
Lemma inspectStringReflect_rewrites h v :
  sound v = true ->
  distinctKeys v = true ->
  (forall s, In s (stringsOf v) -> snd (h s) = None) ->
  inspectStringReflect v h
  = (stringsOf v, Ret (ValueOf (rewriteStrings (fun s => fst (h s)) v)) None).
Proof.
  set (f := fun s => fst (h s)).
  induction v as [| | | |s|e IH|et l IH|et l IH|et m IH|et e IH|name fields IH]
    using Value_ind; intros Hs Hd Hh; try discriminate; try reflexivity.
  - (* a string *)
    simpl. specialize (Hh s (or_introl eq_refl)). unfold f.
    destruct (h s) as [s' err]. simpl in *. now subst err.
  - (* an interface *)
    simpl. apply IH; auto. destruct e; simpl in Hs; auto; discriminate.
  - (* a slice *)
    simpl in *. destruct l as [|x0 l0] eqn:El; [reflexivity|].
    rewrite <- El in *. replace (List.length l =? 0)%nat with false
      by (subst l; reflexivity).
    rewrite (forEach_completed
               (fun x => inspectStringReflect x h) _ stringsOf
               (fun x => ValueOf (rewriteStrings f x))
               (fun x nsv => nsv ++ [rewriteStrings f x])).
    + now rewrite fold_left_snoc.
    + rewrite Forall_forall in *. intros x Hx.
      rewrite forallb_forall in Hs, Hd.
      specialize (Hs x Hx). apply andb_prop in Hs. destruct Hs as [Hfit Hsx].
      split.
      * apply IH; auto. intros s Hin. apply Hh.
        eapply in_flat_map_strings; eauto.
      * intros nsv. now rewrite assignTo_rewriteStrings.
  - (* an array *)
    simpl in *. destruct l; [reflexivity|discriminate].
  - (* a map *)
    simpl in *. apply andb_prop in Hd. destruct Hd as [Hkeys Hd].
    rewrite (forEach_completed
               (fun kx : string * Value => inspectStringReflect (snd kx) h) _
               (fun kx => stringsOf (snd kx))
               (fun kx => ValueOf (rewriteStrings f (snd kx)))
               (fun kx nmv =>
                  if isNilInterface (snd kx) then mapdelete nmv (fst kx)
                  else mapassign nmv (fst kx) (rewriteStrings f (snd kx)))).
    + rewrite (fold_left_SetMapIndex (rewriteStrings f) m []); [reflexivity|].
      simpl. now apply distinct_NoDup.
    + rewrite Forall_forall in *. intros [k x] Hx. simpl.
      rewrite forallb_forall in Hs, Hd.
      specialize (Hs _ Hx). specialize (Hd _ Hx). simpl in Hs, Hd.
      destruct (isNilInterface x) eqn:Enil.
      * destruct x as [| | | | |[| | | | | | | | | |]| | | | |];
          try discriminate. simpl. auto.
      * simpl in Hs. apply andb_prop in Hs. destruct Hs as [Hfit Hsx].
        split.
        -- apply (IH _ Hx); auto. intros s Hin. apply Hh.
           apply in_flat_map. exists (k, x). auto.
        -- intros nmv. unfold SetMapIndex.
           rewrite (assignTo_rewriteStrings f et x Hsx Hfit). simpl.
           assert (Hnz : ValueOf (rewriteStrings f x) <> ZeroValue).
           { intros Hz.
             pose proof (assignTo_rewriteStrings f et x Hsx Hfit) as Ha.
             rewrite Hz in Ha. discriminate. }
           destruct (ValueOf (rewriteStrings f x)); congruence.
  - (* a pointer *)
    simpl in *. apply andb_prop in Hs. destruct Hs as [Hfit Hs].
    rewrite (IH Hs Hd Hh), (fits_TypeOf _ _ Hfit).
    now rewrite assignTo_rewriteStrings.
  - (* a struct *)
    simpl in *.
    rewrite (forEach_completed
               (fun fx : StructField * Value => inspectStringReflect (snd fx) h)
               _ (fun fx => stringsOf (snd fx))
               (fun fx => ValueOf (rewriteStrings f (snd fx)))
               (fun fx nsv => nsv ++ [(fst fx, rewriteStrings f (snd fx))])).
    + now rewrite (fold_left_snoc
                     (fun fx : StructField * Value =>
                        (fst fx, rewriteStrings f (snd fx)))).
    + rewrite Forall_forall in *. intros [g x] Hx. simpl.
      rewrite forallb_forall in Hs, Hd.
      specialize (Hs _ Hx). specialize (Hd _ Hx). simpl in Hs, Hd.
      apply andb_prop in Hs. destruct Hs as [Hfit Hsx].
      split.
      * apply (IH _ Hx); auto. intros s Hin. apply Hh.
        apply in_flat_map. exists (g, x). auto.
      * intros nsv. now rewrite assignTo_rewriteStrings.
Qed.

Lemma distinctKeys_ValueOf i :
  distinctKeys i = true -> distinctKeys (ValueOf i) = true.
Proof. induction i using Value_ind; simpl; auto. Qed.

Lemma noNilEntries_ValueOf i :
  noNilEntries i = true -> noNilEntries (ValueOf i) = true.
Proof. induction i using Value_ind; simpl; auto. Qed.

Lemma sound_TypeOf v : sound v = true -> TypeOf v <> None.
Proof. destruct v; simpl; discriminate. Qed.

Lemma firstFailure_none h l :
  (forall s, In s l -> snd (h s) = None) -> firstFailure h l = None.
Proof.
  induction l as [|s l IH]; simpl; intros H; auto.
  rewrite (H s) by auto. auto.
Qed.

(** [InspectStrings] on top of [inspectStringReflect_rewrites]. *)
Lemma InspectStrings_rewritten i h :
  sound i = true ->
  distinctKeys i = true ->
  (forall s, In s (stringsOf i) -> snd (h s) = None) ->
  InspectStrings i h
  = (stringsOf i,
     Ret (ValueOf (rewriteStrings (fun s => fst (h s)) i)) None).
Proof.
  intros Hs Hd Hh. unfold InspectStrings.
  rewrite (inspectStringReflect_rewrites h (ValueOf i)).
  - rewrite stringsOf_ValueOf, ValueOf_rewriteStrings, ValueOf_idem,
      <- ValueOf_rewriteStrings.
    rewrite Interface_ValueOf; [reflexivity|].
    rewrite ValueOf_rewriteStrings. intros Hz.
    apply (sound_TypeOf _ (sound_ValueOf i Hs)).
    now rewrite <- (TypeOf_rewriteStrings (fun s => fst (h s))), Hz.
  - now apply sound_ValueOf.
  - now apply distinctKeys_ValueOf.
  - now rewrite stringsOf_ValueOf.
Qed.

(** X13: the value is sound: every element, pointee and field has the
    static type of its slot, no pointer is nil, no array has elements, and
    a nil interface occurs only as the value of a map entry (it is not the
    value itself, nor in a slice, in a struct field or behind a pointer);
    its maps have distinct keys, as Go maps have.  With a handler that
    fails on none of its strings, [InspectStrings] calls the handler
    exactly once on each string, in the order of this traversal, and
    returns the value with every string replaced by what the handler
    returned for it and the nil entries of maps dropped; nothing else
    changes, except that every map is a new map, so that a map that was
    nil comes back empty and not nil (the model has one value for both). *)
Theorem InspectStrings_rewrites i h :
  sound i = true ->
  distinctKeys i = true ->
  (forall s, In s (stringsOf i) -> snd (h s) = None) ->
  InspectStrings i h
  = (stringsOf i,
     Ret (ValueOf (rewriteStrings (fun s => fst (h s)) i)) None).
Proof. exact (InspectStrings_rewritten i h). Qed.

Lemma InspectStrings_rewrites_witness :
  InspectStrings
    (VMap TInterface [("k", VInterface (VString "a"));
                      ("n", VInterface ZeroValue)])
    failOnBad
  = (stringsOf (VMap TInterface [("k", VInterface (VString "a"));
                                 ("n", VInterface ZeroValue)]),
     Ret (ValueOf (rewriteStrings
                     (fun s => fst (failOnBad s))
                     (VMap TInterface [("k", VInterface (VString "a"));
                                       ("n", VInterface ZeroValue)])))
         None).
Proof.
  apply InspectStrings_rewrites.
  - reflexivity.
  - reflexivity.
  - simpl. intros s [<-|[]]. reflexivity.
Defined.

Lemma map_fixes {A : Type} (g : A -> A) (l : list A) :
  Forall (fun x => g x = x) l -> map g l = l.
Proof. induction 1; simpl; congruence. Qed.

Lemma rewriteStrings_fixes f v :
  noNilEntries v = true ->
  (forall s, In s (stringsOf v) -> f s = s) ->
  rewriteStrings f v = v.
Proof.
  induction v as [| | | |s|e IH|et l IH|et l IH|et m IH|et e IH|name fields IH]
    using Value_ind; simpl; intros Hn Hf; try reflexivity.
  - now rewrite Hf by auto.
  - now rewrite IH.
  - f_equal. apply map_fixes. rewrite Forall_forall in *. intros x Hx.
    rewrite forallb_forall in Hn. apply IH; auto.
    intros s Hs. apply Hf. eapply in_flat_map_strings; eauto.
  - f_equal. apply map_fixes. rewrite Forall_forall in *. intros x Hx.
    rewrite forallb_forall in Hn. apply IH; auto.
    intros s Hs. apply Hf. eapply in_flat_map_strings; eauto.
  - f_equal. induction m as [|[k x] m IHm]; simpl in *; auto.
    apply andb_prop in Hn. destruct Hn as [Hx Hm].
    apply andb_prop in Hx. destruct Hx as [Hnil Hx].
    apply negb_true_iff in Hnil. rewrite Hnil.
    inversion IH as [|? ? IHx IH']; subst. simpl in IHx.
    rewrite IHx, IHm; auto.
    + intros s Hs. apply Hf. apply in_or_app. auto.
    + intros s Hs. apply Hf. apply in_or_app. auto.
  - now rewrite IH.
  - f_equal.
    apply (map_fixes (fun fx => (fst fx, rewriteStrings f (snd fx)))).
    rewrite Forall_forall in *. intros [g x] Hx. simpl.
    rewrite forallb_forall in Hn. f_equal. apply (IH _ Hx).
    + apply (Hn _ Hx).
    + intros s Hs. apply Hf. apply in_flat_map. exists (g, x). auto.
Qed.

(** X14: with a handler that returns every string of the value as it is,
    [InspectStrings] returns a value equal to the one it was given, up to
    nil maps (a map that was nil comes back empty and not nil; the model
    has one value for both), provided that the value is sound (every
    element, pointee and field has the static type of its slot, no pointer
    is nil, no array has elements, no nil interface outside map entries),
    its maps have distinct keys, as Go maps have, and none of them holds a
    nil entry. *)
Theorem InspectStrings_identity i h :
  sound i = true ->
  distinctKeys i = true ->
  noNilEntries i = true ->
  (forall s, In s (stringsOf i) -> h s = (s, None)) ->
  InspectStrings i h = (stringsOf i, Ret (ValueOf i) None).
Proof.
  intros Hs Hd Hn Hh.
  rewrite InspectStrings_rewritten; auto.
  - rewrite rewriteStrings_fixes; auto.
    intros s Hin. now rewrite Hh.
  - intros s Hin. now rewrite Hh.
Qed.

Lemma InspectStrings_identity_witness :
  InspectStrings sliceABadC (fun s => (s, None))
  = (stringsOf sliceABadC, Ret (ValueOf sliceABadC) None).
Proof.
  apply InspectStrings_identity; try reflexivity.
Defined.

(** X15: when the handler fails on no string of the value and the call
    does not panic, the handler has been called exactly once on each
    string, in traversal order, and no error is returned. *)
Theorem InspectStrings_calls_every_string i h :
  (forall s, In s (stringsOf i) -> snd (h s) = None) ->
  snd (InspectStrings i h) <> Panic ->
  exists x, InspectStrings i h = (stringsOf i, Ret x None).
Proof.
  intros Hh Hnp.
  destruct (inspectStringReflect_traced h (ValueOf i)) as [HT _].
  unfold traced in HT.
  rewrite stringsOf_ValueOf, (firstFailure_none h _ Hh) in HT.
  rewrite (untilFailure_none h _ (firstFailure_none h _ Hh)) in HT.
  unfold InspectStrings in *.
  destruct (inspectStringReflect (ValueOf i) h) as [log [t err|]];
    simpl in *; [|congruence].
  destruct HT as [-> [rv Hrv]]; [discriminate|]. inversion Hrv; subst.
  destruct (Interface_ rv) as [x|]; simpl in *; [eauto|congruence].
Qed.

Lemma InspectStrings_calls_every_string_witness :
  exists x,
    InspectStrings sliceABadC (fun s => (s, None))
    = (stringsOf sliceABadC, Ret x None).
Proof.
  apply InspectStrings_calls_every_string.
  - reflexivity.
  - simpl. discriminate.
Defined.

Lemma isNilInterface_rewriteStrings f x :
  isNilInterface (rewriteStrings f x) = isNilInterface x.
Proof.
  destruct x as [| | | | |e| | | | |]; simpl; auto. destruct e; reflexivity.
Qed.

Lemma isNilInterface_strings x : isNilInterface x = true -> stringsOf x = [].
Proof.
  destruct x as [| | | | |e| | | | |]; try discriminate.
  destruct e; try discriminate. reflexivity.
Qed.

Lemma fits_rewriteStrings f et x :
  fits et (rewriteStrings f x) = fits et x.
Proof. unfold fits. now rewrite TypeOf_rewriteStrings. Qed.

Lemma flat_map_strings_map {A : Type} (strs : A -> list string) (g : A -> A)
      (f : string -> string) (l : list A) :
  Forall (fun x => strs (g x) = map f (strs x)) l ->
  flat_map strs (map g l) = map f (flat_map strs l).
Proof.
  induction 1 as [|x l Hx _ IH]; simpl; auto.
  now rewrite map_app, Hx, IH.
Qed.

(** The strings of the rewritten value are the rewritten strings, in the
    same order. *)
Lemma stringsOf_rewriteStrings f v :
  stringsOf (rewriteStrings f v) = map f (stringsOf v).
Proof.
  induction v as [| | | |s|e IH|et l IH|et l IH|et m IH|et e IH|name fields IH]
    using Value_ind; simpl; auto.
  - now apply flat_map_strings_map.
  - now apply flat_map_strings_map.
  - induction IH as [|[k x] m Hx _ IHm]; simpl; auto.
    rewrite map_app, <- IHm. simpl in Hx.
    destruct (isNilInterface x) eqn:E; simpl.
    + now rewrite (isNilInterface_strings _ E).
    + now rewrite Hx.
  - apply (flat_map_strings_map
             (fun fx : StructField * Value => stringsOf (snd fx))
             (fun fx => (fst fx, rewriteStrings f (snd fx)))).
    eapply Forall_impl; [|exact IH]. auto.
Qed.

(** The rewritten value is sound when the value is. *)
Lemma sound_rewriteStrings f v :
  sound v = true -> sound (rewriteStrings f v) = true.
Proof.
  induction v as [| | | |s|e IH|et l IH|et l IH|et m IH|et e IH|name fields IH]
    using Value_ind; simpl; auto.
  - intros H. assert (He : sound e = true) by (destruct e; auto; discriminate).
    specialize (IH He). destruct e; simpl in *; auto; discriminate.
  - intros H. rewrite forallb_forall in *. intros y Hy.
    apply in_map_iff in Hy. destruct Hy as (x & <- & Hx).
    rewrite Forall_forall in IH. specialize (H x Hx).
    apply andb_prop in H. destruct H as [Hfit Hs].
    now rewrite fits_rewriteStrings, Hfit, IH.
  - now rewrite length_map.
  - intros H. rewrite forallb_forall in *. intros [k y] Hy.
    apply in_flat_map in Hy. destruct Hy as ([k0 x] & Hx & Hy). simpl in Hy.
    destruct (isNilInterface x) eqn:E; [contradiction|].
    destruct Hy as [Hy|[]]. inversion Hy; subst. simpl.
    rewrite Forall_forall in IH. specialize (H _ Hx). simpl in H.
    rewrite E in H. simpl in H. apply andb_prop in H. destruct H as [Hfit Hs].
    pose proof (IH _ Hx Hs) as Hr. simpl in Hr.
    rewrite fits_rewriteStrings, Hfit, Hr.
    apply orb_true_r.
  - intros H. apply andb_prop in H. destruct H as [Hfit Hs].
    now rewrite fits_rewriteStrings, Hfit, IH.
  - intros H. rewrite forallb_forall in *. intros [g y] Hy.
    apply in_map_iff in Hy. destruct Hy as ([g0 x] & Heq & Hx).
    inversion Heq; subst. simpl.
    rewrite Forall_forall in IH. specialize (H _ Hx). simpl in H.
    apply andb_prop in H. destruct H as [Hfit Hs].
    pose proof (IH _ Hx Hs) as Hr. simpl in Hr.
    now rewrite fits_rewriteStrings, Hfit, Hr.
Qed.

Lemma NoDup_distinct l : NoDup l -> distinct l = true.
Proof.
  induction 1 as [|k l Hnin _ IH]; simpl; auto.
  rewrite IH, andb_true_r. apply negb_true_iff.
  destruct (existsb (String.eqb k) l) eqn:E; auto.
  apply existsb_exists in E. destruct E as (k' & Hin & Heq).
  apply String.eqb_eq in Heq. subst. contradiction.
Qed.

Lemma keys_rewritten_entries (g : Value -> Value) m k :
  In k (keys (flat_map (fun kx => if isNilInterface (snd kx) then []
                                  else [(fst kx, g (snd kx))]) m)) ->
  In k (keys m).
Proof.
  induction m as [|[k0 x] m IH]; simpl; auto.
  unfold keys in *. rewrite map_app. intros H. apply in_app_or in H.
  destruct H as [H|H]; auto.
  destruct (isNilInterface x); simpl in H; tauto.
Qed.

Lemma NoDup_rewritten_entries (g : Value -> Value) m :
  NoDup (keys m) ->
  NoDup (keys (flat_map (fun kx => if isNilInterface (snd kx) then []
                                   else [(fst kx, g (snd kx))]) m)).
Proof.
  induction m as [|[k x] m IH]; simpl; intros H; [constructor|].
  inversion H as [|? ? Hnin Hnd]; subst.
  destruct (isNilInterface x); simpl; auto.
  constructor; auto. intros Hin. apply Hnin.
  eapply keys_rewritten_entries; eauto.
Qed.

(** The maps of the rewritten value have distinct keys when those of the
    value have. *)
Lemma distinctKeys_rewriteStrings f v :
  distinctKeys v = true -> distinctKeys (rewriteStrings f v) = true.
Proof.
  induction v as [| | | |s|e IH|et l IH|et l IH|et m IH|et e IH|name fields IH]
    using Value_ind; simpl; auto.
  - intros H. rewrite forallb_forall in *. intros y Hy.
    apply in_map_iff in Hy. destruct Hy as (x & <- & Hx).
    rewrite Forall_forall in IH. auto.
  - intros H. rewrite forallb_forall in *. intros y Hy.
    apply in_map_iff in Hy. destruct Hy as (x & <- & Hx).
    rewrite Forall_forall in IH. auto.
  - intros H. apply andb_prop in H. destruct H as [Hk Hm].
    apply andb_true_intro. split.
    + apply NoDup_distinct.
      apply (NoDup_rewritten_entries (rewriteStrings f)).
      now apply distinct_NoDup.
    + rewrite forallb_forall in *. intros [k y] Hy.
      apply in_flat_map in Hy. destruct Hy as ([k0 x] & Hx & Hy). simpl in Hy.
      destruct (isNilInterface x); [contradiction|].
      destruct Hy as [Hy|[]]. inversion Hy; subst. simpl.
      rewrite Forall_forall in IH. apply (IH _ Hx). apply (Hm _ Hx).
  - intros H. rewrite forallb_forall in *. intros [g y] Hy.
    apply in_map_iff in Hy. destruct Hy as ([g0 x] & Heq & Hx).
    inversion Heq; subst. simpl.
    rewrite Forall_forall in IH. apply (IH _ Hx). apply (H _ Hx).
Qed.

(** Rewriting twice is rewriting once with the composed function. *)
Lemma rewriteStrings_compose f g v :
  rewriteStrings g (rewriteStrings f v)
  = rewriteStrings (fun s => g (f s)) v.
Proof.
  induction v as [| | | |s|e IH|et l IH|et l IH|et m IH|et e IH|name fields IH]
    using Value_ind; simpl; auto; try (now rewrite IH).
  - f_equal. rewrite map_map. apply map_ext_in.
    rewrite Forall_forall in IH. auto.
  - f_equal. rewrite map_map. apply map_ext_in.
    rewrite Forall_forall in IH. auto.
  - f_equal. induction IH as [|[k x] m Hx _ IHm]; simpl; auto.
    destruct (isNilInterface x) eqn:E; simpl; auto.
    rewrite isNilInterface_rewriteStrings, E. simpl in *.
    now rewrite Hx, IHm.
  - f_equal. rewrite map_map. apply map_ext_in.
    rewrite Forall_forall in IH. intros [h x] Hx. simpl.
    f_equal. apply (IH _ Hx).
Qed.

(** X16: on a sound value (every element, pointee and field has the
    static type of its slot, no pointer is nil, no array has elements, no
    nil interface outside map entries) whose maps have distinct keys, the
    result of a call whose handler does not fail has the shape of the
    input: it has the same type, the strings it holds are those that the
    handler returned for the strings of the input, each as many times
    (in which order a map lists them is not fixed), and it is again a
    sound value whose maps have distinct keys. *)
Theorem InspectStrings_keeps_shape i h :
  sound i = true ->
  distinctKeys i = true ->
  (forall s, In s (stringsOf i) -> snd (h s) = None) ->
  exists x,
    InspectStrings i h = (stringsOf i, Ret x None) /\
    TypeOf x = TypeOf (ValueOf i) /\
    Permutation (stringsOf x) (map (fun s => fst (h s)) (stringsOf i)) /\
    sound x = true /\
    distinctKeys x = true.
Proof.
  intros Hs Hd Hh. eexists. split; [now apply InspectStrings_rewritten|].
  rewrite ValueOf_rewriteStrings.
  repeat split.
  - apply TypeOf_rewriteStrings.
  - now rewrite stringsOf_rewriteStrings, stringsOf_ValueOf.
  - apply sound_rewriteStrings. now apply sound_ValueOf.
  - apply distinctKeys_rewriteStrings. now apply distinctKeys_ValueOf.
Qed.

Lemma InspectStrings_keeps_shape_witness :
  exists x,
    InspectStrings mapXYZ (fun s => (String.append s "!", None))
    = (stringsOf mapXYZ, Ret x None) /\
    TypeOf x = TypeOf (ValueOf mapXYZ) /\
    Permutation
      (stringsOf x)
      (map (fun s => fst ((fun s => (String.append s "!", None (A:=error))) s))
           (stringsOf mapXYZ)) /\
    sound x = true /\
    distinctKeys x = true.
Proof.
  apply (InspectStrings_keeps_shape mapXYZ
           (fun s => (String.append s "!", None))).
  - reflexivity.
  - reflexivity.
  - reflexivity.
Defined.

(** X17: two calls in a row are one call with the composed handler.  The
    value is sound (every element, pointee and field has the static type
    of its slot, no pointer is nil, no array has elements, no nil
    interface outside map entries) and its maps have distinct keys; the
    handlers are functions of the string; [h1] fails on no string of the
    value and [h2] on none of the strings that [h1] returns.  Then
    [InspectStrings] with [h2] on the result of [InspectStrings] with [h1]
    returns what [InspectStrings] returns with the handler that applies
    [h1] and then [h2], and the strings that the second call hands to
    [h2] are those that [h1] returned, each as many times (in which order
    a map is visited is not fixed). *)
Theorem InspectStrings_twice i h1 h2 :
  sound i = true ->
  distinctKeys i = true ->
  (forall s, In s (stringsOf i) ->
             snd (h1 s) = None /\ snd (h2 (fst (h1 s))) = None) ->
  exists x,
    InspectStrings i h1 = (stringsOf i, Ret x None) /\
    snd (InspectStrings x h2)
    = snd (InspectStrings i (fun s => h2 (fst (h1 s)))) /\
    Permutation (fst (InspectStrings x h2))
                (map (fun s => fst (h1 s)) (stringsOf i)).
Proof.
  intros Hs Hd Hh.
  set (f1 := fun s => fst (h1 s)).
  exists (ValueOf (rewriteStrings f1 i)).
  assert (H1 : InspectStrings i h1
               = (stringsOf i, Ret (ValueOf (rewriteStrings f1 i)) None)).
  { apply InspectStrings_rewritten; auto. intros s Hin. apply (Hh s Hin). }
  split; [exact H1|].
  rewrite (InspectStrings_rewritten i (fun s => h2 (fst (h1 s)))); auto;
    [|intros s Hin; apply (Hh s Hin)].
  rewrite (InspectStrings_rewritten (ValueOf (rewriteStrings f1 i)) h2).
  - simpl. split.
    + rewrite (ValueOf_rewriteStrings (fun s => fst (h2 s))), ValueOf_idem.
      rewrite <- (ValueOf_rewriteStrings (fun s => fst (h2 s))).
      now rewrite rewriteStrings_compose.
    + now rewrite stringsOf_ValueOf, stringsOf_rewriteStrings.
  - rewrite ValueOf_rewriteStrings. apply sound_rewriteStrings.
    now apply sound_ValueOf.
  - rewrite ValueOf_rewriteStrings. apply distinctKeys_rewriteStrings.
    now apply distinctKeys_ValueOf.
  - rewrite ValueOf_rewriteStrings, stringsOf_rewriteStrings, stringsOf_ValueOf.
    intros s Hin. apply in_map_iff in Hin. destruct Hin as (s0 & <- & Hin).
    apply (Hh s0 Hin).
Qed.

Lemma InspectStrings_twice_witness :
  exists x,
    InspectStrings mapXYZ (fun s => (String.append s "!", None))
    = (stringsOf mapXYZ, Ret x None) /\
    snd (InspectStrings x (fun s => (String.append s "?", None)))
    = snd (InspectStrings mapXYZ
             (fun s => (fun s => (String.append s "?", None (A:=error)))
                         (fst ((fun s => (String.append s "!",
                                          None (A:=error))) s)))) /\
    Permutation
      (fst (InspectStrings x (fun s => (String.append s "?", None))))
      (map (fun s => fst ((fun s => (String.append s "!", None (A:=error))) s))
           (stringsOf mapXYZ)).
Proof.
  apply (InspectStrings_twice mapXYZ
           (fun s => (String.append s "!", None))
           (fun s => (String.append s "?", None))).
  - reflexivity.
  - reflexivity.
  - intros s _. split; reflexivity.
Defined.

(** ** The defaults transformer *)

Lemma get_put_same {A : Type} (m : list (string * A)) k x :
  transformer.get (transformer.put m k x) k = Some x.
Proof.
  induction m as [|[k' y] m IH]; simpl.
  - now rewrite String.eqb_refl.
  - destruct (String.eqb k' k) eqn:E; simpl.
    + now rewrite String.eqb_refl.
    + now rewrite E.
Qed.

Lemma get_put_other {A : Type} (m : list (string * A)) k k' x :
  k' <> k -> transformer.get (transformer.put m k x) k' = transformer.get m k'.
Proof.
  intros Hne. induction m as [|[k0 y] m IH]; simpl.
  - destruct (String.eqb k k') eqn:E; auto.
    apply String.eqb_eq in E. congruence.
  - destruct (String.eqb k0 k) eqn:E; simpl.
    + apply String.eqb_eq in E. subst k0.
      destruct (String.eqb k k') eqn:E'; auto.
      apply String.eqb_eq in E'. congruence.
    + now rewrite IH.
Qed.

(** Writing back what the map holds changes nothing. *)
Lemma put_get {A : Type} (m : list (string * A)) k x :
  transformer.get m k = Some x -> transformer.put m k x = m.
Proof.
  induction m as [|[k' y] m IH]; simpl; [discriminate|].
  destruct (String.eqb k' k) eqn:E.
  - apply String.eqb_eq in E. intros H. inversion H. now subst.
  - intros H. now rewrite IH.
Qed.

(** How [setArchaiusDefaultsForProfile] ends and what it leaves, by what
    the profile holds under [archaius]. *)
Lemma setArchaiusDefaultsForProfile_cases p n :
  match p with
  | None =>
      transformer.setArchaiusDefaultsForProfile p n
      = (p, [], transformer.Crashed)
  | Some m =>
      match transformer.get m "archaius" with
      | None =>
          transformer.setArchaiusDefaultsForProfile p n
          = (Some (transformer.put m "archaius"
                     (transformer.Held
                        (VInterface
                           (VMap TInterface
                              [("enabled", VInterface (VBool false))])))),
             [n], transformer.Done None)
      | Some x =>
          match transformer.object x with
          | Some archaius =>
              match MapIndex archaius "enabled" with
              | Some _ =>
                  transformer.setArchaiusDefaultsForProfile p n
                  = (p, [], transformer.Done None)
              | None =>
                  transformer.setArchaiusDefaultsForProfile p n
                  = (Some (transformer.put m "archaius"
                             (transformer.Held
                                (VInterface
                                   (VMap TInterface
                                      (mapassign archaius "enabled"
                                                 (VInterface (VBool false))))))),
                     [n], transformer.Done None)
              end
          | None =>
              match x with
              | transformer.NilObject =>
                  transformer.setArchaiusDefaultsForProfile p n
                  = (p, [], transformer.Crashed)
              | transformer.Held _ =>
                  transformer.setArchaiusDefaultsForProfile p n
                  = (p, [],
                     transformer.Done
                       (Some (transformer.ErrArchaiusNotObject None)))
              end
          end
      end
  end.
Proof.
  unfold transformer.setArchaiusDefaultsForProfile, transformer.object.
  destruct p as [m|]; simpl; [|reflexivity].
  destruct (transformer.get m "archaius") as [[|v]|]; try reflexivity.
  destruct (ValueOf v) as [| | | | | | | |[] archaius| |]; try reflexivity.
  destruct (MapIndex archaius "enabled"); reflexivity.
Qed.

(** A call that returns without error leaves a defaulted profile. *)
Lemma setArchaiusDefaultsForProfile_defaults p n p' log :
  transformer.setArchaiusDefaultsForProfile p n = (p', log, transformer.Done None) ->
  transformer.defaulted p' = true.
Proof.
  pose proof (setArchaiusDefaultsForProfile_cases p n) as Hc.
  unfold transformer.defaulted.
  destruct p as [m|]; [|rewrite Hc; discriminate].
  destruct (transformer.get m "archaius") as [x|] eqn:Ea.
  - destruct (transformer.object x) as [archaius|] eqn:Eo.
    + destruct (MapIndex archaius "enabled") eqn:Ee; rewrite Hc;
        intros H; inversion H; subst.
      * now rewrite Ea, Eo, Ee.
      * rewrite get_put_same. simpl. now rewrite MapIndex_mapassign_same.
    + destruct x; rewrite Hc; discriminate.
  - rewrite Hc. intros H. inversion H; subst.
    rewrite get_put_same. reflexivity.
Qed.

(** On a defaulted profile the call changes nothing and logs nothing. *)
Lemma setArchaiusDefaultsForProfile_defaulted p n :
  transformer.defaulted p = true ->
  transformer.setArchaiusDefaultsForProfile p n = (p, [], transformer.Done None).
Proof.
  pose proof (setArchaiusDefaultsForProfile_cases p n) as Hc.
  unfold transformer.defaulted.
  destruct p as [m|]; [|discriminate].
  destruct (transformer.get m "archaius") as [x|]; [|discriminate].
  destruct (transformer.object x) as [archaius|]; [|discriminate].
  destruct (MapIndex archaius "enabled"); [auto|discriminate].
Qed.

Lemma keepsEntries_refl m : transformer.keepsEntries m m.
Proof.
  split; auto. intros x Hx. exists x. split; auto.
  destruct (transformer.object x) as [archaius|] eqn:Eo; eauto.
Qed.

(** A call changes the profile only by adding. *)
Lemma setArchaiusDefaultsForProfile_keeps m n p' log e :
  transformer.setArchaiusDefaultsForProfile (Some m) n = (p', log, e) ->
  exists m', p' = Some m' /\ transformer.keepsEntries m m'.
Proof.
  pose proof (setArchaiusDefaultsForProfile_cases (Some m) n) as Hc.
  simpl in Hc. intros H.
  destruct (transformer.get m "archaius") as [x|] eqn:Ea.
  - destruct (transformer.object x) as [archaius|] eqn:Eo.
    + destruct (MapIndex archaius "enabled") eqn:Ee; rewrite Hc in H;
        inversion H; subst; eauto using keepsEntries_refl.
      eexists. split; [reflexivity|]. split.
      * intros k Hk. now apply get_put_other.
      * intros x0 Hx0. rewrite Ea in Hx0. inversion Hx0; subst x0.
        rewrite get_put_same. eexists. split; [reflexivity|].
        rewrite Eo. eexists. split; [reflexivity|].
        intros k y Hk. rewrite MapIndex_mapassign_other; auto.
        intros ->. congruence.
    + destruct x; rewrite Hc in H; inversion H; subst;
        eauto using keepsEntries_refl.
  - rewrite Hc in H. inversion H; subst.
    eexists. split; [reflexivity|]. split.
    + intros k Hk. now apply get_put_other.
    + intros x Hx. congruence.
Qed.

Lemma keepsEntries_trans m1 m2 m3 :
  transformer.keepsEntries m1 m2 -> transformer.keepsEntries m2 m3 ->
  transformer.keepsEntries m1 m3.
Proof.
  unfold transformer.keepsEntries. intros [H1 H1'] [H2 H2']. split.
  - intros k Hk. now rewrite H2, H1.
  - intros x Hx. destruct (H1' x Hx) as (x' & Hx' & Hm).
    destruct (H2' x' Hx') as (x'' & Hx'' & Hm').
    exists x''. split; auto.
    destruct (transformer.object x) as [archaius|] eqn:Eo.
    + destruct Hm as (archaius' & Eo' & Hk). rewrite Eo' in Hm'.
      destruct Hm' as (archaius'' & Eo'' & Hk').
      exists archaius''. split; auto.
    + subst x'. rewrite Eo in Hm'. exact Hm'.
Qed.

(** [assertProfile] returns the profile that the map holds under the name
    afterwards; it keeps the profile that was there and adds an empty one
    otherwise; the other names are as they were. *)
Lemma assertProfile_spec P n ps p :
  transformer.assertProfile P n = (ps, p) ->
  transformer.get ps n = Some p /\
  (forall n', n' <> n ->
              transformer.get ps n' = transformer.getProfile P n') /\
  (forall q, transformer.getProfile P n = Some q -> p = q /\ P = Some ps) /\
  (transformer.getProfile P n = None -> p = Some []).
Proof.
  unfold transformer.assertProfile, transformer.getProfile.
  destruct P as [ps0|]; simpl.
  - destruct (transformer.get ps0 n) as [q|] eqn:E; intros H;
      inversion H; subst.
    + repeat split; auto; congruence.
    + rewrite get_put_same. repeat split; auto; try discriminate.
      intros n' Hne. now apply get_put_other.
  - intros H. inversion H; subst. simpl. rewrite String.eqb_refl.
    repeat split; auto; try discriminate.
    intros n' Hne. destruct (String.eqb n n') eqn:E; auto.
    apply String.eqb_eq in E. congruence.
Qed.

(** One iteration of the loop. *)
Lemma setArchaiusDefaultsLoop_cons n rest P :
  exists ps p p' log e,
    transformer.assertProfile P n = (ps, p) /\
    transformer.setArchaiusDefaultsForProfile p n = (p', log, e) /\
    transformer.setArchaiusDefaultsLoop (n :: rest) P =
    match e with
    | transformer.Done None =>
        let '(P', log', e') :=
          transformer.setArchaiusDefaultsLoop
            rest (Some (transformer.put ps n p')) in
        (P', log ++ log', e')
    | transformer.Done (Some err) =>
        (Some (transformer.put ps n p'), log,
         transformer.Done (Some (transformer.ErrHandlingProfile n err)))
    | transformer.Crashed =>
        (Some (transformer.put ps n p'), log, transformer.Crashed)
    end.
Proof.
  destruct (transformer.assertProfile P n) as [ps p] eqn:Ea.
  destruct (transformer.setArchaiusDefaultsForProfile p n)
    as [[p' log] e] eqn:Eq.
  exists ps, p, p', log, e. split; [reflexivity|]. split; [exact Eq|].
  cbn [transformer.setArchaiusDefaultsLoop]. rewrite Ea, Eq.
  destruct e as [[err|]|]; reflexivity.
Qed.

(** The loop leaves a defaulted profile as it is. *)
Lemma setArchaiusDefaultsLoop_defaulted services :
  forall P P' log e n p,
    transformer.setArchaiusDefaultsLoop services P = (P', log, e) ->
    transformer.getProfile P n = Some p ->
    transformer.defaulted p = true ->
    transformer.getProfile P' n = Some p.
Proof.
  induction services as [|m rest IH]; intros P P' log e n p H Hn Hd.
  - simpl in H. inversion H; subst. assumption.
  - destruct (setArchaiusDefaultsLoop_cons m rest P)
      as (ps & q & q' & log0 & e0 & Ha & Hq & Heq).
    rewrite Heq in H. clear Heq.
    destruct (assertProfile_spec _ _ _ _ Ha) as (Hget & Hother & Hsame & _).
    assert (Hstate : transformer.getProfile
                       (Some (transformer.put ps m q')) n = Some p).
    { simpl. destruct (string_dec n m) as [->|Hne].
      - destruct (Hsame _ Hn) as [-> _].
        rewrite (setArchaiusDefaultsForProfile_defaulted _ _ Hd) in Hq.
        inversion Hq; subst. apply get_put_same.
      - rewrite get_put_other by assumption. rewrite Hother; auto. }
    destruct e0 as [[err|]|].
    + inversion H; subst. exact Hstate.
    + destruct (transformer.setArchaiusDefaultsLoop rest _)
        as [[P1 log1] e1] eqn:E.
      inversion H; subst. eapply IH; eauto.
    + inversion H; subst. exact Hstate.
Qed.

Lemma setArchaiusDefaultsLoop_defaults services :
  forall P P' log,
    transformer.setArchaiusDefaultsLoop services P
    = (P', log, transformer.Done None) ->
    forall n, In n services ->
      exists p, transformer.getProfile P' n = Some p /\
                transformer.defaulted p = true.
Proof.
  induction services as [|m rest IH]; intros P P' log H n Hin; [destruct Hin|].
  destruct (setArchaiusDefaultsLoop_cons m rest P)
    as (ps & q & q' & log0 & e0 & Ha & Hq & Heq).
  rewrite Heq in H. clear Heq.
  destruct e0 as [[err|]|]; try discriminate.
  destruct (transformer.setArchaiusDefaultsLoop rest _)
    as [[P1 log1] e1] eqn:E.
  inversion H; subst.
  destruct (string_dec n m) as [->|Hne].
  - exists q'. split.
    + eapply setArchaiusDefaultsLoop_defaulted; eauto.
      * simpl. apply get_put_same.
      * eapply setArchaiusDefaultsForProfile_defaults; eauto.
    + eapply setArchaiusDefaultsForProfile_defaults; eauto.
  - destruct Hin as [->|Hin]; [congruence|]. eapply IH; eauto.
Qed.

Lemma setArchaiusDefaultsLoop_keeps services :
  forall P P' log e n m,
    transformer.setArchaiusDefaultsLoop services P = (P', log, e) ->
    transformer.getProfile P n = Some (Some m) ->
    exists m', transformer.getProfile P' n = Some (Some m') /\
               transformer.keepsEntries m m'.
Proof.
  induction services as [|s rest IH]; intros P P' log e n m H Hn.
  - simpl in H. inversion H; subst. eauto using keepsEntries_refl.
  - destruct (setArchaiusDefaultsLoop_cons s rest P)
      as (ps & q & q' & log0 & e0 & Ha & Hq & Heq).
    rewrite Heq in H. clear Heq.
    destruct (assertProfile_spec _ _ _ _ Ha) as (Hget & Hother & Hsame & _).
    assert (Hstate : exists m1,
               transformer.getProfile
                 (Some (transformer.put ps s q')) n = Some (Some m1) /\
               transformer.keepsEntries m m1).
    { simpl. destruct (string_dec n s) as [->|Hne].
      - destruct (Hsame _ Hn) as [-> _].
        destruct (setArchaiusDefaultsForProfile_keeps _ _ _ _ _ Hq)
          as (m1 & -> & Hk).
        exists m1. split; auto. apply get_put_same.
      - exists m. rewrite get_put_other by assumption.
        rewrite Hother by assumption. auto using keepsEntries_refl. }
    destruct Hstate as (m1 & Hm1 & Hk1).
    destruct e0 as [[err|]|].
    + inversion H; subst. eauto.
    + destruct (transformer.setArchaiusDefaultsLoop rest _)
        as [[P1 log1] e1] eqn:E.
      inversion H; subst.
      destruct (IH _ _ _ _ _ _ E Hm1) as (m' & Hm' & Hk').
      eauto using keepsEntries_trans.
    + inversion H; subst. eauto.
Qed.

Lemma setArchaiusDefaultsLoop_others services :
  forall P P' log e n,
    transformer.setArchaiusDefaultsLoop services P = (P', log, e) ->
    ~ In n services ->
    transformer.getProfile P' n = transformer.getProfile P n.
Proof.
  induction services as [|s rest IH]; intros P P' log e n H Hnin.
  - simpl in H. now inversion H; subst.
  - destruct (setArchaiusDefaultsLoop_cons s rest P)
      as (ps & q & q' & log0 & e0 & Ha & Hq & Heq).
    rewrite Heq in H. clear Heq.
    destruct (assertProfile_spec _ _ _ _ Ha) as (_ & Hother & _ & _).
    assert (Hne : n <> s) by (intros ->; apply Hnin; left; reflexivity).
    assert (Hstate : transformer.getProfile
                       (Some (transformer.put ps s q')) n
                     = transformer.getProfile P n).
    { simpl. rewrite get_put_other by assumption. auto. }
    destruct e0 as [[err|]|].
    + inversion H; subst. exact Hstate.
    + destruct (transformer.setArchaiusDefaultsLoop rest _)
        as [[P1 log1] e1] eqn:E.
      inversion H; subst. rewrite <- Hstate. eapply IH; eauto.
      intros Hin. apply Hnin. now right.
    + inversion H; subst. exact Hstate.
Qed.

Lemma setArchaiusDefaultsLoop_stable services :
  forall P,
    (forall n, In n services ->
       exists p, transformer.getProfile P n = Some p /\
                 transformer.defaulted p = true) ->
    transformer.setArchaiusDefaultsLoop services P
    = (P, [], transformer.Done None).
Proof.
  induction services as [|s rest IH]; intros P Hall; [reflexivity|].
  destruct (Hall s (or_introl eq_refl)) as (p & Hp & Hd).
  destruct (setArchaiusDefaultsLoop_cons s rest P)
    as (ps & q & q' & log0 & e0 & Ha & Hq & Heq).
  rewrite Heq. clear Heq.
  destruct (assertProfile_spec _ _ _ _ Ha) as (Hget & _ & Hsame & _).
  destruct (Hsame _ Hp) as [-> ->].
  rewrite (setArchaiusDefaultsForProfile_defaulted _ _ Hd) in Hq.
  inversion Hq; subst. rewrite (put_get _ _ _ Hget).
  rewrite IH; [reflexivity|]. intros n Hin. apply Hall. now right.
Qed.

(** [TransformConfig] is [setArchaiusDefaults] with its error wrapped. *)
Lemma TransformConfig_loop services P P' log e :
  transformer.TransformConfig services P = (P', log, e) ->
  exists e0,
    transformer.setArchaiusDefaultsLoop services P = (P', log, e0) /\
    (e = transformer.Done None <-> e0 = transformer.Done None) /\
    (forall err, e = transformer.Done (Some err) ->
       exists err0, e0 = transformer.Done (Some err0) /\
                    err = transformer.ErrSettingArchaius err0).
Proof.
  unfold transformer.TransformConfig, transformer.setArchaiusDefaults.
  destruct (transformer.setArchaiusDefaultsLoop services P)
    as [[P0 log0] [[err0|]|]]; intros H; inversion H; subst;
    eexists; (split; [reflexivity|]); split;
    try (split; intros; discriminate); try tauto;
    intros err Herr; inversion Herr; eauto.
Qed.

(** X18: when [TransformConfig] returns without error, every Java service
    has a profile, and the profile has an [archaius] object with an
    [enabled] entry. *)
Theorem TransformConfig_defaults_every_service services P P' log n :
  transformer.TransformConfig services P = (P', log, transformer.Done None) ->
  In n services ->
  exists p, transformer.getProfile P' n = Some p /\
            transformer.defaulted p = true.
Proof.
  intros H Hin.
  destruct (TransformConfig_loop _ _ _ _ _ H) as (e0 & Hloop & [He _] & _).
  rewrite (He eq_refl) in Hloop.
  eapply setArchaiusDefaultsLoop_defaults; eauto.
Qed.

Lemma TransformConfig_defaults_every_service_witness :
  exists p,
    transformer.getProfile
      (Some [("clouddriver",
              Some [("archaius", transformer.archaiusEnabled false)])])
      "clouddriver" = Some p /\
    transformer.defaulted p = true.
Proof.
  apply (TransformConfig_defaults_every_service
           ["clouddriver"] None _ ["clouddriver"] "clouddriver").
  - reflexivity.
  - left. reflexivity.
Defined.

(** X19: [TransformConfig] only adds: however the call ends, a profile
    that was there is still there, with every key other than [archaius]
    as it was, an [archaius] that is not an object as it was, and every
    entry of an [archaius] object as it was; so an [enabled] entry that
    the profile had keeps its value. *)
Theorem TransformConfig_only_adds services P P' log e n m :
  transformer.TransformConfig services P = (P', log, e) ->
  transformer.getProfile P n = Some (Some m) ->
  exists m', transformer.getProfile P' n = Some (Some m') /\
             transformer.keepsEntries m m'.
Proof.
  intros H Hn.
  destruct (TransformConfig_loop _ _ _ _ _ H) as (e0 & Hloop & _).
  eapply setArchaiusDefaultsLoop_keeps; eauto.
Qed.

Lemma TransformConfig_only_adds_witness :
  exists m',
    transformer.getProfile
      (Some [("gate",
              Some [("archaius", transformer.archaiusEnabled true)])])
      "gate" = Some (Some m') /\
    transformer.keepsEntries
      [("archaius", transformer.archaiusEnabled true)]
      m'.
Proof.
  apply (TransformConfig_only_adds
           ["gate"]
           (Some [("gate",
                   Some [("archaius", transformer.archaiusEnabled true)])])
           _ [] (transformer.Done None) "gate").
  - reflexivity.
  - reflexivity.
Defined.

(** X20: [TransformConfig] leaves the profiles of the names that are not
    Java services as they are, and adds none for them. *)
Theorem TransformConfig_other_profiles services P P' log e n :
  transformer.TransformConfig services P = (P', log, e) ->
  ~ In n services ->
  transformer.getProfile P' n = transformer.getProfile P n.
Proof.
  intros H Hnin.
  destruct (TransformConfig_loop _ _ _ _ _ H) as (e0 & Hloop & _).
  eapply setArchaiusDefaultsLoop_others; eauto.
Qed.

Lemma TransformConfig_other_profiles_witness :
  transformer.getProfile
    (Some [("deck", Some []);
           ("gate",
            Some [("archaius", transformer.archaiusEnabled false)])])
    "deck"
  = transformer.getProfile (Some [("deck", Some [])]) "deck".
Proof.
  apply (TransformConfig_other_profiles
           ["gate"] (Some [("deck", Some [])]) _ ["gate"]
           (transformer.Done None) "deck").
  - reflexivity.
  - simpl. intuition discriminate.
Defined.

(** X21: [TransformConfig] is idempotent: after a call that returned
    without error, a second call changes nothing, logs nothing and returns
    without error. *)
Theorem TransformConfig_idempotent services P P' log :
  transformer.TransformConfig services P = (P', log, transformer.Done None) ->
  transformer.TransformConfig services P' = (P', [], transformer.Done None).
Proof.
  intros H.
  destruct (TransformConfig_loop _ _ _ _ _ H) as (e0 & Hloop & [He _] & _).
  rewrite (He eq_refl) in Hloop.
  unfold transformer.TransformConfig, transformer.setArchaiusDefaults.
  rewrite setArchaiusDefaultsLoop_stable; [reflexivity|].
  intros n Hin. eapply setArchaiusDefaultsLoop_defaults; eauto.
Qed.

Lemma TransformConfig_idempotent_witness :
  transformer.TransformConfig
    ["gate"]
    (Some [("gate",
            Some [("archaius", transformer.archaiusEnabled false)])])
  = (Some [("gate",
            Some [("archaius", transformer.archaiusEnabled false)])],
     [], transformer.Done None).
Proof.
  apply (TransformConfig_idempotent ["gate"] None _ ["gate"]).
  reflexivity.
Defined.

(** How [setArchaiusDefaultsForProfile] ends, by the profile it gets. *)
Lemma setArchaiusDefaultsForProfile_ended p n p' log e :
  transformer.setArchaiusDefaultsForProfile p n = (p', log, e) ->
  match e with
  | transformer.Done None =>
      transformer.acceptableProfile p = true /\
      log = (if transformer.defaulted p then [] else [n])
  | transformer.Done (Some err) =>
      err = transformer.ErrArchaiusNotObject None /\
      transformer.acceptableProfile p = false /\ p' = p /\ log = [] /\
      exists m v, p = Some m /\
                  transformer.get m "archaius" = Some (transformer.Held v) /\
                  forall a, ValueOf v <> VMap TInterface a
  | transformer.Crashed =>
      transformer.acceptableProfile p = false /\ p' = p /\ log = [] /\
      (p = None \/
       exists m, p = Some m /\
                 transformer.get m "archaius" = Some transformer.NilObject)
  end.
Proof.
  pose proof (setArchaiusDefaultsForProfile_cases p n) as Hc.
  unfold transformer.acceptableProfile, transformer.defaulted.
  destruct p as [m|].
  - destruct (transformer.get m "archaius") as [x|] eqn:Ea.
    + destruct (transformer.object x) as [archaius|] eqn:Eo.
      * destruct (MapIndex archaius "enabled"); rewrite Hc;
          intros H; inversion H; subst; auto.
      * destruct x as [|v]; rewrite Hc; intros H; inversion H; subst.
        -- repeat split; auto. right. eauto.
        -- repeat split; auto. exists m, v. repeat split; auto.
           intros a Hv. simpl in Eo. rewrite Hv in Eo.
           destruct a; discriminate.
    + rewrite Hc. intros H; inversion H; subst; auto.
  - rewrite Hc. intros H; inversion H; subst. auto.
Qed.

Lemma defaulted_acceptable p :
  transformer.defaulted p = true -> transformer.acceptableProfile p = true.
Proof.
  unfold transformer.defaulted, transformer.acceptableProfile.
  destruct p as [m|]; auto.
  destruct (transformer.get m "archaius") as [x|]; auto.
  destruct (transformer.object x); auto.
Qed.

(** The state after an iteration that returned no error, against the state
    before it. *)
Lemma setArchaiusDefaultsLoop_step P s ps q q' log :
  transformer.assertProfile P s = (ps, q) ->
  transformer.setArchaiusDefaultsForProfile q s
  = (q', log, transformer.Done None) ->
  transformer.acceptable P s = true /\
  log = (if transformer.defaultedAt P s then [] else [s]) /\
  transformer.defaultedAt (Some (transformer.put ps s q')) s = true /\
  (forall n, transformer.acceptable (Some (transformer.put ps s q')) n
             = transformer.acceptable P n) /\
  (forall n, n <> s ->
             transformer.getProfile (Some (transformer.put ps s q')) n
             = transformer.getProfile P n).
Proof.
  intros Ha Hq.
  destruct (assertProfile_spec _ _ _ _ Ha) as (Hget & Hother & Hsame & Hnew).
  pose proof (setArchaiusDefaultsForProfile_ended _ _ _ _ _ Hq) as [Hacc Hlog].
  pose proof (setArchaiusDefaultsForProfile_defaults _ _ _ _ Hq) as Hd.
  assert (Hothers : forall n, n <> s ->
             transformer.getProfile (Some (transformer.put ps s q')) n
             = transformer.getProfile P n).
  { intros n Hne. simpl. rewrite get_put_other by assumption. auto. }
  assert (HaccP : transformer.acceptable P s = true).
  { unfold transformer.acceptable.
    destruct (transformer.getProfile P s) as [q0|] eqn:E; auto.
    destruct (Hsame _ eq_refl) as [-> _]. assumption. }
  split; [exact HaccP|]. split; [|split; [|split; [|exact Hothers]]].
  - unfold transformer.defaultedAt.
    destruct (transformer.getProfile P s) as [q0|] eqn:E.
    + destruct (Hsame _ eq_refl) as [-> _]. assumption.
    + rewrite (Hnew eq_refl) in Hlog. exact Hlog.
  - unfold transformer.defaultedAt. simpl. rewrite get_put_same. exact Hd.
  - intros n. destruct (string_dec n s) as [->|Hne].
    + rewrite HaccP. unfold transformer.acceptable. simpl.
      rewrite get_put_same. now apply defaulted_acceptable.
    + unfold transformer.acceptable. now rewrite Hothers.
Qed.

Lemma setArchaiusDefaultsLoop_succeeds services :
  forall P P' log e,
    transformer.setArchaiusDefaultsLoop services P = (P', log, e) ->
    (e = transformer.Done None <->
     forall n, In n services -> transformer.acceptable P n = true).
Proof.
  induction services as [|s rest IH]; intros P P' log e H.
  - simpl in H. inversion H; subst. split; [intros _ n []|reflexivity].
  - destruct (setArchaiusDefaultsLoop_cons s rest P)
      as (ps & q & q' & log0 & e0 & Ha & Hq & Heq).
    rewrite Heq in H. clear Heq.
    assert (Hfail : transformer.acceptableProfile q = false ->
                    transformer.acceptable P s = false).
    { intros Hq0. unfold transformer.acceptable.
      destruct (assertProfile_spec _ _ _ _ Ha) as (_ & _ & Hsame & Hnew).
      destruct (transformer.getProfile P s) as [q0|] eqn:E.
      - destruct (Hsame _ eq_refl) as [-> _]. assumption.
      - rewrite (Hnew eq_refl) in Hq0. discriminate. }
    pose proof (setArchaiusDefaultsForProfile_ended _ _ _ _ _ Hq) as He.
    destruct e0 as [[err|]|].
    + inversion H; subst. destruct He as (_ & Hacc & _).
      split; [discriminate|]. intros Hall.
      rewrite (Hall s (or_introl eq_refl)) in Hfail.
      specialize (Hfail Hacc). discriminate.
    + destruct (setArchaiusDefaultsLoop_step _ _ _ _ _ _ Ha Hq)
        as (HaccP & _ & _ & Hsame & _).
      destruct (transformer.setArchaiusDefaultsLoop rest _)
        as [[P1 log1] e1] eqn:E.
      inversion H; subst. rewrite (IH _ _ _ _ E). split.
      * intros Hall n [<-|Hin]; auto. rewrite <- Hsame. auto.
      * intros Hall n Hin. rewrite Hsame. apply Hall. now right.
    + inversion H; subst. destruct He as (Hacc & _).
      split; [discriminate|]. intros Hall.
      rewrite (Hall s (or_introl eq_refl)) in Hfail.
      specialize (Hfail Hacc). discriminate.
Qed.

Lemma setArchaiusDefaultsLoop_failure services :
  forall P P' log e,
    transformer.setArchaiusDefaultsLoop services P = (P', log, e) ->
    match e with
    | transformer.Done None => True
    | transformer.Done (Some err) =>
        exists n m v,
          err = transformer.ErrHandlingProfile
                  n (transformer.ErrArchaiusNotObject None) /\
          In n services /\
          transformer.getProfile P n = Some (Some m) /\
          transformer.getProfile P' n = Some (Some m) /\
          transformer.get m "archaius" = Some (transformer.Held v) /\
          forall a, ValueOf v <> VMap TInterface a
    | transformer.Crashed =>
        exists n,
          In n services /\
          transformer.getProfile P' n = transformer.getProfile P n /\
          (transformer.getProfile P n = Some None \/
           exists m,
             transformer.getProfile P n = Some (Some m) /\
             transformer.get m "archaius" = Some transformer.NilObject)
    end.
Proof.
  induction services as [|s rest IH]; intros P P' log e H.
  - simpl in H. inversion H; subst. exact I.
  - destruct (setArchaiusDefaultsLoop_cons s rest P)
      as (ps & q & q' & log0 & e0 & Ha & Hq & Heq).
    rewrite Heq in H. clear Heq.
    destruct (assertProfile_spec _ _ _ _ Ha) as (Hget & _ & Hsame & Hnew).
    pose proof (setArchaiusDefaultsForProfile_ended _ _ _ _ _ Hq) as He.
    assert (Hold : transformer.acceptableProfile q = false ->
                   transformer.getProfile P s = Some q).
    { intros Hq0. destruct (transformer.getProfile P s) as [q0|] eqn:E.
      - destruct (Hsame _ eq_refl) as [-> _]. reflexivity.
      - rewrite (Hnew eq_refl) in Hq0. discriminate. }
    destruct e0 as [[err|]|].
    + inversion H; subst.
      destruct He as (-> & Hacc & -> & _ & m & v & -> & Hv & Hnot).
      exists s, m, v. repeat split; auto.
      * now left.
      * simpl. apply get_put_same.
    + destruct (setArchaiusDefaultsLoop_step _ _ _ _ _ _ Ha Hq)
        as (_ & _ & Hd & _ & Hothers).
      destruct (transformer.setArchaiusDefaultsLoop rest _)
        as [[P1 log1] e1] eqn:E.
      inversion H; subst. specialize (IH _ _ _ _ E).
      unfold transformer.defaultedAt in Hd.
      destruct e as [[err|]|]; auto.
      * destruct IH as (n & m & v & -> & Hin & Hn & Hn' & Hv & Hnot).
        exists n, m, v. split; [reflexivity|]. split; [now right|].
        split; [|auto].
        destruct (string_dec n s) as [->|Hne]; [|now rewrite <- Hothers].
        rewrite Hn in Hd. simpl in Hd. rewrite Hv in Hd. simpl in Hd.
        destruct (ValueOf v) as [| | | | | | | |[] a| |];
          try discriminate. now destruct (Hnot a).
      * destruct IH as (n & Hin & Hn' & Hn).
        exists n. split; [now right|].
        destruct (string_dec n s) as [->|Hne].
        -- exfalso. destruct Hn as [Hn|(m & Hn & Hm)];
             rewrite Hn in Hd; simpl in Hd; [|rewrite Hm in Hd];
             discriminate.
        -- rewrite <- Hothers by assumption. auto.
    + inversion H; subst. destruct He as (Hacc & -> & _ & Hcause).
      exists s. split; [now left|].
      rewrite (Hold Hacc). simpl. rewrite get_put_same.
      split; [reflexivity|].
      destruct Hcause as [->|(m & -> & Hm)]; eauto.
Qed.

Lemma setArchaiusDefaultsLoop_log services :
  forall P P' log,
    transformer.setArchaiusDefaultsLoop services P
    = (P', log, transformer.Done None) ->
    forall n, In n log <->
              In n services /\ transformer.defaultedAt P n = false.
Proof.
  induction services as [|s rest IH]; intros P P' log H n.
  - simpl in H. inversion H; subst. simpl. tauto.
  - destruct (setArchaiusDefaultsLoop_cons s rest P)
      as (ps & q & q' & log0 & e0 & Ha & Hq & Heq).
    rewrite Heq in H. clear Heq.
    destruct e0 as [[err|]|]; try discriminate.
    destruct (setArchaiusDefaultsLoop_step _ _ _ _ _ _ Ha Hq)
      as (_ & Hlog & Hd & _ & Hothers).
    destruct (transformer.setArchaiusDefaultsLoop rest _)
      as [[P1 log1] e1] eqn:E.
    inversion H; subst. rewrite in_app_iff, (IH _ _ _ E n).
    destruct (string_dec n s) as [->|Hne].
    + rewrite Hd.
      destruct (transformer.defaultedAt P s); simpl; intuition discriminate.
    + assert (Hsame : transformer.defaultedAt
                        (Some (transformer.put ps s q')) n
                      = transformer.defaultedAt P n).
      { unfold transformer.defaultedAt. now rewrite Hothers. }
      rewrite Hsame.
      destruct (transformer.defaultedAt P s); simpl; intuition congruence.
Qed.

(** X22: [TransformConfig] returns without error exactly when no Java
    service has a nil profile or a profile whose [archaius] is not a
    [map[string]interface{}] or is a nil one; when some service has, the
    call returns an error or panics. *)
Theorem TransformConfig_succeeds_iff services P P' log e :
  transformer.TransformConfig services P = (P', log, e) ->
  (e = transformer.Done None <->
   forall n, In n services -> transformer.acceptable P n = true).
Proof.
  intros H.
  destruct (TransformConfig_loop _ _ _ _ _ H) as (e0 & Hloop & He & _).
  rewrite He. eapply setArchaiusDefaultsLoop_succeeds; eauto.
Qed.

Lemma TransformConfig_succeeds_iff_witness :
  transformer.Done
    (Some (transformer.ErrSettingArchaius
             (transformer.ErrHandlingProfile
                "gate" (transformer.ErrArchaiusNotObject None))))
  = transformer.Done None <->
  forall n, In n ["gate"] ->
    transformer.acceptable
      (Some [("gate", Some [("archaius", transformer.Held (VInterface (VString "on")))])]) n
    = true.
Proof.
  apply (TransformConfig_succeeds_iff
           ["gate"]
           (Some [("gate", Some [("archaius", transformer.Held (VInterface (VString "on")))])])
           (Some [("gate", Some [("archaius", transformer.Held (VInterface (VString "on")))])])
           []).
  reflexivity.
Defined.

(** X23: when [TransformConfig] returns an error, the error is the one
    made for a Java service whose profile had an [archaius] that is not a
    [map[string]interface{}]: it is built by the three [fmt.Errorf] calls,
    with the name of the service and, in place of the value found, the nil
    map that the failed type assertion left.  When the call panics, a Java
    service had a nil profile, or a profile whose [archaius] is a nil
    [map[string]interface{}].  In both cases the profile of that service
    is as it was. *)
Theorem TransformConfig_failure services P P' log e :
  transformer.TransformConfig services P = (P', log, e) ->
  e <> transformer.Done None ->
  exists n,
    In n services /\
    transformer.getProfile P' n = transformer.getProfile P n /\
    match e with
    | transformer.Done _ =>
        e = transformer.Done
              (Some (transformer.ErrSettingArchaius
                       (transformer.ErrHandlingProfile
                          n (transformer.ErrArchaiusNotObject None)))) /\
        exists m v,
          transformer.getProfile P n = Some (Some m) /\
          transformer.get m "archaius" = Some (transformer.Held v) /\
          forall a, ValueOf v <> VMap TInterface a
    | transformer.Crashed =>
        transformer.getProfile P n = Some None \/
        exists m,
          transformer.getProfile P n = Some (Some m) /\
          transformer.get m "archaius" = Some transformer.NilObject
    end.
Proof.
  intros H Hne.
  unfold transformer.TransformConfig, transformer.setArchaiusDefaults in H.
  destruct (transformer.setArchaiusDefaultsLoop services P)
    as [[P0 log0] e0] eqn:E.
  pose proof (setArchaiusDefaultsLoop_failure _ _ _ _ _ E) as Hf.
  destruct e0 as [[err|]|]; inversion H; subst.
  - destruct Hf as (n & m & v & -> & Hin & Hn & Hn' & Hv & Hnot).
    exists n. split; [exact Hin|]. split; [congruence|].
    split; [reflexivity|]. exists m, v. auto.
  - now destruct Hne.
  - destruct Hf as (n & Hin & Hn' & Hn). eauto.
Qed.

Lemma TransformConfig_failure_witness :
  exists n,
    In n ["gate"] /\
    transformer.getProfile
      (Some [("gate", Some [("archaius", transformer.NilObject)])]) n
    = transformer.getProfile
        (Some [("gate", Some [("archaius", transformer.NilObject)])]) n /\
    (transformer.getProfile
       (Some [("gate", Some [("archaius", transformer.NilObject)])]) n
     = Some None \/
     exists m,
       transformer.getProfile
         (Some [("gate", Some [("archaius", transformer.NilObject)])]) n
       = Some (Some m) /\
       transformer.get m "archaius" = Some transformer.NilObject).
Proof.
  apply (TransformConfig_failure
           ["gate"]
           (Some [("gate", Some [("archaius", transformer.NilObject)])])
           (Some [("gate", Some [("archaius", transformer.NilObject)])])
           [] transformer.Crashed).
  - reflexivity.
  - discriminate.
Defined.

(** The error of [TransformConfig] on a profile whose [archaius] is a
    string. *)
Example TransformConfig_archaius_not_object :
  transformer.TransformConfig
    ["gate"]
    (Some [("gate",
            Some [("archaius", transformer.Held (VInterface (VString "on")))])])
  = (Some [("gate",
            Some [("archaius", transformer.Held (VInterface (VString "on")))])],
     [],
     transformer.Done
       (Some (transformer.ErrSettingArchaius
                (transformer.ErrHandlingProfile
                   "gate" (transformer.ErrArchaiusNotObject None))))).
Proof. reflexivity. Qed.

(** X24: when [TransformConfig] returns without error, the profile names
    it logged as defaulted are the Java services that had no profile with
    an [archaius] object holding [enabled]. *)
Theorem TransformConfig_log services P P' log n :
  transformer.TransformConfig services P = (P', log, transformer.Done None) ->
  (In n log <-> In n services /\ transformer.defaultedAt P n = false).
Proof.
  intros H.
  destruct (TransformConfig_loop _ _ _ _ _ H) as (e0 & Hloop & [He _] & _).
  rewrite (He eq_refl) in Hloop.
  eapply setArchaiusDefaultsLoop_log; eauto.
Qed.

Lemma TransformConfig_log_witness :
  In "gate" ["gate"] <->
  In "gate" ["orca"; "gate"] /\
  transformer.defaultedAt
    (Some [("orca",
            Some [("archaius", transformer.archaiusEnabled true)])])
    "gate" = false.
Proof.
  apply (TransformConfig_log
           ["orca"; "gate"]
           (Some [("orca",
                   Some [("archaius", transformer.archaiusEnabled true)])])
           (Some [("orca",
                   Some [("archaius", transformer.archaiusEnabled true)]);
                  ("gate",
                   Some [("archaius", transformer.archaiusEnabled false)])])
           ["gate"] "gate").
  reflexivity.
Defined.
